(** * database-insight: the Toad DDL extractor

    A shallow embedding of [database_insight/adapters/toad_parser.py] and of
    the data model of [database_insight/models/schema.py], together with the
    properties the specification states about them.

    Layout of the development:
    - [PyStr]    : the Python [str] operations the extractor calls;
    - [Re]       : a backtracking matcher with the priorities of Python's
                   [re] module, and what a match means;
    - [Exc]      : exceptions, and [int()] with its conversion limit;
    - [Schema]   : the records of [models/schema.py];
    - [Toad]     : the patterns and the methods of [ToadDdlParser];
    - [Examples] : sample documents;
    - [PyStrFacts], [ReFacts], [FuelFacts], [ExcFacts]: the library of facts
                   about strings, the matcher and the loops;
    - [UnescapeFacts], [ToadFacts], [TotalFacts]: the properties of the
                   extractor;
    - [Shapes], [Cli], [Samples]: shapes of text for the statements, what
                   the commands of [database_insight/cli.py] compute from
                   the model, and more sample documents;
    - [LitFacts] to [LookupFacts]: further properties of the extractor,
                   method by method, and of the commands;
    - [NullableFacts]: how far the trailing text of a column reaches, and
                   the nullability that is read from it.

    Characters.  A Python [str] is modelled as a list of 8-bit characters.
    The classes [\s], [\w], [\d], case folding and [str.upper] are the ASCII
    ones; characters above 127 stand for characters outside every class.
    Python's IGNORECASE folds more than ASCII: it lets I match U+0130 and
    U+0131, K match U+212A and S match U+017F.  The statements that rest on
    the folding of the letters I, K or S are therefore made for ASCII text
    ([ascii_text]), where the matcher and [re] agree. *)

From Stdlib Require Import Ascii String ZArith Lia Sorted Permutation.
From stdpp Require Import base option list gmap strings.

Set Default Proof Using "Type".
Open Scope nat_scope.

(** ** Python strings *)

Module PyStr.

Abbreviation str := (list ascii).

(** A literal of the source. *)
Definition lit (s : string) : str := list_ascii_of_string s.

Definition code (c : ascii) : nat := nat_of_ascii c.

Definition in_range (lo hi : nat) (c : ascii) : bool :=
  (lo <=? code c) && (code c <=? hi).

Definition is_digit (c : ascii) : bool := in_range 48 57 c.
Definition is_lower (c : ascii) : bool := in_range 97 122 c.
Definition is_upper (c : ascii) : bool := in_range 65 90 c.

(** [\w]: letters, digits and the underscore. *)
Definition is_word (c : ascii) : bool :=
  is_digit c || is_lower c || is_upper c || (code c =? 95).

(** [str.isspace] and [\s]: TAB, LF, VT, FF, CR, the four separators
    FS, GS, RS, US (28..31) and the space. *)
Definition is_space (c : ascii) : bool :=
  in_range 9 13 c || in_range 28 32 c.

Definition upper_char (c : ascii) : ascii :=
  if is_lower c then ascii_of_nat (code c - 32) else c.

Definition lower_char (c : ascii) : ascii :=
  if is_upper c then ascii_of_nat (code c + 32) else c.

(** [s.upper()] *)
Definition upper (s : str) : str := map upper_char s.

Definition ascii_eqb (a b : ascii) : bool := Ascii.eqb a b.
Arguments ascii_eqb : simpl never.

Fixpoint str_eqb (a b : str) : bool :=
  match a, b with
  | [], [] => true
  | x :: a', y :: b' => ascii_eqb x y && str_eqb a' b'
  | _, _ => false
  end.

(** [s.startswith(p)] *)
Fixpoint starts_with (p s : str) : bool :=
  match p, s with
  | [], _ => true
  | x :: p', y :: s' => ascii_eqb x y && starts_with p' s'
  | _ :: _, [] => false
  end.

(** [needle in hay] *)
Fixpoint contains (needle hay : str) : bool :=
  starts_with needle hay ||
  match hay with
  | [] => false
  | _ :: t => contains needle t
  end.

Fixpoint lstrip (s : str) : str :=
  match s with
  | c :: t => if is_space c then lstrip t else s
  | [] => []
  end.

Definition rstrip (s : str) : str := rev (lstrip (rev s)).

(** [s.strip()] *)
Definition strip (s : str) : str := lstrip (rstrip s).

(** [s.split(sep)] for a one-character separator: the result is never
    empty, and has one more field than there are separators. *)
Fixpoint split_on (sep : ascii) (s : str) : list str :=
  match s with
  | [] => [[]]
  | c :: t =>
      if ascii_eqb c sep then [] :: split_on sep t
      else match split_on sep t with
           | h :: r => (c :: h) :: r
           | [] => [[c]]
           end
  end.

(** [s.split()]: the maximal runs of non-space characters. *)
Fixpoint split_ws_aux (s : str) (cur : str) : list str :=
  match s with
  | [] => match cur with [] => [] | _ => [rev cur] end
  | c :: t =>
      if is_space c
      then match cur with
           | [] => split_ws_aux t []
           | _ => rev cur :: split_ws_aux t []
           end
      else split_ws_aux t (c :: cur)
  end.

Definition split_ws (s : str) : list str := split_ws_aux s [].

(** [sep.join(l)] *)
Fixpoint join (sep : str) (l : list str) : str :=
  match l with
  | [] => []
  | [x] => x
  | x :: r => x ++ sep ++ join sep r
  end.

(** [s.replace(old, new)] for a non-empty [old]: the occurrences are found
    from left to right and do not overlap.  [skip] counts the characters of a
    replaced occurrence that are still to be passed over. *)
Fixpoint replace_from (old new : str) (s : str) (skip : nat) : str :=
  match s with
  | [] => []
  | c :: t =>
      match skip with
      | S k => replace_from old new t k
      | O =>
          if starts_with old s
          then new ++ replace_from old new t (length old - 1)
          else c :: replace_from old new t 0
      end
  end.

Definition replace (old new s : str) : str := replace_from old new s 0.

Definition digit_val (c : ascii) : Z := Z.of_nat (code c - 48).

(** The value of a string of decimal digits. *)
Definition digits_val (s : str) : Z :=
  fold_left (fun acc c => (10 * acc + digit_val c)%Z) s 0%Z.

End PyStr.
Export PyStr.

(** ** Regular expressions with the matching order of Python's [re] *)

Module Re.

(** Character classes of the patterns.  [CDot] is [.] without DOTALL,
    [CAny] is [.] under DOTALL, [CNoneOf l] is [[^...]]. *)
Inductive cclass :=
| CWord | CSpace | CDigit | CDot | CAny
| CNoneOf (l : list ascii).

(** The fragment of the pattern language the extractor uses.  [Star true]
    is the greedy [*], [Star false] the lazy [*?]; [Bol] is [^] under
    MULTILINE, [Eol] is [$] without MULTILINE, [EndZ] is [\Z], [Look] is the
    lookahead [(?=...)], [Lit] obeys IGNORECASE when the flag is set. *)
Inductive regex :=
| Eps
| Lit (a : ascii)
| Cls (cc : cclass)
| Seq (r1 r2 : regex)
| Alt (r1 r2 : regex)
| Star (greedy : bool) (r : regex)
| Group (n : nat) (r : regex)
| Bol | Eol | EndZ
| Look (r : regex).

(** Derived forms. *)
Definition Plus (greedy : bool) (r : regex) : regex := Seq r (Star greedy r).
Definition Opt (r : regex) : regex := Alt r Eps.

Fixpoint Lits (s : list ascii) : regex :=
  match s with
  | [] => Eps
  | [a] => Lit a
  | a :: t => Seq (Lit a) (Lits t)
  end.

Fixpoint Seqs (l : list regex) : regex :=
  match l with
  | [] => Eps
  | [r] => r
  | r :: t => Seq r (Seqs t)
  end.

Definition nl : ascii := ascii_of_nat 10.

Definition in_class (cc : cclass) (c : ascii) : bool :=
  match cc with
  | CWord => is_word c
  | CSpace => is_space c
  | CDigit => is_digit c
  | CDot => negb (ascii_eqb c nl)
  | CAny => true
  | CNoneOf l => negb (existsb (ascii_eqb c) l)
  end.

(** Comparison of a pattern character with a subject character. *)
Definition chr_eq (ic : bool) (a x : ascii) : bool :=
  if ic then ascii_eqb (lower_char a) (lower_char x) else ascii_eqb a x.

(** A position in the subject: its index, the character before it and the
    text from it on. *)
Record cursor := Cursor {
  pos : nat;
  prev : option ascii;
  rest : list ascii
}.

Definition start_of (s : str) : cursor := Cursor 0 None s.

Definition advance (c : cursor) : cursor :=
  match rest c with
  | x :: t => Cursor (S (pos c)) (Some x) t
  | [] => c
  end.

(** The spans of the groups that took part in the match so far. *)
Abbreviation caps := (gmap nat (nat * nat)).

Definition at_bol (c : cursor) : bool :=
  match prev c with
  | None => true
  | Some x => ascii_eqb x nl
  end.

Definition at_end (c : cursor) : bool :=
  match rest c with [] => true | _ => false end.

(** [$] without MULTILINE: the end, or just before a final line feed. *)
Definition at_eol (c : cursor) : bool :=
  match rest c with
  | [] => true
  | [x] => ascii_eqb x nl
  | _ => false
  end.

Definition orelse {R} (a b : option R) : option R :=
  match a with Some x => Some x | None => b end.

(** The loop of a repetition.  [body] matches the repeated expression once;
    an iteration that made no progress is not repeated, so the remaining
    length, which [fuel] starts from, bounds the number of iterations.  The
    greedy loop tries one more iteration before the continuation, the lazy
    loop the continuation first. *)
Fixpoint star_loop {R : Type} (greedy : bool)
    (body : cursor -> caps -> (cursor -> caps -> option R) -> option R)
    (k : cursor -> caps -> option R) (fuel : nat) (c : cursor) (g : caps)
    {struct fuel} : option R :=
  match fuel with
  | O => k c g
  | S fuel' =>
      let again :=
        body c g (fun c' g' =>
                    if pos c <? pos c' then star_loop greedy body k fuel' c' g'
                    else None) in
      if greedy then orelse again (k c g) else orelse (k c g) again
  end.

(** The matcher, in continuation-passing style: [k] is what remains to be
    matched after [r]; alternatives are tried in the order of [re], the first
    complete match wins, and the spans set on an abandoned path are dropped
    with it. *)
Fixpoint rmatch {R : Type} (ic : bool) (r : regex) (c : cursor) (g : caps)
    (k : cursor -> caps -> option R) {struct r} : option R :=
  match r with
  | Eps => k c g
  | Lit a =>
      match rest c with
      | x :: _ => if chr_eq ic a x then k (advance c) g else None
      | [] => None
      end
  | Cls cc =>
      match rest c with
      | x :: _ => if in_class cc x then k (advance c) g else None
      | [] => None
      end
  | Seq r1 r2 => rmatch ic r1 c g (fun c' g' => rmatch ic r2 c' g' k)
  | Alt r1 r2 => orelse (rmatch ic r1 c g k) (rmatch ic r2 c g k)
  | Star greedy r1 =>
      star_loop greedy (rmatch ic r1) k (length (rest c)) c g
  | Group n r1 =>
      rmatch ic r1 c g (fun c' g' => k c' (<[n := (pos c, pos c')]> g'))
  | Bol => if at_bol c then k c g else None
  | Eol => if at_eol c then k c g else None
  | EndZ => if at_end c then k c g else None
  | Look r1 =>
      match rmatch ic r1 c g (fun _ g' => Some g') with
      | Some g' => k c g'
      | None => None
      end
  end.

(** A match object: the span of the whole match and of its groups. *)
Record rmatch_obj := MatchObj {
  m_start : nat;
  m_end : nat;
  m_caps : caps
}.

(** [pattern.match(s)] from a given cursor. *)
Definition match_at (ic : bool) (r : regex) (c : cursor) : option (cursor * rmatch_obj) :=
  rmatch ic r c ∅ (fun c' g' => Some (c', MatchObj (pos c) (pos c') g')).

(** The scan of [search]: the leftmost position with a match. *)
Fixpoint search_from (ic : bool) (r : regex) (fuel : nat) (c : cursor)
  : option (cursor * rmatch_obj) :=
  match match_at ic r c with
  | Some res => Some res
  | None =>
      match fuel with
      | O => None
      | S fuel' =>
          match rest c with
          | [] => None
          | _ :: _ => search_from ic r fuel' (advance c)
          end
      end
  end.

(** The scan of [finditer]: after a match the scan resumes at its end (one
    character further after an empty match, which the patterns of the
    extractor never produce).  [fuel] bounds the number of matches by the
    length of the subject; [FuelFacts] shows that the bound is never what
    ends the scan. *)
Fixpoint finditer_from (ic : bool) (r : regex) (fuel : nat) (c : cursor)
  : list rmatch_obj :=
  match fuel with
  | O => []
  | S fuel' =>
      match search_from ic r (length (rest c)) c with
      | None => []
      | Some (c', m) =>
          m :: (if m_start m <? m_end m then finditer_from ic r fuel' c'
                else match rest c' with
                     | [] => []
                     | _ :: _ => finditer_from ic r fuel' (advance c')
                     end)
      end
  end.

Definition re_match (ic : bool) (r : regex) (s : str) : option rmatch_obj :=
  snd <$> match_at ic r (start_of s).

Definition re_search (ic : bool) (r : regex) (s : str) : option rmatch_obj :=
  snd <$> search_from ic r (length s) (start_of s).

Definition re_finditer (ic : bool) (r : regex) (s : str) : list rmatch_obj :=
  finditer_from ic r (S (length s)) (start_of s).

(** [s[i:j]] for [0 <= i <= j]. *)
Definition slice (s : str) (i j : nat) : str := take (j - i) (drop i s).

(** [m.group(n)]: [None] when the group took no part in the match. *)
Definition group (s : str) (m : rmatch_obj) (n : nat) : option str :=
  (fun p => slice s (fst p) (snd p)) <$> (m_caps m !! n).

(** *** What a match means

    The matcher above is a search; [dmatch] says, without any search order,
    which spans a pattern can cover and which group spans it then leaves. *)

(** The character before position [i]. *)
Definition char_before (s : str) (i : nat) : option ascii :=
  match i with
  | O => None
  | S p => s !! p
  end.

Definition bol_at (s : str) (i : nat) : Prop :=
  char_before s i = None \/ char_before s i = Some nl.

Definition eol_at (s : str) (i : nat) : Prop :=
  drop i s = [] \/ drop i s = [nl].

Inductive dmatch (ic : bool) (s : str)
  : regex -> nat -> caps -> nat -> caps -> Prop :=
| DEps i g : dmatch ic s Eps i g i g
| DLit a x i g :
    s !! i = Some x -> chr_eq ic a x = true ->
    dmatch ic s (Lit a) i g (S i) g
| DCls cc x i g :
    s !! i = Some x -> in_class cc x = true ->
    dmatch ic s (Cls cc) i g (S i) g
| DSeq r1 r2 i g j g' k g'' :
    dmatch ic s r1 i g j g' -> dmatch ic s r2 j g' k g'' ->
    dmatch ic s (Seq r1 r2) i g k g''
| DAltL r1 r2 i g j g' :
    dmatch ic s r1 i g j g' -> dmatch ic s (Alt r1 r2) i g j g'
| DAltR r1 r2 i g j g' :
    dmatch ic s r2 i g j g' -> dmatch ic s (Alt r1 r2) i g j g'
| DStarO b r i g : dmatch ic s (Star b r) i g i g
| DStarS b r i g j g' k g'' :
    dmatch ic s r i g j g' -> i < j -> dmatch ic s (Star b r) j g' k g'' ->
    dmatch ic s (Star b r) i g k g''
| DGroup n r i g j g' :
    dmatch ic s r i g j g' ->
    dmatch ic s (Group n r) i g j (<[n := (i, j)]> g')
| DBol i g : bol_at s i -> dmatch ic s Bol i g i g
| DEol i g : eol_at s i -> dmatch ic s Eol i g i g
| DEndZ i g : drop i s = [] -> dmatch ic s EndZ i g i g
| DLook r i g j g' :
    dmatch ic s r i g j g' -> dmatch ic s (Look r) i g i g'.

(** A cursor that stands at a position of [s]. *)
Definition cur_ok (s : str) (c : cursor) : Prop :=
  rest c = drop (pos c) s /\ pos c <= length s /\ prev c = char_before s (pos c).

(** The groups every match of [r] sets. *)
Fixpoint sets (r : regex) (n : nat) : bool :=
  match r with
  | Group m r1 => (n =? m) || sets r1 n
  | Seq r1 r2 => sets r1 n || sets r2 n
  | Alt r1 r2 => sets r1 n && sets r2 n
  | Look r1 => sets r1 n
  | _ => false
  end.

(** The expressions that group [n] encloses in [r]. *)
Fixpoint group_bodies (n : nat) (r : regex) : list regex :=
  match r with
  | Group m r1 => (if n =? m then [r1] else []) ++ group_bodies n r1
  | Seq r1 r2 | Alt r1 r2 => group_bodies n r1 ++ group_bodies n r2
  | Star _ r1 | Look r1 => group_bodies n r1
  | _ => []
  end.

(** What a continuation-passing matcher delivers when it is sound for [r]:
    a successful run has gone through a match of [r], then through its
    continuation. *)
Definition sound_for {R} (s : str) (ic : bool) (r : regex)
    (f : cursor -> caps -> (cursor -> caps -> option R) -> option R) : Prop :=
  forall c g k x, cur_ok s c -> f c g k = Some x ->
    exists c' g', cur_ok s c' /\ dmatch ic s r (pos c) g (pos c') g' /\ k c' g' = Some x.

(** The match object [m] records a match of [r] in [s]. *)
Definition matched (ic : bool) (r : regex) (s : str) (m : rmatch_obj) : Prop :=
  dmatch ic s r (m_start m) ∅ (m_end m) (m_caps m).

(** Every character of [s] from [i] up to [j] is in the class [cc]. *)
Definition span_in (cc : cclass) (s : str) (i j : nat) : Prop :=
  i <= j /\ forall p, i <= p < j -> exists x, s !! p = Some x /\ in_class cc x = true.

(** *** The bounds of the loops

    [c'] is [c] moved forward by some characters of its text. *)
Definition reach (c c' : cursor) : Prop :=
  exists n, n <= length (rest c) /\ rest c' = drop n (rest c) /\ pos c' = pos c + n.

(** A matcher that looks at its continuation only at positions further on. *)
Definition local {R} (f : cursor -> caps -> (cursor -> caps -> option R) -> option R) : Prop :=
  forall c g k k',
    (forall c' g', reach c c' -> k c' g' = k' c' g') -> f c g k = f c g k'.

(** A matcher that fails when its continuation fails further on. *)
Definition failing {R} (f : cursor -> caps -> (cursor -> caps -> option R) -> option R) : Prop :=
  forall c g k, (forall c' g', reach c c' -> k c' g' = None) -> f c g k = None.

(** The patterns that cannot match the empty text. *)
Fixpoint nonempty (r : regex) : bool :=
  match r with
  | Lit _ | Cls _ => true
  | Seq r1 r2 => nonempty r1 || nonempty r2
  | Alt r1 r2 => nonempty r1 && nonempty r2
  | Group _ r1 => nonempty r1
  | _ => false
  end.

End Re.
Export Re.

(** ** Exceptions *)

Module Exc.

(** The exceptions the extractor can meet: [int()] refusing its argument
    ([ValueError]), a method called on a group that is [None]
    ([AttributeError]), [None] passed where a [str] is expected ([TypeError])
    and [None] given to a model field of type [str] ([ValidationError]). *)
Inductive exn := ValueError | AttributeError | TypeError | ValidationError.

Inductive result (A : Type) :=
| Ok (a : A)
| Raise (e : exn).
Arguments Ok {A} a.
Arguments Raise {A} e.

#[export] Instance exn_eq_dec : EqDecision exn.
Proof. solve_decision. Defined.
#[export] Instance result_eq_dec {A} `{EqDecision A} : EqDecision (result A).
Proof. solve_decision. Defined.

#[export] Instance result_ret : MRet result := fun A a => Ok a.
#[export] Instance result_bind : MBind result := fun A B f m =>
  match m with
  | Ok a => f a
  | Raise e => Raise e
  end.

(** A value that must not be [None]. *)
Definition req {A} (e : exn) (o : option A) : result A :=
  match o with
  | Some a => Ok a
  | None => Raise e
  end.

(** A [for] loop that appends to a list; [None] is [continue]. *)
Fixpoint collect {A B} (f : A -> result (option B)) (l : list A) : result (list B) :=
  match l with
  | [] => Ok []
  | a :: t =>
      ob ← f a;
      bs ← collect f t;
      mret (match ob with Some b => b :: bs | None => bs end)
  end.

(** A [for] loop that updates an accumulator. *)
Fixpoint for_each {A S} (f : S -> A -> result S) (l : list A) (s : S) : result S :=
  match l with
  | [] => Ok s
  | a :: t => s' ← f s a; for_each f t s'
  end.

(** [sys.int_info.default_max_str_digits]: CPython (3.11, and 3.10.7 and
    later) refuses to convert a decimal string of more digits. *)
Definition int_max_str_digits : nat := 4300.

(** [int(s)] on the strings the extractor passes, which are captures of
    [\d+]: a non-empty string of decimal digits has its value, unless it is
    longer than the conversion limit; then, and for the other strings, this
    is a [ValueError].  (Python also accepts a sign, surrounding blanks and
    underscores; no caller passes them.) *)
Definition int_of_str (s : str) : result Z :=
  match s with
  | [] => Raise ValueError
  | _ :: _ =>
      if forallb is_digit s
      then if length s <=? int_max_str_digits then Ok (digits_val s)
           else Raise ValueError
      else Raise ValueError
  end.

End Exc.
Export Exc.

(** ** The data model of [models/schema.py] *)

Module Schema.

Record Column := mkColumn {
  col_name : str;
  col_data_type : str;
  col_nullable : bool;
  col_max_length : option Z;
  col_precision : option Z;
  col_scale : option Z;
  col_default_value : option str;
  col_comment : option str
}.

Record PrimaryKey := mkPrimaryKey {
  pk_constraint_name : str;
  pk_columns : list str
}.

Record ForeignKey := mkForeignKey {
  fk_constraint_name : str;
  fk_columns : list str;
  fk_referenced_table : str;
  fk_referenced_columns : list str
}.

Record Table := mkTable {
  tbl_name : str;
  tbl_schema_name : str;
  tbl_columns : list Column;
  tbl_row_count : Z;
  tbl_comment : option str;
  tbl_primary_key : option PrimaryKey;
  tbl_foreign_keys : list ForeignKey
}.

Record View := mkView {
  view_name : str;
  view_schema_name : str;
  view_columns : list str;
  view_select_statement : str;
  view_comment : option str
}.

Record ProcedureParameter := mkProcedureParameter {
  param_name : str;
  param_direction : str;
  param_data_type : str
}.

Record Procedure := mkProcedure {
  proc_name : str;
  proc_package_name : str;
  proc_schema_name : str;
  proc_parameters : list ProcedureParameter;
  proc_has_refcursor_out : bool
}.

Record SchemaModel := mkSchemaModel {
  database_type : str;
  database_version : option str;
  schema_name : str;
  extracted_at : Z;
  tables : list Table;
  views : list View;
  procedures : list Procedure
}.

#[export] Instance Column_eq_dec : EqDecision Column.
Proof. solve_decision. Defined.
#[export] Instance PrimaryKey_eq_dec : EqDecision PrimaryKey.
Proof. solve_decision. Defined.
#[export] Instance ForeignKey_eq_dec : EqDecision ForeignKey.
Proof. solve_decision. Defined.
#[export] Instance Table_eq_dec : EqDecision Table.
Proof. solve_decision. Defined.
#[export] Instance View_eq_dec : EqDecision View.
Proof. solve_decision. Defined.
#[export] Instance ProcedureParameter_eq_dec : EqDecision ProcedureParameter.
Proof. solve_decision. Defined.
#[export] Instance Procedure_eq_dec : EqDecision Procedure.
Proof. solve_decision. Defined.
#[export] Instance SchemaModel_eq_dec : EqDecision SchemaModel.
Proof. solve_decision. Defined.

End Schema.
Export Schema.

(** ** [ToadDdlParser] *)

Module Toad.

Open Scope char_scope.

(** *** The patterns, as written in the source *)

Definition kw (s : string) : regex := Lits (lit s).
Definition ws_star : regex := Star true (Cls CSpace).
Definition ws_plus : regex := Plus true (Cls CSpace).
Definition word : regex := Plus true (Cls CWord).
Definition digits : regex := Plus true (Cls CDigit).
Definition any_lazy : regex := Star false (Cls CAny).

Fixpoint Alts (l : list regex) : regex :=
  match l with
  | [] => Eps
  | [r] => r
  | r :: t => Alt r (Alts t)
  end.

(** "(?:(\w+)\.)?(\w+)": an optional schema qualifier in group [n], the name
    in group [S n]. *)
Definition qualified (n : nat) : regex :=
  Seq (Opt (Seq (Group n word) (Lit "."))) (Group (S n) word).

(** "Database Version\s+:\s+(.+)" *)
Definition version_pattern : regex :=
  Seqs [kw "Database Version"; ws_plus; Lit ":"; ws_plus;
        Group 1 (Plus true (Cls CDot))].

(** "--\s+Schema\s+:\s+(\w+)" *)
Definition schema_pattern : regex :=
  Seqs [kw "--"; ws_plus; kw "Schema"; ws_plus; Lit ":"; ws_plus; Group 1 word].

(** "CREATE TABLE\s+(?:(\w+)\.)?(\w+)\s*\(\s*\n(.*?)\n\)\s*\n(?:TABLESPACE|;)"
    with DOTALL and IGNORECASE *)
Definition table_pattern : regex :=
  Seqs [kw "CREATE TABLE"; ws_plus; qualified 1; ws_star; Lit "("; ws_star;
        Lit nl; Group 3 any_lazy; Lit nl; Lit ")"; ws_star; Lit nl;
        Alt (kw "TABLESPACE") (Lit ";")].

(** "--\s+Row Count:\s*(\d+)" *)
Definition row_count_pattern : regex :=
  Seqs [kw "--"; ws_plus; kw "Row Count:"; ws_star; Group 1 digits].

Definition type_keywords : list string :=
  ["VARCHAR2"; "NUMBER"; "DATE"; "TIMESTAMP"; "CHAR"; "CLOB"; "BLOB";
   "INTEGER"; "XMLTYPE"; "RAW"; "SYS.XMLTYPE"]%string.

(** "^\s*(\w+)\s+(VARCHAR2|...|SYS\.XMLTYPE)(?:\((\d+)(?:\s*BYTE)?(?:,(\d+))?\))?"
    followed by the group "[^,\n]*",
    with IGNORECASE and MULTILINE *)
Definition col_pattern : regex :=
  Seqs [Bol; ws_star; Group 1 word; ws_plus;
        Group 2 (Alts (map kw type_keywords));
        Opt (Seqs [Lit "("; Group 3 digits; Opt (Seq ws_star (kw "BYTE"));
                   Opt (Seq (Lit ",") (Group 4 digits)); Lit ")"]);
        Group 5 (Star true (Cls (CNoneOf [","; nl])))].

(** "DEFAULT\s+(.+?)(?:\s+NOT|\s+NULL|\s*$)" with IGNORECASE *)
Definition default_pattern : regex :=
  Seqs [kw "DEFAULT"; ws_plus; Group 1 (Plus false (Cls CDot));
        Alts [Seq ws_plus (kw "NOT"); Seq ws_plus (kw "NULL"); Seq ws_star Eol]].

(** A quote, the group [n] repeating "[^']|''", and a quote. *)
Definition quoted (n : nat) : regex :=
  Seqs [Lit "'"; Group n (Star true (Alt (Cls (CNoneOf ["'"])) (kw "''")));
        Lit "'"].

(** "COMMENT\s+ON\s+TABLE\s+\w+\.(\w+)\s+IS\s+" and the quoted text in
    group 2, with IGNORECASE *)
Definition table_comment_pattern : regex :=
  Seqs [kw "COMMENT"; ws_plus; kw "ON"; ws_plus; kw "TABLE"; ws_plus;
        word; Lit "."; Group 1 word; ws_plus; kw "IS"; ws_plus; quoted 2].

(** "COMMENT\s+ON\s+COLUMN\s+\w+\.(\w+)\.(\w+)\s+IS\s+" and the quoted
    text in group 3, with IGNORECASE *)
Definition column_comment_pattern : regex :=
  Seqs [kw "COMMENT"; ws_plus; kw "ON"; ws_plus; kw "COLUMN"; ws_plus;
        word; Lit "."; Group 1 word; Lit "."; Group 2 word; ws_plus;
        kw "IS"; ws_plus; quoted 3].

(** "CREATE\s+OR\s+REPLACE\s+FORCE\s+VIEW\s+(?:(\w+)\.)?(\w+)\s*\n"
    "\((.*?)\)\s*\n(?:BEQUEATH\s+DEFINER\s*\n)?AS\s*\n(.*?)"
    "(?=\n\n--|\nGRANT|\nCREATE|\Z)" with DOTALL and IGNORECASE *)
Definition view_pattern : regex :=
  Seqs [kw "CREATE"; ws_plus; kw "OR"; ws_plus; kw "REPLACE"; ws_plus;
        kw "FORCE"; ws_plus; kw "VIEW"; ws_plus; qualified 1; ws_star; Lit nl;
        Lit "("; Group 3 any_lazy; Lit ")"; ws_star; Lit nl;
        Opt (Seqs [kw "BEQUEATH"; ws_plus; kw "DEFINER"; ws_star; Lit nl]);
        kw "AS"; ws_star; Lit nl;
        Group 4 any_lazy;
        Look (Alts [Seqs [Lit nl; Lit nl; kw "--"]; Seq (Lit nl) (kw "GRANT");
                    Seq (Lit nl) (kw "CREATE"); EndZ])].

(** "CREATE\s+OR\s+REPLACE\s+PACKAGE\s+(?:(\w+)\.)?(\w+)\s+(?:AS|IS)\s*\n"
    "(.*?)\nEND\s+\w+;" with DOTALL and IGNORECASE *)
Definition pkg_pattern : regex :=
  Seqs [kw "CREATE"; ws_plus; kw "OR"; ws_plus; kw "REPLACE"; ws_plus;
        kw "PACKAGE"; ws_plus; qualified 1; ws_plus;
        Alt (kw "AS") (kw "IS"); ws_star; Lit nl;
        Group 3 any_lazy; Lit nl; kw "END"; ws_plus; word; Lit ";"].

(** "PROCEDURE\s+(\w+)\s*\((.*?)\);" with DOTALL and IGNORECASE *)
Definition proc_pattern : regex :=
  Seqs [kw "PROCEDURE"; ws_plus; Group 1 word; ws_star; Lit "(";
        Group 2 any_lazy; Lit ")"; Lit ";"].

(** "(\w+)\s+(IN\s+OUT|OUT|IN)\s+(.+)" with IGNORECASE *)
Definition param_dir_pattern : regex :=
  Seqs [Group 1 word; ws_plus;
        Group 2 (Alts [Seqs [kw "IN"; ws_plus; kw "OUT"]; kw "OUT"; kw "IN"]);
        ws_plus; Group 3 (Plus true (Cls CDot))].

(** "(\w+)\s+(.+)" with IGNORECASE *)
Definition param_plain_pattern : regex :=
  Seqs [Group 1 word; ws_plus; Group 2 (Plus true (Cls CDot))].

(** The common head of the two constraint patterns:
    "ALTER\s+TABLE\s+(\w+)\s+ADD\s+\(\s*\n\s*CONSTRAINT\s+(\w+)\s*\n\s*" *)
Definition alter_head : list regex :=
  [kw "ALTER"; ws_plus; kw "TABLE"; ws_plus; Group 1 word; ws_plus; kw "ADD";
   ws_plus; Lit "("; ws_star; Lit nl; ws_star; kw "CONSTRAINT"; ws_plus;
   Group 2 word; ws_star; Lit nl; ws_star].

(** "...PRIMARY\s+KEY\s*\n\s*\((.*?)\)" with DOTALL and IGNORECASE *)
Definition pk_pattern : regex :=
  Seqs (alter_head ++
        [kw "PRIMARY"; ws_plus; kw "KEY"; ws_star; Lit nl; ws_star;
         Lit "("; Group 3 any_lazy; Lit ")"]).

(** "...FOREIGN\s+KEY\s+\((.*?)\)\s*\n\s*REFERENCES\s+(\w+)\s+\((.*?)\)"
    with DOTALL and IGNORECASE *)
Definition fk_pattern : regex :=
  Seqs (alter_head ++
        [kw "FOREIGN"; ws_plus; kw "KEY"; ws_plus; Lit "("; Group 3 any_lazy;
         Lit ")"; ws_star; Lit nl; ws_star; kw "REFERENCES"; ws_plus;
         Group 4 word; ws_plus; Lit "("; Group 5 any_lazy; Lit ")"]).

Close Scope char_scope.

(** *** The methods *)

(** Python truth of an optional string: [None] and the empty string are
    false. *)
Definition truthy (o : option str) : bool :=
  match o with
  | Some (_ :: _) => true
  | _ => false
  end.

(** [o or ''] *)
Definition or_empty (o : option str) : str := default [] o.

(** The dictionary of [_parse_metadata]: its two possible keys. *)
Record metadata := mkMetadata {
  md_database_version : option str;
  md_schema_name : option str
}.

Definition UNKNOWN : str := lit "UNKNOWN".

Definition _parse_metadata (content : str) : result metadata :=
  version ←
    match re_search false version_pattern content with
    | Some m => v ← req AttributeError (group content m 1); mret (Some (strip v))
    | None => mret None
    end;
  schema ←
    match re_search false schema_pattern content with
    | Some m => v ← req AttributeError (group content m 1); mret (Some (strip v))
    | None => mret None
    end;
  mret (mkMetadata version schema).

(** [metadata.get('schema_name', 'UNKNOWN')] *)
Definition default_schema_of (md : metadata) : str :=
  default UNKNOWN (md_schema_name md).

(** [if not schema_name: schema_name = default_schema] *)
Definition schema_or (o : option str) (default_schema : str) : str :=
  if truthy o then or_empty o else default_schema.

Definition skipped_names : list str :=
  map lit ["SUPPLEMENTAL"; "CONSTRAINT"; "PRIMARY"; "FOREIGN"; "UNIQUE"; "CHECK"]%string.

Definition char_types : list str := map lit ["VARCHAR2"; "CHAR"; "RAW"]%string.

(** [x in (...)] on strings *)
Definition str_in (x : str) (l : list str) : bool := existsb (str_eqb x) l.

(** [int(x) if cond else None] *)
Definition int_if (cond : bool) (x : option str) : result (option Z) :=
  if cond then s ← req TypeError x; n ← int_of_str s; mret (Some n)
  else mret None.

(** The body of the loop of [_parse_columns]. *)
Definition column_of_match (block : str) (m : rmatch_obj) : result (option Column) :=
  name ← req AttributeError (group block m 1);
  let data_type := group block m 2 in
  let size := group block m 3 in
  let scale := group block m 4 in
  let rest := group block m 5 in
  if str_in (upper name) skipped_names then mret None
  else
    let nullable := negb (contains (lit "NOT NULL") (upper (or_empty rest))) in
    default_value ←
      match re_search true default_pattern (or_empty rest) with
      | Some dm => v ← req AttributeError (group (or_empty rest) dm 1); mret (Some (strip v))
      | None => mret None
      end;
    dt ← req AttributeError data_type;
    max_length ← int_if (truthy size && str_in (upper dt) char_types) size;
    precision ← int_if (truthy size && str_eqb (upper dt) (lit "NUMBER")) size;
    scale' ← int_if (truthy scale) scale;
    mret (Some (mkColumn name (upper dt) nullable max_length precision scale'
                  default_value None)).

Definition _parse_columns (columns_block : str) : result (list Column) :=
  collect (column_of_match columns_block) (re_finditer true col_pattern columns_block).

(** The body of the loop of [_parse_tables]. *)
Definition table_of_match (content default_schema : str) (m : rmatch_obj)
  : result (option Table) :=
  let schema_name := schema_or (group content m 1) default_schema in
  let start_pos := m_start m - 200 in
  let preceding_text := slice content start_pos (m_start m) in
  row_count ←
    match re_search false row_count_pattern preceding_text with
    | Some rm => d ← req TypeError (group preceding_text rm 1); int_of_str d
    | None => mret 0%Z
    end;
  columns_block ← req TypeError (group content m 3);
  columns ← _parse_columns columns_block;
  table_name ← req ValidationError (group content m 2);
  mret (Some (mkTable table_name schema_name columns row_count None None [])).

Definition _parse_tables (content : str) : result (list Table) :=
  md ← _parse_metadata content;
  collect (table_of_match content (default_schema_of md))
          (re_finditer true table_pattern content).

(** [comment.replace("''", "'")] *)
Definition unescape (comment : str) : str := replace (lit "''") (lit "'") comment.

(** The body of the loop of [_parse_table_comments].  The keys of the
    dictionaries are strings here; the groups that give them are set by
    every match (see [TotalFacts]). *)
Definition table_comment_step (content : str) (comments : gmap str str)
    (m : rmatch_obj) : result (gmap str str) :=
  comment ← req AttributeError (group content m 2);
  table ← req TypeError (group content m 1);
  mret (<[table := unescape comment]> comments).

Definition _parse_table_comments (content : str) : result (gmap str str) :=
  for_each (table_comment_step content)
           (re_finditer true table_comment_pattern content) ∅.

(** The body of the loop of [_parse_column_comments]. *)
Definition column_comment_step (content : str) (comments : gmap str (gmap str str))
    (m : rmatch_obj) : result (gmap str (gmap str str)) :=
  table ← req TypeError (group content m 1);
  comment ← req AttributeError (group content m 3);
  column ← req TypeError (group content m 2);
  let inner := default ∅ (comments !! table) in
  mret (<[table := <[column := unescape comment]> inner]> comments).

Definition _parse_column_comments (content : str) : result (gmap str (gmap str str)) :=
  for_each (column_comment_step content)
           (re_finditer true column_comment_pattern content) ∅.

(** [[col.strip() for col in columns_str.replace('\n', ' ').split(',')]] *)
Definition split_columns (columns_str : str) : list str :=
  map strip (split_on "," (replace [nl] (lit " ") columns_str)).

Definition view_of_match (content default_schema : str) (m : rmatch_obj)
  : result (option View) :=
  let schema_name := schema_or (group content m 1) default_schema in
  columns_str ← req AttributeError (group content m 3);
  let columns := split_columns columns_str in
  select_stmt ← req AttributeError (group content m 4);
  view_name ← req ValidationError (group content m 2);
  mret (Some (mkView view_name schema_name columns (strip select_stmt) None)).

Definition _parse_views (content : str) : result (list View) :=
  md ← _parse_metadata content;
  collect (view_of_match content (default_schema_of md))
          (re_finditer true view_pattern content).

(** The body of the loop of [_parse_procedure_parameters]. *)
Definition parameter_of (param0 : str) : result (option ProcedureParameter) :=
  let param := strip param0 in
  if negb (truthy (Some param)) then mret None
  else
    match re_match true param_dir_pattern param with
    | Some m =>
        d ← req AttributeError (group param m 2);
        t ← req AttributeError (group param m 3);
        param_name ← req ValidationError (group param m 1);
        mret (Some (mkProcedureParameter param_name (upper (strip d)) (strip t)))
    | None =>
        match re_match true param_plain_pattern param with
        | Some m =>
            t ← req AttributeError (group param m 2);
            param_name ← req ValidationError (group param m 1);
            mret (Some (mkProcedureParameter param_name (lit "IN") (strip t)))
        | None => mret None
        end
    end.

Definition _parse_procedure_parameters (params_str : str)
  : result (list ProcedureParameter) :=
  let params_str := join (lit " ") (split_ws params_str) in
  collect parameter_of (split_on "," params_str).

(** The test under [any(...)] in [_parse_procedures]. *)
Definition is_refcursor_out (p : ProcedureParameter) : bool :=
  str_in (param_direction p) [lit "OUT"; lit "IN OUT"] &&
  (contains (lit "REF") (upper (param_data_type p)) &&
   contains (lit "CURSOR") (upper (param_data_type p))).

Definition has_refcursor_out (parameters : list ProcedureParameter) : bool :=
  existsb is_refcursor_out parameters.

(** The body of the inner loop of [_parse_procedures]. *)
Definition procedure_of_match (package_body : str) (package_name : option str)
    (schema_name : str) (m : rmatch_obj) : result (option Procedure) :=
  params_str ← req AttributeError (group package_body m 2);
  parameters ← _parse_procedure_parameters params_str;
  let has_refcursor_out := has_refcursor_out parameters in
  proc_name ← req ValidationError (group package_body m 1);
  package_name ← req ValidationError package_name;
  mret (Some (mkProcedure proc_name package_name schema_name parameters
                has_refcursor_out)).

(** The body of the outer loop of [_parse_procedures]: the procedures of one
    package. *)
Definition procedures_of_package (content default_schema : str) (m : rmatch_obj)
  : result (list Procedure) :=
  let schema_name := schema_or (group content m 1) default_schema in
  package_body ← req TypeError (group content m 3);
  collect (procedure_of_match package_body (group content m 2) schema_name)
          (re_finditer true proc_pattern package_body).

Definition _parse_procedures (content : str) : result (list Procedure) :=
  md ← _parse_metadata content;
  for_each (fun procedures m =>
              ps ← procedures_of_package content (default_schema_of md) m;
              mret (procedures ++ ps))
           (re_finditer true pkg_pattern content) [].

(** The body of the loop of [_parse_primary_keys]. *)
Definition primary_key_step (content : str) (primary_keys : gmap str PrimaryKey)
    (m : rmatch_obj) : result (gmap str PrimaryKey) :=
  columns_str ← req AttributeError (group content m 3);
  let columns := split_columns columns_str in
  constraint_name ← req ValidationError (group content m 2);
  table_name ← req TypeError (group content m 1);
  mret (<[table_name := mkPrimaryKey constraint_name columns]> primary_keys).

Definition _parse_primary_keys (content : str) : result (gmap str PrimaryKey) :=
  for_each (primary_key_step content) (re_finditer true pk_pattern content) ∅.

(** The body of the loop of [_parse_foreign_keys]. *)
Definition foreign_key_step (content : str) (foreign_keys : gmap str (list ForeignKey))
    (m : rmatch_obj) : result (gmap str (list ForeignKey)) :=
  fk_columns_str ← req AttributeError (group content m 3);
  let fk_cols := split_columns fk_columns_str in
  ref_columns_str ← req AttributeError (group content m 5);
  let ref_cols := split_columns ref_columns_str in
  table_name ← req TypeError (group content m 1);
  constraint_name ← req ValidationError (group content m 2);
  ref_table ← req ValidationError (group content m 4);
  let previous := default [] (foreign_keys !! table_name) in
  mret (<[table_name :=
           previous ++ [mkForeignKey constraint_name fk_cols ref_table ref_cols]]>
          foreign_keys).

Definition _parse_foreign_keys (content : str) : result (gmap str (list ForeignKey)) :=
  for_each (foreign_key_step content) (re_finditer true fk_pattern content) ∅.

(** The merge of [parse], for one table. *)
Definition merge_table (table_comments : gmap str str)
    (column_comments : gmap str (gmap str str))
    (primary_keys : gmap str PrimaryKey)
    (foreign_keys : gmap str (list ForeignKey)) (table : Table) : Table :=
  let comment := table_comments !! tbl_name table in
  let columns :=
    map (fun col =>
           mkColumn (col_name col) (col_data_type col) (col_nullable col)
             (col_max_length col) (col_precision col) (col_scale col)
             (col_default_value col)
             (default ∅ (column_comments !! tbl_name table) !! col_name col))
        (tbl_columns table) in
  let primary_key :=
    match primary_keys !! tbl_name table with
    | Some pk => Some pk
    | None => tbl_primary_key table
    end in
  let fks :=
    match foreign_keys !! tbl_name table with
    | Some l => l
    | None => tbl_foreign_keys table
    end in
  mkTable (tbl_name table) (tbl_schema_name table) columns
    (tbl_row_count table) comment primary_key fks.

(** [parse]; [now] is the value of [datetime.now()]. *)
Definition parse (now : Z) (content : str) : result SchemaModel :=
  md ← _parse_metadata content;
  tables ← _parse_tables content;
  table_comments ← _parse_table_comments content;
  column_comments ← _parse_column_comments content;
  views ← _parse_views content;
  procedures ← _parse_procedures content;
  primary_keys ← _parse_primary_keys content;
  foreign_keys ← _parse_foreign_keys content;
  let tables :=
    map (merge_table table_comments column_comments primary_keys foreign_keys) tables in
  mret (mkSchemaModel (lit "oracle") (md_database_version md) (default_schema_of md)
          now tables views procedures).

(** Every run of decimal digits of [s] is short enough for [int()]. *)
Definition digit_runs_convertible (s : str) : Prop :=
  forall pre d suf, s = pre ++ d ++ suf ->
    Forall (fun c => is_digit c = true) d -> length d <= int_max_str_digits.

End Toad.
Export Toad.

(** ** Sample documents *)

Module Examples.

(** The scenario of the specification: one table with a row-count comment,
    a table comment and a primary key, under the default schema HR.  [gap]
    blank lines separate the row-count comment from the table block; the
    comment with its line end has 17 characters. *)
Definition doc_emp_gap (gap : nat) : str :=
  lit
"-- Database Version : Oracle Database 19c
-- Schema           : HR

-- Row Count: 42
" ++ repeat nl gap ++ lit
"CREATE TABLE EMP
(
  ID    NUMBER(10) NOT NULL,
  NAME  VARCHAR2(50)
)
TABLESPACE USERS;

COMMENT ON TABLE HR.EMP IS 'All the staff';

ALTER TABLE EMP ADD (
  CONSTRAINT EMP_PK
  PRIMARY KEY
  (ID));
".

Definition doc_emp : str := doc_emp_gap 0.

(** The model expected for it. *)
Definition emp_table : Table :=
  mkTable (lit "EMP") (lit "HR")
    [mkColumn (lit "ID") (lit "NUMBER") false None (Some 10%Z) None None None;
     mkColumn (lit "NAME") (lit "VARCHAR2") true (Some 50%Z) None None None None]
    42%Z (Some (lit "All the staff"))
    (Some (mkPrimaryKey (lit "EMP_PK") [lit "ID"])) [].

Definition emp_model (now : Z) : SchemaModel :=
  mkSchemaModel (lit "oracle") (Some (lit "Oracle Database 19c")) (lit "HR") now
    [emp_table] [] [].

(** The check of the scenario for one gap, as a computation. *)
Definition emp_check (gap : nat) : bool :=
  bool_decide (parse 0 (doc_emp_gap gap) = Ok (emp_model 0)).

(** A package specification with a REF CURSOR procedure. *)
Definition doc_pkg : str := lit
"-- Schema : HR
CREATE OR REPLACE PACKAGE PKG AS
  PROCEDURE GET_DATA (P_ID IN NUMBER, P_CUR OUT SYS_REFCURSOR);
END PKG;
".

(** The body of the table of [doc_emp]. *)
Definition block_emp : str := lit
"  ID    NUMBER(10) NOT NULL,
  NAME  VARCHAR2(50)".

(** A character column declared with two size arguments. *)
Definition block_char_scale : str := lit "  X VARCHAR2(10,2)".

(** A foreign key over two columns that references one column. *)
Definition doc_fk : str := lit
"ALTER TABLE EMP ADD (
  CONSTRAINT EMP_FK
  FOREIGN KEY (A, B)
  REFERENCES DEPT (X));
".

(** Two primary-key statements for one table. *)
Definition doc_pk_twice : str := lit
"ALTER TABLE EMP ADD (
  CONSTRAINT EMP_PK
  PRIMARY KEY
  (ID));

ALTER TABLE EMP ADD (
  CONSTRAINT EMP_PK2
  PRIMARY KEY
  (ID, NAME));
".

(** Statements with empty column lists. *)
Definition doc_empty_lists : str := lit
"ALTER TABLE EMP ADD (
  CONSTRAINT EMP_PK
  PRIMARY KEY
  ());

ALTER TABLE EMP ADD (
  CONSTRAINT EMP_FK
  FOREIGN KEY ()
  REFERENCES DEPT ());

CREATE OR REPLACE FORCE VIEW V
()
AS
SELECT 1 FROM DUAL;
".

(** Two tables of the same name in two schemas, with one comment and one
    primary key. *)
Definition doc_two_schemas : str := lit
"CREATE TABLE A.EMP
(
  ID NUMBER(10) NOT NULL
)
;

CREATE TABLE B.EMP
(
  CODE VARCHAR2(8)
)
;

COMMENT ON TABLE A.EMP IS 'Staff of A';

ALTER TABLE EMP ADD (
  CONSTRAINT EMP_PK
  PRIMARY KEY
  (ID));

ALTER TABLE EMP ADD (
  CONSTRAINT EMP_FK
  FOREIGN KEY (ID)
  REFERENCES DEPT (ID));
".

(** A table whose only column has a size of 4301 digits. *)
Definition doc_long_size : str :=
  lit
"CREATE TABLE T
(
  A NUMBER(" ++ repeat "1"%char 4301 ++ lit ")
)
;
".

(** A document with fragments that no pattern recognizes. *)
Definition doc_malformed : str := lit
"CREATE TABLE T
(
  ??? what,
  A NUMBER(,
  B DATE,
  C FLOAT
)
;
COMMENT ON TABLE X.T IS 'kept';
COMMENT ON TABLE T IS 'no schema';
COMMENT ON TABLE X.U IS 'unterminated
ALTER TABLE T ADD (
  CONSTRAINT
CREATE OR REPLACE PACKAGE P AS
  PROCEDURE Q (;
".

End Examples.
Export Examples.

(** ** Shapes of text and of results, for the statements below *)

Module Shapes.

(** No white space at either end. *)
Definition trimmed (s : str) : Prop :=
  (forall c, head s = Some c -> is_space c = false) /\
  (forall c, last s = Some c -> is_space c = false).

(** Text whose only white space is single spaces, none next to another. *)
Fixpoint single_spaced (s : str) : bool :=
  match s with
  | [] => true
  | a :: t =>
      (negb (is_space a) ||
       (ascii_eqb a " "%char &&
        match t with b :: _ => negb (is_space b) | [] => true end)) &&
      single_spaced t
  end.

(** [p] is a piece of [s]. *)
Definition piece (p s : str) : Prop := exists pre suf, s = pre ++ p ++ suf.

(** A character that is not white space. *)
Definition nospace (c : ascii) : Prop := is_space c = false.

(** Text of ASCII characters only. *)
Definition is_ascii (c : ascii) : bool := code c <? 128.

Definition ascii_text (s : str) : Prop := forallb is_ascii s = true.

(** The SQL writing of a text inside quotes: each quote is doubled. *)
Definition escape_quotes (s : str) : str :=
  flat_map (fun c => if ascii_eqb c "'"%char then ["'"%char; "'"%char] else [c]) s.

(** The foreign key that [foreign_key_step] builds from a match. *)
Definition fk_of_match (content : str) (m : rmatch_obj) (fk : ForeignKey) : Prop :=
  group content m 2 = Some (fk_constraint_name fk) /\
  group content m 4 = Some (fk_referenced_table fk) /\
  (exists a, group content m 3 = Some a /\ fk_columns fk = split_columns a) /\
  (exists b, group content m 5 = Some b /\ fk_referenced_columns fk = split_columns b).

(** The matches of a list that are statements for the table [t]. *)
Definition matches_for (content : str) (t : str) (ms : list rmatch_obj) : list rmatch_obj :=
  List.filter (fun m => bool_decide (group content m 1 = Some t)) ms.

(** The size argument of the column pattern, as it stands in
    [col_pattern]. *)
Definition size_pattern : regex :=
  Seqs [Lit "("%char; Group 3 digits; Opt (Seq ws_star (kw "BYTE"));
        Opt (Seq (Lit ","%char) (Group 4 digits)); Lit ")"%char].

End Shapes.
Export Shapes.

(** ** The commands of [cli.py]: what they compute from the model *)

Module Cli.

(** [sorted(l, key=key, reverse=True)]: the sort is stable, so elements of
    equal keys keep their order; an element is put before the first one
    whose key is not larger. *)
Fixpoint insert_desc {A} (key : A -> Z) (x : A) (l : list A) : list A :=
  match l with
  | [] => [x]
  | y :: r => if (key y <=? key x)%Z then x :: l else y :: insert_desc key x r
  end.

Fixpoint sorted_desc {A} (key : A -> Z) (l : list A) : list A :=
  match l with
  | [] => []
  | x :: r => insert_desc key x (sorted_desc key r)
  end.

(** [analyze]: [sorted(schema.tables, key=lambda t: t.row_count, reverse=True)[:10]] *)
Definition top_tables (model : SchemaModel) : list Table :=
  take 10 (sorted_desc tbl_row_count (tables model)).

(** [analyze]: [sum(1 for t in schema.tables if t.primary_key)]; a model
    object is true. *)
Definition tables_with_pk (model : SchemaModel) : nat :=
  length (List.filter (fun t => bool_decide (is_Some (tbl_primary_key t))) (tables model)).

(** [analyze]: [sum(len(t.foreign_keys) for t in schema.tables)] *)
Definition total_fks (model : SchemaModel) : nat :=
  list_sum (map (fun t => length (tbl_foreign_keys t)) (tables model)).

(** [analyze]: [sum(1 for p in schema.procedures if p.has_refcursor_out)] *)
Definition refcursor_procs (model : SchemaModel) : nat :=
  length (List.filter proc_has_refcursor_out (procedures model)).

(** [describe]:
    [next((t for t in schema.tables if t.name.upper() == table_name.upper()), None)] *)
Definition find_table (model : SchemaModel) (table_name : str) : option Table :=
  List.find (fun t => str_eqb (upper (tbl_name t)) (upper table_name)) (tables model).

(** [s.split(sep, 1)]: the text before the first separator and the text
    after it, or the text alone when it has no separator. *)
Fixpoint split_first (sep : ascii) (s : str) : list str :=
  match s with
  | [] => [[]]
  | c :: t =>
      if ascii_eqb c sep then [[]; t]
      else match split_first sep t with
           | h :: r => (c :: h) :: r
           | [] => [[c]]
           end
  end.

(** [describe_procedure]: the search for [Package.Procedure] or for a bare
    procedure name.  Unpacking the split into two names raises [ValueError]
    when the split has another number of parts. *)
Definition find_procedure (model : SchemaModel) (procedure_name : str)
  : result (option Procedure) :=
  if existsb (fun c => ascii_eqb c "."%char) procedure_name then
    match split_first "."%char (upper procedure_name) with
    | [pkg_name; proc_name] =>
        mret (List.find (fun p => str_eqb (upper (proc_package_name p)) pkg_name &&
                                  str_eqb (upper (Schema.proc_name p)) proc_name)
                        (procedures model))
    | _ => Raise ValueError
    end
  else
    mret (List.find (fun p => str_eqb (upper (proc_name p)) (upper procedure_name))
                    (procedures model)).

End Cli.
Export Cli.

(** ** More sample documents *)

Module Samples.

(** A document with every kind of statement: two tables, one of them with a
    schema qualifier, declarations in mixed case, repeated comments, two
    foreign keys of one table, a view, and two packages. *)
Definition doc_orders : str := lit
"-- Database Version : Oracle Database 19c
-- Schema           : SALES

-- Row Count: 1200
CREATE TABLE ORDERS
(
  ID      number(10) DEFAULT 0 NOT NULL,
  NOTE    varchar2(40 BYTE) default 'n/a'  ,
  TOTAL   Number(12,2),
  CONSTRAINT ORDERS_CK CHECK (TOTAL >= 0)
)
TABLESPACE USERS;

CREATE TABLE ARCHIVE.ORDERS_OLD
(
  ID      INTEGER
)
;

COMMENT ON COLUMN SALES.ORDERS.NOTE IS 'first';
COMMENT ON COLUMN SALES.ORDERS.NOTE IS 'it''s free text';
COMMENT ON TABLE SALES.ORDERS IS 'old';
COMMENT ON TABLE OTHER.ORDERS IS 'new';

ALTER TABLE ORDERS ADD (
  CONSTRAINT ORDERS_PK
  PRIMARY KEY
  (ID));

ALTER TABLE ORDERS ADD (
  CONSTRAINT ORDERS_FK1
  FOREIGN KEY (CUST_ID)
  REFERENCES CUSTOMERS (ID));

ALTER TABLE ORDERS ADD (
  CONSTRAINT ORDERS_FK2
  FOREIGN KEY (ITEM_ID ,
   SHOP_ID)
  REFERENCES ITEMS (ID, SHOP));

CREATE OR REPLACE FORCE VIEW V_ORDERS
(ID, NOTE)
AS
SELECT ID, NOTE FROM ORDERS;

CREATE OR REPLACE PACKAGE SALES.ORDER_API AS
  PROCEDURE LIST_ORDERS (p_cust in number,
                         p_cur  in   out  sys_refcursor);
  PROCEDURE PURGE ( );
END ORDER_API;

CREATE OR REPLACE PACKAGE AUDIT_API IS
  PROCEDURE PURGE (p_days NUMBER);
END AUDIT_API;
".

(** The body of the first table of [doc_orders]. *)
Definition block_orders : str := lit
"  ID      number(10) DEFAULT 0 NOT NULL,
  NOTE    varchar2(40 BYTE) default 'n/a'  ,
  TOTAL   Number(12,2),
  CONSTRAINT ORDERS_CK CHECK (TOTAL >= 0)".

(** The parameter text of the first procedure of [doc_orders]. *)
Definition params_orders : str := lit
"p_cust in number,
                         p_cur  in   out  sys_refcursor".

(** A column with a negative scale, which the size pattern does not take. *)
Definition block_negative_scale : str := lit "  AMOUNT NUMBER(10,-2) NOT NULL".

(** A column whose default is a call with two arguments. *)
Definition block_default_call : str :=
  lit "  CREATED DATE DEFAULT TO_DATE('2000-01-01','YYYY-MM-DD') NOT NULL".

End Samples.
Export Samples.

(** * Properties *)

(** ** Facts about the string operations *)

Module PyStrFacts.

Lemma ascii_eqb_true (a b : ascii) : ascii_eqb a b = true <-> a = b.
Proof. unfold ascii_eqb. apply Ascii.eqb_eq. Qed.

Lemma ascii_eqb_false (a b : ascii) : ascii_eqb a b = false <-> a <> b.
Proof. unfold ascii_eqb. apply Ascii.eqb_neq. Qed.

Lemma str_eqb_true (a b : str) : str_eqb a b = true <-> a = b.
Proof.
  revert b. induction a as [|x a IH]; intros [|y b]; simpl; try (split; congruence).
  rewrite andb_true_iff, ascii_eqb_true, IH. split.
  - intros [-> ->]. reflexivity.
  - intros [= -> ->]. auto.
Qed.

Lemma str_in_true (x : str) (l : list str) : str_in x l = true <-> In x l.
Proof.
  unfold str_in. rewrite existsb_exists. split.
  - intros (y & Hy & E). apply str_eqb_true in E. subst. exact Hy.
  - intros H. exists x. split; [exact H | apply str_eqb_true; reflexivity].
Qed.

(** [starts_with] decides being a prefix. *)
Lemma starts_with_true (p s : str) :
  starts_with p s = true <-> exists t, s = p ++ t.
Proof.
  revert s. induction p as [|x p IH]; intros s; simpl.
  - split; [intros _; exists s; reflexivity | auto].
  - destruct s as [|y s].
    + split; [discriminate | intros (t & E); discriminate].
    + rewrite andb_true_iff, ascii_eqb_true, IH. split.
      * intros (-> & t & ->). exists t. reflexivity.
      * intros (t & [= -> ->]). split; [reflexivity | exists t; reflexivity].
Qed.

(** [contains] decides being a substring. *)
Lemma contains_true (needle hay : str) :
  contains needle hay = true <-> exists pre suf, hay = pre ++ needle ++ suf.
Proof.
  induction hay as [|c hay IH]; simpl.
  - rewrite orb_false_r, starts_with_true. split.
    + intros (t & E). exists [], t. exact E.
    + intros (pre & suf & E). destruct pre; simpl in E; [exists suf; exact E | discriminate].
  - rewrite orb_true_iff, starts_with_true, IH. split.
    + intros [(t & E) | (pre & suf & E)].
      * exists [], t. exact E.
      * exists (c :: pre), suf. simpl. rewrite E. reflexivity.
    + intros (pre & suf & E). destruct pre as [|d pre]; simpl in E.
      * left. exists suf. exact E.
      * right. injection E as -> ->. exists pre, suf. reflexivity.
Qed.

Lemma contains_false (needle hay : str) :
  contains needle hay = false <-> ~ exists pre suf, hay = pre ++ needle ++ suf.
Proof. rewrite <- contains_true. destruct (contains needle hay); split; congruence. Qed.

(** [split] never returns an empty list ... *)
Lemma split_on_nonempty (sep : ascii) (s : str) : split_on sep s <> [].
Proof.
  destruct s as [|c s]; simpl; [discriminate |].
  destruct (ascii_eqb c sep); [discriminate |].
  destruct (split_on sep s); discriminate.
Qed.

(** ... but one field more than there are separators. *)
Lemma split_on_length (sep : ascii) (s : str) :
  length (split_on sep s) = S (count_occ ascii_dec s sep).
Proof.
  induction s as [|c s IH]; simpl; [reflexivity |].
  destruct (ascii_eqb c sep) eqn:E.
  - apply ascii_eqb_true in E. subst. simpl. rewrite IH.
    destruct (ascii_dec sep sep); [reflexivity | contradiction].
  - apply ascii_eqb_false in E.
    destruct (ascii_dec c sep); [contradiction |].
    destruct (split_on sep s); simpl in *; lia.
Qed.

Lemma replace_char_length (a b : ascii) (s : str) :
  length (replace [a] [b] s) = length s.
Proof.
  unfold replace. induction s as [|c s IH]; simpl; [reflexivity |].
  rewrite andb_true_r. destruct (ascii_eqb a c); simpl; rewrite IH; reflexivity.
Qed.

(** Replacing a character by another one that is not the separator leaves
    the number of separators alone. *)
Lemma replace_char_count (a b sep : ascii) (s : str) :
  a <> sep -> b <> sep ->
  count_occ ascii_dec (replace [a] [b] s) sep = count_occ ascii_dec s sep.
Proof.
  intros Ha Hb. unfold replace. induction s as [|c s IH]; simpl; [reflexivity |].
  rewrite andb_true_r. destruct (ascii_eqb a c) eqn:E; simpl.
  - apply ascii_eqb_true in E. subst c.
    destruct (ascii_dec b sep), (ascii_dec a sep); try contradiction. exact IH.
  - rewrite IH. reflexivity.
Qed.

End PyStrFacts.

(** ** The matcher finds only matches *)

Module ReFacts.

Section Sound.
Variable s : str.
Variable ic : bool.

Lemma cur_ok_start : cur_ok s (start_of s).
Proof. unfold cur_ok, start_of; simpl. repeat split; lia. Qed.

Lemma cur_ok_advance (c : cursor) (x : ascii) (t : list ascii) :
  cur_ok s c -> rest c = x :: t ->
  cur_ok s (advance c) /\ s !! pos c = Some x /\ pos (advance c) = S (pos c).
Proof.
  intros (Hr & Hl & Hp) E.
  assert (Hx : s !! pos c = Some x).
  { pose proof (lookup_drop s (pos c) 0) as L.
    rewrite <- Hr, E, Nat.add_0_r in L. simpl in L. symmetry. exact L. }
  unfold advance, cur_ok. rewrite E. simpl. repeat split; auto.
  - rewrite Hr in E. rewrite (drop_S _ _ _ Hx) in E. congruence.
  - apply lookup_lt_Some in Hx. lia.
Qed.

Lemma orelse_Some {R} (a b : option R) (x : R) :
  orelse a b = Some x -> a = Some x \/ b = Some x.
Proof. destruct a; simpl; auto. Qed.

Lemma star_loop_sound_for {R} (b : bool) (r : regex)
    (body : cursor -> caps -> (cursor -> caps -> option R) -> option R) :
  sound_for s ic r body ->
  forall fuel, sound_for s ic (Star b r) (fun c g k => star_loop b body k fuel c g).
Proof.
  intros Hbody fuel. induction fuel as [|fuel IH]; intros c g k x Hc H; simpl in H.
  - exists c, g. repeat split; auto; try apply Hc. constructor.
  - assert (Hcases :
      body c g (fun c' g' => if pos c <? pos c' then star_loop b body k fuel c' g' else None)
        = Some x \/ k c g = Some x).
    { destruct b; apply orelse_Some in H; tauto. }
    destruct Hcases as [Ha | Hk].
    + apply Hbody in Ha as (c1 & g1 & Hc1 & D1 & K1); [| exact Hc].
      destruct (pos c <? pos c1) eqn:Hlt; [| discriminate].
      apply Nat.ltb_lt in Hlt.
      apply IH in K1 as (c2 & g2 & Hc2 & D2 & K2); [| exact Hc1].
      exists c2, g2. repeat split; auto; try apply Hc2.
      eapply DStarS; eauto.
    + exists c, g. repeat split; auto; try apply Hc. constructor.
Qed.

Lemma at_bol_sound (c : cursor) : cur_ok s c -> at_bol c = true -> bol_at s (pos c).
Proof.
  intros (_ & _ & Hp). unfold at_bol, bol_at. rewrite Hp.
  destruct (char_before s (pos c)); [| auto].
  intros E. apply PyStrFacts.ascii_eqb_true in E. subst. auto.
Qed.

Lemma at_eol_sound (c : cursor) : cur_ok s c -> at_eol c = true -> eol_at s (pos c).
Proof.
  intros (Hr & _ & _). unfold at_eol, eol_at. rewrite Hr.
  destruct (drop (pos c) s) as [|x [|y t]]; auto; [| discriminate].
  intros E. apply PyStrFacts.ascii_eqb_true in E. subst. auto.
Qed.

Lemma at_end_sound (c : cursor) : cur_ok s c -> at_end c = true -> drop (pos c) s = [].
Proof.
  intros (Hr & _ & _). unfold at_end. rewrite Hr.
  destruct (drop (pos c) s); [auto | discriminate].
Qed.

(** A successful run of the matcher has gone through a match of [r] and
    then through its continuation. *)
Lemma rmatch_sound (r : regex) : forall R, sound_for (R := R) s ic r (rmatch ic r).
Proof.
  induction r as [ | a | cc | r1 IH1 r2 IH2 | r1 IH1 r2 IH2 | b r1 IH1
                 | n r1 IH1 | | | | r1 IH1 ];
    intros R c g k x Hc H; simpl in H.
  - exists c, g. repeat split; auto; try apply Hc. constructor.
  - destruct (rest c) as [|y t] eqn:E; [discriminate |].
    destruct (chr_eq ic a y) eqn:Ea; [| discriminate].
    destruct (cur_ok_advance c y t Hc E) as (Hc' & Hy & Hp).
    exists (advance c), g. rewrite Hp. repeat split; auto; try apply Hc'.
    econstructor; eauto.
  - destruct (rest c) as [|y t] eqn:E; [discriminate |].
    destruct (in_class cc y) eqn:Ea; [| discriminate].
    destruct (cur_ok_advance c y t Hc E) as (Hc' & Hy & Hp).
    exists (advance c), g. rewrite Hp. repeat split; auto; try apply Hc'.
    econstructor; eauto.
  - apply IH1 in H as (c1 & g1 & Hc1 & D1 & K1); [| exact Hc].
    apply IH2 in K1 as (c2 & g2 & Hc2 & D2 & K2); [| exact Hc1].
    exists c2, g2. repeat split; auto; try apply Hc2. econstructor; eauto.
  - apply orelse_Some in H as [H | H].
    + apply IH1 in H as (c1 & g1 & Hc1 & D1 & K1); [| exact Hc].
      exists c1, g1. repeat split; auto; try apply Hc1. apply DAltL; exact D1.
    + apply IH2 in H as (c1 & g1 & Hc1 & D1 & K1); [| exact Hc].
      exists c1, g1. repeat split; auto; try apply Hc1. apply DAltR; exact D1.
  - exact (star_loop_sound_for b r1 (rmatch ic r1) (IH1 R) _ c g k x Hc H).
  - apply IH1 in H as (c1 & g1 & Hc1 & D1 & K1); [| exact Hc].
    exists c1, (<[n := (pos c, pos c1)]> g1). repeat split; auto; try apply Hc1.
    constructor; exact D1.
  - destruct (at_bol c) eqn:E; [| discriminate].
    exists c, g. repeat split; auto; try apply Hc. constructor. apply at_bol_sound; auto.
  - destruct (at_eol c) eqn:E; [| discriminate].
    exists c, g. repeat split; auto; try apply Hc. constructor. apply at_eol_sound; auto.
  - destruct (at_end c) eqn:E; [| discriminate].
    exists c, g. repeat split; auto; try apply Hc. constructor. apply at_end_sound; auto.
  - destruct (rmatch ic r1 c g (fun _ g' => Some g')) as [g1|] eqn:E; [| discriminate].
    apply IH1 in E as (c1 & g1' & Hc1 & D1 & K1); [| exact Hc].
    injection K1 as ->.
    exists c, g1. repeat split; auto; try apply Hc. econstructor; exact D1.
Qed.

Lemma match_at_sound (r : regex) (c c' : cursor) (m : rmatch_obj) :
  cur_ok s c -> match_at ic r c = Some (c', m) ->
  cur_ok s c' /\ matched ic r s m /\ m_start m = pos c /\ m_end m = pos c'.
Proof.
  intros Hc H. unfold match_at in H.
  apply rmatch_sound in H as (c1 & g1 & Hc1 & D & K); [| exact Hc].
  injection K as <- <-. unfold matched. simpl. auto.
Qed.

Lemma search_from_sound (r : regex) (fuel : nat) :
  forall c c' m, cur_ok s c -> search_from ic r fuel c = Some (c', m) ->
  cur_ok s c' /\ matched ic r s m /\ m_end m = pos c'.
Proof.
  induction fuel as [|fuel IH]; intros c c' m Hc H; simpl in H.
  - destruct (match_at ic r c) as [res|] eqn:E; [| discriminate].
    injection H as ->. apply match_at_sound in E; tauto.
  - destruct (match_at ic r c) as [res|] eqn:E.
    + injection H as ->. apply match_at_sound in E; tauto.
    + destruct (rest c) as [|x t] eqn:Er; [discriminate |].
      apply IH in H; [exact H |]. eapply cur_ok_advance; eauto.
Qed.

Lemma finditer_from_sound (r : regex) (fuel : nat) :
  forall c m, cur_ok s c -> In m (finditer_from ic r fuel c) -> matched ic r s m.
Proof.
  induction fuel as [|fuel IH]; intros c m Hc H; simpl in H; [contradiction |].
  destruct (search_from ic r (length (rest c)) c) as [[c' m']|] eqn:E; [| contradiction].
  apply search_from_sound in E as (Hc' & Hm' & _); [| exact Hc].
  destruct H as [<- | H]; [exact Hm' |].
  destruct (m_start m' <? m_end m').
  - eapply IH; eauto.
  - destruct (rest c') as [|x t] eqn:Er; [contradiction |].
    eapply IH; [| exact H]. eapply cur_ok_advance; eauto.
Qed.

End Sound.

(** Every match object of [finditer], [search] and [match] records a match
    of the pattern in the subject. *)
Lemma re_finditer_matched ic r s m : In m (re_finditer ic r s) -> matched ic r s m.
Proof. intros H. eapply finditer_from_sound; [apply cur_ok_start | exact H]. Qed.

Lemma re_search_matched ic r s m : re_search ic r s = Some m -> matched ic r s m.
Proof.
  unfold re_search. destruct (search_from _ _ _ _) as [[c' m']|] eqn:E; [| discriminate].
  intros [= <-]. eapply search_from_sound in E; [apply E | apply cur_ok_start].
Qed.

Lemma re_match_matched ic r s m : re_match ic r s = Some m -> matched ic r s m.
Proof.
  unfold re_match. destruct (match_at _ _ _) as [[c' m']|] eqn:E; [| discriminate].
  intros [= <-]. eapply match_at_sound in E; [apply E | apply cur_ok_start].
Qed.

(** *** Consequences of a match for the groups *)

Section Groups.
Variable s : str.
Variable ic : bool.

(** A match keeps the groups that were set and sets those of [sets]. *)
Lemma dmatch_sets r i g j g' :
  dmatch ic s r i g j g' ->
  (forall n, is_Some (g !! n) -> is_Some (g' !! n)) /\
  (forall n, sets r n = true -> is_Some (g' !! n)).
Proof.
  induction 1 as [ | | | r1 r2 i g j g' k g'' _ [K1 S1] _ [K2 S2]
                 | r1 r2 i g j g' _ [K1 S1] | r1 r2 i g j g' _ [K1 S1]
                 | | b r i g j g' k g'' _ [K1 S1] _ _ [K2 S2]
                 | n r i g j g' _ [K1 S1] | | | | r i g j g' _ [K1 S1] ];
    simpl; try (split; [auto | discriminate]).
  - split; [auto |]. intros n Hn. apply orb_true_iff in Hn as [Hn | Hn]; auto.
  - split; [auto |]. intros n Hn. apply andb_true_iff in Hn as [Hn _]; auto.
  - split; [auto |]. intros n Hn. apply andb_true_iff in Hn as [_ Hn]; auto.
  - split.
    + intros m Hm. destruct (decide (n = m)) as [-> | Hne].
      * rewrite lookup_insert_eq. eauto.
      * rewrite lookup_insert_ne by exact Hne. auto.
    + intros m Hm. destruct (decide (n = m)) as [-> | Hne].
      * rewrite lookup_insert_eq. eauto.
      * rewrite lookup_insert_ne by exact Hne.
        apply orb_true_iff in Hm as [Hm | Hm]; [| auto].
        apply Nat.eqb_eq in Hm. congruence.
  - split; auto.
Qed.

(** If every expression that group [n] encloses can only cover spans with
    the property [P], then the span of group [n], once set, has it. *)
Lemma dmatch_group_inv (P : nat -> nat -> Prop) (n : nat) r i g j g' :
  dmatch ic s r i g j g' ->
  Forall (fun b => forall i g j g', dmatch ic s b i g j g' -> P i j) (group_bodies n r) ->
  (forall a b, g !! n = Some (a, b) -> P a b) ->
  forall a b, g' !! n = Some (a, b) -> P a b.
Proof.
  induction 1 as [ | | | r1 r2 i g j g' k g'' D1 IH1 D2 IH2
                 | r1 r2 i g j g' D1 IH1 | r1 r2 i g j g' D1 IH1
                 | | b r i g j g' k g'' D1 IH1 Hlt D2 IH2
                 | m r i g j g' D1 IH1 | | | | r i g j g' D1 IH1 ];
    simpl; intros HB Hg; auto.
  - apply Forall_app in HB as [HB1 HB2]. auto.
  - apply Forall_app in HB as [HB1 HB2]. auto.
  - apply Forall_app in HB as [HB1 HB2]. auto.
  - apply Forall_app in HB as [HB1 HB2].
    intros a b. destruct (decide (m = n)) as [-> | Hne].
    + rewrite lookup_insert_eq. intros [= <- <-].
      rewrite Nat.eqb_refl in HB1. apply Forall_inv in HB1. eapply HB1; eauto.
    + rewrite lookup_insert_ne by exact Hne. apply IH1; auto.
Qed.

(** A repetition of a class covers a span of that class. *)
Lemma dmatch_star_class b cc i g j g' :
  dmatch ic s (Star b (Cls cc)) i g j g' -> span_in cc s i j.
Proof.
  remember (Star b (Cls cc)) as r eqn:Er. induction 1; try discriminate.
  - split; [lia | intros p Hp; lia].
  - injection Er as -> ->. specialize (IHdmatch2 eq_refl) as [Hle Hall].
    inversion H; subst.
    split; [lia |]. intros p Hp.
    destruct (decide (p = i)) as [-> | Hne]; [eauto |]. apply Hall. lia.
Qed.

Lemma dmatch_plus_class b cc i g j g' :
  dmatch ic s (Plus b (Cls cc)) i g j g' -> i < j /\ span_in cc s i j.
Proof.
  unfold Plus. inversion 1; subst.
  match goal with H : dmatch _ _ (Cls _) _ _ _ _ |- _ => inversion H; subst end.
  match goal with H : dmatch _ _ (Star _ _) _ _ _ _ |- _ =>
    apply dmatch_star_class in H as [Hle Hall] end.
  split; [lia |]. split; [lia |]. intros p Hp.
  destruct (decide (p = i)) as [-> | Hne]; [eauto |]. apply Hall. lia.
Qed.

End Groups.

(** The text of a span of a class is in that class, character by character. *)
Lemma slice_span_in cc s i j :
  span_in cc s i j ->
  length (slice s i j) = j - i /\
  Forall (fun x => in_class cc x = true) (slice s i j).
Proof.
  intros [Hle Hall]. unfold slice. split.
  - rewrite length_take, length_drop.
    destruct (decide (i = j)) as [-> | Hne]; [lia |].
    destruct (Hall (j - 1)) as (x & Hx & _); [lia |].
    apply lookup_lt_Some in Hx. lia.
  - apply Forall_lookup. intros q x Hq.
    apply lookup_take_Some in Hq as [Hq Hlt].
    rewrite lookup_drop in Hq.
    destruct (Hall (i + q)) as (y & Hy & Hc); [lia |]. congruence.
Qed.

(** A slice is a piece of the string. *)
Lemma slice_substring (s : str) (i j : nat) :
  exists pre suf, s = pre ++ slice s i j ++ suf.
Proof.
  exists (take i s), (drop (j - i) (drop i s)). unfold slice.
  rewrite take_drop, take_drop. reflexivity.
Qed.

(** *** Groups of a match object *)

(** A group that every match of the pattern sets is not [None]. *)
Lemma group_set ic r s m n :
  matched ic r s m -> sets r n = true -> exists v, group s m n = Some v.
Proof.
  unfold matched, group. intros D Hn.
  destruct (dmatch_sets _ _ _ _ _ _ _ D) as [_ Hs].
  destruct (Hs n Hn) as [p Hp]. rewrite Hp. simpl. eauto.
Qed.

(** A group that encloses only [Plus b (Cls cc)] holds, when set, a
    non-empty text of that class. *)
Lemma group_plus_class ic r s m n b cc v :
  matched ic r s m ->
  Forall (fun body => body = Plus b (Cls cc)) (group_bodies n r) ->
  group s m n = Some v ->
  v <> [] /\ Forall (fun x => in_class cc x = true) v.
Proof.
  unfold matched, group. intros D HB Hv.
  destruct (m_caps m !! n) as [[i j] |] eqn:E; [| discriminate].
  simpl in Hv. injection Hv as <-.
  assert (P : i < j /\ span_in cc s i j).
  { eapply (dmatch_group_inv s ic (fun i j => i < j /\ span_in cc s i j) n); eauto.
    - eapply Forall_impl; [exact HB |]. intros body -> i' g j' g' D'.
      eapply dmatch_plus_class; eauto.
    - intros a c Hac. rewrite lookup_empty in Hac. discriminate. }
  destruct P as [Hlt Hspan].
  destruct (slice_span_in _ _ _ _ Hspan) as [Hlen Hall].
  split; [| exact Hall].
  intros Hnil. rewrite Hnil in Hlen. simpl in Hlen. lia.
Qed.

(** The text of a group is a piece of the subject. *)
Lemma group_substring s m n v :
  group s m n = Some v -> exists pre suf, s = pre ++ v ++ suf.
Proof.
  unfold group. destruct (m_caps m !! n) as [[i j] |]; [| discriminate].
  simpl. intros [= <-]. apply slice_substring.
Qed.

End ReFacts.

(** ** The bounds of the loops are never reached *)

Module FuelFacts.

Import PyStrFacts ReFacts.

Lemma reach_refl c : reach c c.
Proof. exists 0. rewrite drop_0, Nat.add_0_r. repeat split; lia. Qed.

Lemma reach_advance c x t : rest c = x :: t -> reach c (advance c).
Proof.
  intros E. exists 1. unfold advance. rewrite E. simpl. rewrite drop_0.
  repeat split; lia.
Qed.

Lemma reach_trans c1 c2 c3 : reach c1 c2 -> reach c2 c3 -> reach c1 c3.
Proof.
  intros (n & Hn & Hr & Hp) (k & Hk & Hr' & Hp').
  exists (n + k). rewrite Hr in Hk, Hr'. rewrite length_drop in Hk.
  rewrite drop_drop in Hr'. repeat split; [lia | exact Hr' | lia].
Qed.

Lemma reach_length c c' : reach c c' -> length (rest c') + (pos c' - pos c) = length (rest c) /\ pos c <= pos c'.
Proof.
  intros (n & Hn & Hr & Hp). rewrite Hr, length_drop. lia.
Qed.

Lemma orelse_None_r {R} (a : option R) : orelse a None = a.
Proof. destruct a; reflexivity. Qed.

Lemma star_loop_local {R} b (body : cursor -> caps -> (cursor -> caps -> option R) -> option R) :
  local body -> forall fuel, local (fun c g k => star_loop b body k fuel c g).
Proof.
  intros Hbody fuel. induction fuel as [|fuel IH]; intros c g k k' Hk; simpl.
  - apply Hk, reach_refl.
  - rewrite (Hk c g (reach_refl c)).
    rewrite (Hbody c g
      (fun c' g' => if pos c <? pos c' then star_loop b body k fuel c' g' else None)
      (fun c' g' => if pos c <? pos c' then star_loop b body k' fuel c' g' else None));
      [reflexivity |].
    intros c1 g1 Hc1. destruct (pos c <? pos c1); [| reflexivity].
    apply IH. intros c2 g2 Hc2. apply Hk. eapply reach_trans; eauto.
Qed.

Lemma rmatch_local ic r : forall R, local (R := R) (rmatch ic r).
Proof.
  induction r as [ | a | cc | r1 IH1 r2 IH2 | r1 IH1 r2 IH2 | b r1 IH1
                 | n r1 IH1 | | | | r1 IH1 ];
    intros R c g k k' Hk; simpl.
  - apply Hk, reach_refl.
  - destruct (rest c) as [|x t] eqn:E; [reflexivity |].
    destruct (chr_eq ic a x); [| reflexivity]. apply Hk. eapply reach_advance; eauto.
  - destruct (rest c) as [|x t] eqn:E; [reflexivity |].
    destruct (in_class cc x); [| reflexivity]. apply Hk. eapply reach_advance; eauto.
  - apply IH1. intros c1 g1 Hc1. apply IH2. intros c2 g2 Hc2.
    apply Hk. eapply reach_trans; eauto.
  - rewrite (IH1 R c g k k' Hk), (IH2 R c g k k' Hk). reflexivity.
  - apply (star_loop_local b (rmatch ic r1) (IH1 R)). exact Hk.
  - apply IH1. intros c1 g1 Hc1. apply Hk. exact Hc1.
  - destruct (at_bol c); [apply Hk, reach_refl | reflexivity].
  - destruct (at_eol c); [apply Hk, reach_refl | reflexivity].
  - destruct (at_end c); [apply Hk, reach_refl | reflexivity].
  - destruct (rmatch ic r1 c g (fun _ g' => Some g')); [apply Hk, reach_refl | reflexivity].
Qed.

Lemma star_loop_failing {R} b (body : cursor -> caps -> (cursor -> caps -> option R) -> option R) :
  failing body -> forall fuel, failing (fun c g k => star_loop b body k fuel c g).
Proof.
  intros Hbody fuel. induction fuel as [|fuel IH]; intros c g k Hk; simpl.
  - apply Hk, reach_refl.
  - assert (A : body c g
        (fun c' g' => if pos c <? pos c' then star_loop b body k fuel c' g' else None)
        = None).
    { apply Hbody. intros c1 g1 Hc1. destruct (pos c <? pos c1); [| reflexivity].
      apply IH. intros c2 g2 Hc2. apply Hk. eapply reach_trans; eauto. }
    rewrite A, (Hk c g (reach_refl c)). destruct b; reflexivity.
Qed.

Lemma rmatch_failing ic r : forall R, failing (R := R) (rmatch ic r).
Proof.
  induction r as [ | a | cc | r1 IH1 r2 IH2 | r1 IH1 r2 IH2 | b r1 IH1
                 | n r1 IH1 | | | | r1 IH1 ];
    intros R c g k Hk; simpl.
  - apply Hk, reach_refl.
  - destruct (rest c) as [|x t] eqn:E; [reflexivity |].
    destruct (chr_eq ic a x); [| reflexivity]. apply Hk. eapply reach_advance; eauto.
  - destruct (rest c) as [|x t] eqn:E; [reflexivity |].
    destruct (in_class cc x); [| reflexivity]. apply Hk. eapply reach_advance; eauto.
  - apply IH1. intros c1 g1 Hc1. apply IH2. intros c2 g2 Hc2.
    apply Hk. eapply reach_trans; eauto.
  - rewrite (IH1 R c g k Hk), (IH2 R c g k Hk). reflexivity.
  - apply (star_loop_failing b (rmatch ic r1) (IH1 R)). exact Hk.
  - apply IH1. intros c1 g1 Hc1. apply Hk. exact Hc1.
  - destruct (at_bol c); [apply Hk, reach_refl | reflexivity].
  - destruct (at_eol c); [apply Hk, reach_refl | reflexivity].
  - destruct (at_end c); [apply Hk, reach_refl | reflexivity].
  - destruct (rmatch ic r1 c g (fun _ g' => Some g')); [apply Hk, reach_refl | reflexivity].
Qed.

(** The loop of a repetition does not depend on its fuel, once the fuel
    covers the remaining text: the bound never cuts an iteration. *)
Lemma star_loop_fuel {R} b (body : cursor -> caps -> (cursor -> caps -> option R) -> option R) k :
  local body -> failing body ->
  forall f1 f2 c g, length (rest c) <= f1 -> length (rest c) <= f2 ->
  star_loop b body k f1 c g = star_loop b body k f2 c g.
Proof.
  intros Hloc Hfail.
  assert (Hend : forall f c g, length (rest c) = 0 -> star_loop b body k f c g = k c g).
  { intros [|f] c g Hc; simpl; [reflexivity |].
    assert (A : body c g
        (fun c' g' => if pos c <? pos c' then star_loop b body k f c' g' else None)
        = None).
    { apply Hfail. intros c1 g1 Hc1. apply reach_length in Hc1.
      destruct (pos c <? pos c1) eqn:E; [| reflexivity].
      apply Nat.ltb_lt in E. lia. }
    rewrite A. destruct b; [reflexivity | apply orelse_None_r]. }
  induction f1 as [|f1 IH]; intros f2 c g H1 H2.
  - rewrite !Hend by lia. reflexivity.
  - destruct f2 as [|f2]; [rewrite !Hend by lia; reflexivity |]. simpl.
    rewrite (Hloc c g
      (fun c' g' => if pos c <? pos c' then star_loop b body k f1 c' g' else None)
      (fun c' g' => if pos c <? pos c' then star_loop b body k f2 c' g' else None));
      [reflexivity |].
    intros c1 g1 Hc1. destruct (pos c <? pos c1) eqn:E; [| reflexivity].
    apply Nat.ltb_lt in E. apply reach_length in Hc1. apply IH; lia.
Qed.

(** The repetition is its loop with any sufficient fuel. *)
Theorem star_fuel_irrelevant {R} ic b r (c : cursor) (g : caps)
    (k : cursor -> caps -> option R) (fuel : nat) :
  length (rest c) <= fuel ->
  rmatch ic (Star b r) c g k = star_loop b (rmatch ic r) k fuel c g.
Proof.
  intros H. simpl. apply star_loop_fuel; auto.
  - apply rmatch_local.
  - apply rmatch_failing.
Qed.

(** The scan of [search] reaches every position. *)
Lemma search_from_fuel ic r :
  forall f1 f2 c, length (rest c) <= f1 -> length (rest c) <= f2 ->
  search_from ic r f1 c = search_from ic r f2 c.
Proof.
  induction f1 as [|f1 IH]; intros f2 c H1 H2.
  - destruct f2 as [|f2]; [reflexivity |]. simpl.
    destruct (match_at ic r c); [reflexivity |].
    destruct (rest c); [reflexivity | simpl in H1; lia].
  - destruct f2 as [|f2]; simpl.
    + destruct (match_at ic r c); [reflexivity |].
      destruct (rest c); [reflexivity | simpl in H2; lia].
    + destruct (match_at ic r c); [reflexivity |].
      destruct (rest c) as [|x t] eqn:E; [reflexivity |].
      apply IH; unfold advance; rewrite E; simpl in *; lia.
Qed.

Section Finditer.
Variable s : str.
Variable ic : bool.

Lemma dmatch_le r i g j g' : dmatch ic s r i g j g' -> i <= j.
Proof. induction 1; lia. Qed.

Lemma dmatch_nonempty r i g j g' :
  dmatch ic s r i g j g' -> nonempty r = true -> i < j.
Proof.
  induction 1; simpl; intros Hn; try discriminate; try lia; auto.
  - apply orb_true_iff in Hn as [Hn | Hn].
    + specialize (IHdmatch1 Hn). apply dmatch_le in H0. lia.
    + specialize (IHdmatch2 Hn). apply dmatch_le in H. lia.
  - apply andb_true_iff in Hn as [Hn _]. auto.
  - apply andb_true_iff in Hn as [_ Hn]. auto.
Qed.

Lemma cur_ok_length c : cur_ok s c -> length (rest c) + pos c = length s.
Proof. intros (Hr & Hl & _). rewrite Hr, length_drop. lia. Qed.

Lemma search_from_start r fuel :
  forall c c' m, cur_ok s c -> search_from ic r fuel c = Some (c', m) ->
  pos c <= m_start m.
Proof.
  induction fuel as [|fuel IH]; intros c c' m Hc H; simpl in H.
  - destruct (match_at ic r c) as [res|] eqn:E; [| discriminate].
    injection H as ->. eapply match_at_sound in E; [| exact Hc]. lia.
  - destruct (match_at ic r c) as [res|] eqn:E.
    + injection H as ->. eapply match_at_sound in E; [| exact Hc]. lia.
    + destruct (rest c) as [|x t] eqn:Er; [discriminate |].
      destruct (cur_ok_advance s c x t Hc Er) as (Hc' & _ & Hp).
      specialize (IH _ _ _ Hc' H). lia.
Qed.

(** The scan of [finditer] goes on until the end of the subject. *)
Lemma finditer_from_fuel r :
  forall f1 f2 c, cur_ok s c -> length (rest c) < f1 -> length (rest c) < f2 ->
  finditer_from ic r f1 c = finditer_from ic r f2 c.
Proof.
  induction f1 as [|f1 IH]; intros f2 c Hc H1 H2; [lia |].
  destruct f2 as [|f2]; [lia |]. simpl.
  destruct (search_from ic r (length (rest c)) c) as [[c' m]|] eqn:E; [| reflexivity].
  pose proof (search_from_start _ _ _ _ _ Hc E) as Hstart.
  destruct (search_from_sound s ic _ _ _ _ _ Hc E) as (Hc' & Hm & Hend).
  pose proof (dmatch_le _ _ _ _ _ Hm) as Hle.
  pose proof (cur_ok_length _ Hc) as L. pose proof (cur_ok_length _ Hc') as L'.
  f_equal. destruct (m_start m <? m_end m) eqn:Hlt.
  - apply Nat.ltb_lt in Hlt. apply IH; [exact Hc' | lia | lia].
  - destruct (rest c') as [|x t] eqn:Er; [reflexivity |].
    destruct (cur_ok_advance s c' x t Hc' Er) as (Hc'' & _ & Hp).
    pose proof (cur_ok_length _ Hc'') as L''. simpl in L'.
    apply IH; [exact Hc'' | lia | lia].
Qed.

(** After a match of a pattern that cannot match the empty text, the scan
    resumes at the end of the match. *)
Lemma finditer_from_nonempty r fuel c :
  cur_ok s c -> nonempty r = true ->
  finditer_from ic r (S fuel) c =
  match search_from ic r (length (rest c)) c with
  | None => []
  | Some (c', m) => m :: finditer_from ic r fuel c'
  end.
Proof.
  intros Hc Hn. simpl.
  destruct (search_from ic r (length (rest c)) c) as [[c' m]|] eqn:E; [| reflexivity].
  destruct (search_from_sound s ic _ _ _ _ _ Hc E) as (_ & Hm & _).
  apply dmatch_nonempty in Hm; [| exact Hn].
  apply Nat.ltb_lt in Hm. rewrite Hm. reflexivity.
Qed.

(** The matches of [finditer] come in document order and do not overlap. *)
Lemma finditer_from_ordered r fuel :
  forall c, cur_ok s c ->
  Forall (fun m => pos c <= m_start m) (finditer_from ic r fuel c) /\
  StronglySorted (fun m1 m2 => m_end m1 <= m_start m2) (finditer_from ic r fuel c).
Proof.
  induction fuel as [|fuel IH]; intros c Hc; simpl; [split; constructor |].
  destruct (search_from ic r (length (rest c)) c) as [[c' m]|] eqn:E;
    [| split; constructor].
  pose proof (search_from_start _ _ _ _ _ Hc E) as Hstart.
  destruct (search_from_sound s ic _ _ _ _ _ Hc E) as (Hc' & Hm & Hend).
  pose proof (dmatch_le _ _ _ _ _ Hm) as Hle.
  assert (Hrest : forall c2, cur_ok s c2 -> pos c' <= pos c2 ->
            Forall (fun m' => pos c <= m_start m') (m :: finditer_from ic r fuel c2) /\
            StronglySorted (fun m1 m2 => m_end m1 <= m_start m2)
                           (m :: finditer_from ic r fuel c2)).
  { intros c2 Hc2 Hp. destruct (IH c2 Hc2) as [Hall Hs]. split.
    - constructor; [exact Hstart |].
      eapply Forall_impl; [exact Hall |]. simpl. intros; lia.
    - constructor; [exact Hs |].
      eapply Forall_impl; [exact Hall |]. simpl. intros; lia. }
  destruct (m_start m <? m_end m).
  - apply Hrest; [exact Hc' | lia].
  - destruct (rest c') as [|x t] eqn:Er.
    + split; repeat constructor. exact Hstart.
    + destruct (cur_ok_advance s c' x t Hc' Er) as (Hc'' & _ & Hp).
      apply Hrest; [exact Hc'' | lia].
Qed.

End Finditer.

Lemma re_finditer_ordered ic r (s : str) :
  StronglySorted (fun m1 m2 => m_end m1 <= m_start m2) (re_finditer ic r s).
Proof. apply (finditer_from_ordered s), cur_ok_start. Qed.

(** [finditer] and [search] with any larger bound. *)
Lemma re_finditer_fuel ic r (s : str) (fuel : nat) :
  length s < fuel -> re_finditer ic r s = finditer_from ic r fuel (start_of s).
Proof.
  intros H. unfold re_finditer.
  apply (finditer_from_fuel s); [apply cur_ok_start | simpl; lia | simpl; lia].
Qed.

Lemma re_search_fuel ic r (s : str) (fuel : nat) :
  length s <= fuel -> re_search ic r s = snd <$> search_from ic r fuel (start_of s).
Proof.
  intros H. unfold re_search. f_equal. apply search_from_fuel; simpl; lia.
Qed.

(** The patterns given to [finditer] cannot match the empty text. *)
Lemma patterns_nonempty :
  Forall (fun r => nonempty r = true)
    [table_pattern; col_pattern; table_comment_pattern; column_comment_pattern;
     view_pattern; pkg_pattern; proc_pattern; pk_pattern; fk_pattern].
Proof. repeat constructor. Qed.

End FuelFacts.

(** ** Loops in the exception monad *)

Module ExcFacts.

Lemma bind_Ok {A B} (m : result A) (f : A -> result B) (b : B) :
  (m ≫= f) = Ok b -> exists a, m = Ok a /\ f a = Ok b.
Proof. destruct m as [a | e]; simpl; [eauto | discriminate]. Qed.

Lemma req_Ok {A} (e : exn) (o : option A) (a : A) : req e o = Ok a -> o = Some a.
Proof. destruct o; simpl; congruence. Qed.

Lemma req_Some {A} (e : exn) (o : option A) : is_Some o -> exists a, o = Some a /\ req e o = Ok a.
Proof. intros [a ->]. eauto. Qed.

(** Each element a [collect] loop returns was made from an item of the
    list. *)
Lemma collect_In {A B} (f : A -> result (option B)) (l : list A) :
  forall bs b, collect f l = Ok bs -> In b bs ->
  exists a, In a l /\ f a = Ok (Some b).
Proof.
  induction l as [|a l IH]; intros bs b H Hb; simpl in H.
  - injection H as <-. contradiction.
  - apply bind_Ok in H as (ob & Ha & H).
    apply bind_Ok in H as (bs' & Hl & H). injection H as <-.
    destruct ob as [b' |].
    + destruct Hb as [<- | Hb]; [exists a; simpl; auto |].
      destruct (IH _ _ Hl Hb) as (a' & ? & ?). exists a'. simpl. auto.
    + destruct (IH _ _ Hl Hb) as (a' & ? & ?). exists a'. simpl. auto.
Qed.

(** A [collect] loop whose body never raises does not raise. *)
Lemma collect_total {A B} (f : A -> result (option B)) (l : list A) :
  (forall a, In a l -> exists ob, f a = Ok ob) -> exists bs, collect f l = Ok bs.
Proof.
  induction l as [|a l IH]; intros H; simpl; [eauto |].
  destruct (H a) as (ob & ->); [simpl; auto |].
  destruct IH as (bs & ->); [intros; apply H; simpl; auto |].
  simpl. eauto.
Qed.

(** An invariant of a [for_each] loop holds of its result. *)
Lemma for_each_inv {A S} (P : S -> Prop) (f : S -> A -> result S) (l : list A) :
  (forall s a s', In a l -> P s -> f s a = Ok s' -> P s') ->
  forall s s', P s -> for_each f l s = Ok s' -> P s'.
Proof.
  induction l as [|a l IH]; intros Hf s s' Hs H; simpl in H.
  - congruence.
  - apply bind_Ok in H as (s1 & H1 & H).
    eapply IH; [| | exact H].
    + intros; eapply Hf; eauto. simpl; auto.
    + eapply Hf; eauto. simpl; auto.
Qed.

Lemma for_each_total {A S} (f : S -> A -> result S) (l : list A) :
  (forall s a, In a l -> exists s', f s a = Ok s') ->
  forall s, exists s', for_each f l s = Ok s'.
Proof.
  induction l as [|a l IH]; intros H s; simpl; [eauto |].
  destruct (H s a) as (s1 & ->); [simpl; auto |]. simpl.
  apply IH. intros; apply H; simpl; auto.
Qed.

Lemma for_each_app {A S} (f : S -> A -> result S) (l1 l2 : list A) (s : S) :
  for_each f (l1 ++ l2) s = (for_each f l1 s ≫= for_each f l2).
Proof.
  revert s. induction l1 as [|a l1 IH]; intros s; simpl; [reflexivity |].
  destruct (f s a); simpl; auto.
Qed.

End ExcFacts.

(** ** Comment unescaping *)

Module UnescapeFacts.

Import PyStrFacts.

Local Abbreviation q := ("'"%char).

Lemma unescape_nil : unescape [] = [].
Proof. reflexivity. Qed.

(** Two quotes at the head become one. *)
Lemma unescape_pair (t : str) : unescape (q :: q :: t) = q :: unescape t.
Proof. reflexivity. Qed.

(** Any other head is copied. *)
Lemma unescape_copy (c : ascii) (t : str) :
  starts_with [q; q] (c :: t) = false -> unescape (c :: t) = c :: unescape t.
Proof.
  intros H. unfold unescape, replace. cbn [replace_from].
  change (lit "''") with [q; q]. rewrite H. reflexivity.
Qed.

(** The head is copied unless it is the first of two quotes. *)
Lemma unescape_cases (c : ascii) (t : str) :
  (exists t', c = q /\ t = q :: t') \/ starts_with [q; q] (c :: t) = false.
Proof.
  destruct (starts_with [q; q] (c :: t)) eqn:E; [left | right; reflexivity].
  apply starts_with_true in E as (t' & E). simpl in E. injection E as -> ->. eauto.
Qed.

Lemma unescape_single (c : ascii) : unescape [c] = [c].
Proof.
  rewrite unescape_copy; [reflexivity |].
  simpl. apply andb_false_r.
Qed.

(** Induction two characters at a time, as the replacement proceeds. *)
Lemma str_ind2 (P : str -> Prop) :
  P [] -> (forall c, P [c]) ->
  (forall c d t, P t -> P (d :: t) -> P (c :: d :: t)) ->
  forall s, P s.
Proof.
  intros H0 H1 H2 s.
  assert (H : P s /\ forall c, P (c :: s)); [| apply H].
  induction s as [|d s [IHs IHc]]; split; auto.
Qed.

Lemma unescape_length (s : str) : length (unescape s) <= length s.
Proof.
  induction s as [| c | c d t IH1 IH2] using str_ind2.
  - reflexivity.
  - rewrite unescape_single. reflexivity.
  - destruct (unescape_cases c (d :: t)) as [(t' & -> & [= -> <-]) | E].
    + rewrite unescape_pair. simpl. lia.
    + rewrite (unescape_copy _ _ E). simpl in *. lia.
Qed.

(** Text with two adjacent quotes gets shorter ... *)
Lemma unescape_shorter (s : str) :
  contains [q; q] s = true -> length (unescape s) < length s.
Proof.
  induction s as [| c | c d t IH1 IH2] using str_ind2; intros H.
  - discriminate.
  - simpl in H. rewrite andb_false_r in H. discriminate.
  - destruct (unescape_cases c (d :: t)) as [(t' & -> & [= -> <-]) | E].
    + rewrite unescape_pair. pose proof (unescape_length t). simpl. lia.
    + rewrite (unescape_copy _ _ E).
      change (contains [q; q] (c :: d :: t))
        with (starts_with [q; q] (c :: d :: t) || contains [q; q] (d :: t)) in H.
      rewrite E in H. simpl orb in H. specialize (IH2 H). simpl in *. lia.
Qed.

(** ... and text without is left as it is. *)
Lemma unescape_fixed (s : str) : contains [q; q] s = false -> unescape s = s.
Proof.
  induction s as [|c t IH]; intros H; [reflexivity |].
  change (contains [q; q] (c :: t))
    with (starts_with [q; q] (c :: t) || contains [q; q] t) in H.
  apply orb_false_iff in H as [H1 H2].
  rewrite (unescape_copy _ _ H1), (IH H2). reflexivity.
Qed.

(** Unescaping goes through a concatenation whose left part does not end in
    a quote. *)
Lemma unescape_app (a b : str) :
  last a <> Some q -> unescape (a ++ b) = unescape a ++ unescape b.
Proof.
  induction a as [| c | c d t IH1 IH2] using str_ind2; intros H.
  - reflexivity.
  - rewrite unescape_single. simpl app. apply unescape_copy.
    simpl in H. cbn [starts_with]. destruct (ascii_eqb q c) eqn:E; [| reflexivity].
    apply ascii_eqb_true in E. congruence.
  - destruct (unescape_cases c (d :: t)) as [(t' & -> & [= -> <-]) | E].
    + simpl app. rewrite !unescape_pair. simpl. f_equal. apply IH1.
      destruct t as [|x t]; [simpl in H; congruence | exact H].
    + assert (E' : starts_with [q; q] ((c :: d :: t) ++ b) = false).
      { simpl in *. exact E. }
      rewrite (unescape_copy _ _ E). simpl app in *.
      rewrite (unescape_copy _ _ E'). simpl. f_equal. apply IH2. exact H.
Qed.

(** C5, as stated, fails: unescaping the output of the function once more
    changes it.  Four quotes stand for two literal quotes, and these two are
    taken for an escaped one by a second pass. *)
Lemma unescape_not_idempotent :
  unescape (unescape (lit "a''''b")) <> unescape (lit "a''''b").
Proof. vm_compute. discriminate. Qed.

(** C5, amended.  The function rewrites, from left to right, each two
    adjacent quotes into one: a pair that follows text not ending in a quote
    becomes one quote, and the texts on both sides are unescaped on their
    own.  It leaves unchanged every text without two adjacent quotes, and a
    second application changes nothing exactly when the output of the first
    has no two adjacent quotes. *)
Theorem unescape_pairs_and_fixed_points :
  (forall a b : str,
      last a <> Some q ->
      unescape (a ++ lit "''" ++ b) = unescape a ++ lit "'" ++ unescape b) /\
  (forall s : str, contains (lit "''") s = false -> unescape s = s) /\
  (forall s : str,
      unescape (unescape s) = unescape s <->
      contains (lit "''") (unescape s) = false).
Proof.
  split; [| split].
  - intros a b H. rewrite (unescape_app a _ H).
    change (lit "''" ++ b) with (q :: q :: b). rewrite unescape_pair. reflexivity.
  - exact unescape_fixed.
  - intros s. split.
    + intros E. destruct (contains (lit "''") (unescape s)) eqn:C; [| reflexivity].
      apply unescape_shorter in C. rewrite E in C. lia.
    + apply unescape_fixed.
Qed.

Lemma unescape_pairs_and_fixed_points_witness :
  unescape (lit "it" ++ lit "''" ++ lit "s") = unescape (lit "it") ++ lit "'" ++ unescape (lit "s") /\
  unescape (lit "plain 'text'") = lit "plain 'text'" /\
  unescape (unescape (lit "it''s")) = unescape (lit "it''s").
Proof.
  destruct unescape_pairs_and_fixed_points as (H1 & H2 & H3).
  split; [| split].
  - apply (H1 (lit "it") (lit "s")). vm_compute. discriminate.
  - apply (H2 (lit "plain 'text'")). vm_compute. reflexivity.
  - apply (H3 (lit "it''s")). vm_compute. reflexivity.
Defined.

End UnescapeFacts.

(** ** The extractor *)

Module ToadFacts.

Import PyStrFacts ExcFacts ReFacts.

(** Decompose a successful run of monadic code, bind by bind. *)
Ltac inv_ok H :=
  repeat (let a := fresh "v" in
          let Ha := fresh "Hv" in
          apply bind_Ok in H as (a & Ha & H)).

(** *** Columns *)

Lemma int_if_Ok cond x v :
  int_if cond x = Ok v -> (cond = false /\ v = None) \/ (cond = true /\ exists n, v = Some n).
Proof.
  unfold int_if. destruct cond; intros H.
  - right. inv_ok H. injection H as <-. eauto.
  - left. injection H as <-. auto.
Qed.

(** The fields of an accepted column, read off the match. *)
Lemma column_of_match_fields block m col :
  column_of_match block m = Ok (Some col) ->
  exists dt,
    group block m 1 = Some (col_name col) /\
    group block m 2 = Some dt /\
    col_data_type col = upper dt /\
    col_nullable col =
      negb (contains (lit "NOT NULL") (upper (or_empty (group block m 5)))) /\
    (col_max_length col <> None -> str_in (upper dt) char_types = true) /\
    (col_precision col <> None -> upper dt = lit "NUMBER") /\
    (col_scale col <> None <-> truthy (group block m 4) = true).
Proof.
  unfold column_of_match. intros H.
  apply bind_Ok in H as (name & Hname & H). apply req_Ok in Hname.
  destruct (str_in (upper name) skipped_names); [discriminate |].
  apply bind_Ok in H as (dv & _ & H).
  apply bind_Ok in H as (dt & Hdt & H). apply req_Ok in Hdt.
  apply bind_Ok in H as (ml & Hml & H). apply int_if_Ok in Hml.
  apply bind_Ok in H as (pr & Hpr & H). apply int_if_Ok in Hpr.
  apply bind_Ok in H as (sc & Hsc & H). apply int_if_Ok in Hsc.
  injection H as <-. simpl. exists dt. repeat split; auto.
  - intros Hn. destruct Hml as [[_ ->] | [Hc _]]; [congruence |].
    apply andb_true_iff in Hc as [_ Hc]. exact Hc.
  - intros Hn. destruct Hpr as [[_ ->] | [Hc _]]; [congruence |].
    apply andb_true_iff in Hc as [_ Hc]. apply str_eqb_true in Hc. exact Hc.
  - intros Hn. destruct Hsc as [[_ ->] | [Hc _]]; [congruence | exact Hc].
  - intros Hn. destruct Hsc as [[Hc _] | [_ [n ->]]]; congruence.
Qed.

(** The length and the precision are never set together. *)
Lemma column_length_xor_precision block m col :
  column_of_match block m = Ok (Some col) ->
  col_max_length col = None \/ col_precision col = None.
Proof.
  intros H. apply column_of_match_fields in H as (dt & _ & _ & _ & _ & Hml & Hpr & _).
  destruct (col_max_length col) as [n |]; [| auto]. right.
  destruct (col_precision col) as [k |]; [| auto]. exfalso.
  assert (E : upper dt = lit "NUMBER") by (apply Hpr; discriminate).
  assert (F : str_in (upper dt) char_types = true) by (apply Hml; discriminate).
  rewrite E in F. vm_compute in F. discriminate.
Qed.

(** C2 fails on a character column with two size arguments: the column is
    accepted with both its length and its scale set.  The scale is taken from
    the second argument whatever the type, while the length and the precision
    are taken from the first one according to the type. *)
Theorem char_column_with_scale :
  _parse_columns block_char_scale =
  Ok [mkColumn (lit "X") (lit "VARCHAR2") true (Some 10%Z) None (Some 2%Z) None None].
Proof. vm_compute. reflexivity. Qed.

(** *** Column lists *)

Lemma split_columns_length (a : str) :
  length (split_columns a) = S (count_occ ascii_dec a ","%char).
Proof.
  unfold split_columns. rewrite length_map, split_on_length.
  change (lit " ") with [" "%char].
  rewrite replace_char_count; [reflexivity | | ]; vm_compute; discriminate.
Qed.

Lemma split_columns_nonempty (a : str) : split_columns a <> [].
Proof.
  intros E. pose proof (split_columns_length a) as L. rewrite E in L. discriminate.
Qed.

Lemma split_columns_empty : split_columns [] = [[]].
Proof. reflexivity. Qed.

(** *** Primary keys *)

Lemma primary_key_step_Ok content acc m acc' :
  primary_key_step content acc m = Ok acc' ->
  exists t cn cs,
    group content m 1 = Some t /\ group content m 2 = Some cn /\
    group content m 3 = Some cs /\
    acc' = <[t := mkPrimaryKey cn (split_columns cs)]> acc.
Proof.
  unfold primary_key_step. intros H.
  apply bind_Ok in H as (cs & Hcs & H). apply req_Ok in Hcs.
  apply bind_Ok in H as (cn & Hcn & H). apply req_Ok in Hcn.
  apply bind_Ok in H as (t & Ht & H). apply req_Ok in Ht.
  injection H as <-. exists t, cn, cs. auto.
Qed.

(** Matches for other tables leave the entry of [t] alone. *)
Lemma primary_key_loop_other content (t : str) (ms : list rmatch_obj) :
  (forall m, In m ms -> group content m 1 <> Some t) ->
  forall acc pks, for_each (primary_key_step content) ms acc = Ok pks ->
  pks !! t = acc !! t.
Proof.
  intros Hms acc pks H.
  eapply for_each_inv with (P := fun a : gmap str PrimaryKey => a !! t = acc !! t);
    [| reflexivity | exact H].
  intros a m a' Hm Ha Hstep.
  apply primary_key_step_Ok in Hstep as (t' & cn & cs & Ht' & _ & _ & ->).
  rewrite lookup_insert_ne; [exact Ha |].
  intros ->. exact (Hms m Hm Ht').
Qed.

(** C6.  The result maps a table name to one primary key, the one of the
    last statement for that name in document order; a name without a
    statement has no entry. *)
Theorem primary_key_last_match_wins (content : str) (pks : gmap str PrimaryKey) (t : str) :
  _parse_primary_keys content = Ok pks ->
  (forall ms1 m ms2,
      re_finditer true pk_pattern content = ms1 ++ m :: ms2 ->
      group content m 1 = Some t ->
      (forall m', In m' ms2 -> group content m' 1 <> Some t) ->
      exists cn cs,
        group content m 2 = Some cn /\ group content m 3 = Some cs /\
        pks !! t = Some (mkPrimaryKey cn (split_columns cs))) /\
  ((forall m, In m (re_finditer true pk_pattern content) -> group content m 1 <> Some t) ->
   pks !! t = None) /\
  (forall pk1 pk2, pks !! t = Some pk1 -> pks !! t = Some pk2 -> pk1 = pk2).
Proof.
  unfold _parse_primary_keys. intros H. split; [| split].
  - intros ms1 m ms2 E Hm Hlater. rewrite E, for_each_app in H.
    apply bind_Ok in H as (acc1 & _ & H). simpl in H.
    apply bind_Ok in H as (acc2 & Hstep & H).
    apply primary_key_step_Ok in Hstep as (t' & cn & cs & Ht' & Hcn & Hcs & ->).
    exists cn, cs. split; [exact Hcn | split; [exact Hcs |]].
    rewrite (primary_key_loop_other content t ms2 Hlater _ _ H).
    assert (t' = t) as -> by congruence. apply lookup_insert_eq.
  - intros Hnone. rewrite (primary_key_loop_other content t _ Hnone _ _ H).
    apply lookup_empty.
  - congruence.
Qed.

Lemma primary_key_last_match_wins_witness :
  exists pks,
    _parse_primary_keys doc_pk_twice = Ok pks /\
    pks !! lit "EMP" = Some (mkPrimaryKey (lit "EMP_PK2") [lit "ID"; lit "NAME"]).
Proof.
  destruct (_parse_primary_keys doc_pk_twice) as [pks | e] eqn:E;
    [| vm_compute in E; discriminate].
  exists pks. split; [reflexivity |].
  destruct (primary_key_last_match_wins doc_pk_twice pks (lit "EMP") E) as (Hlast & _ & _).
  destruct (re_finditer true pk_pattern doc_pk_twice) as [| m1 [| m2 [| m3 ms]]] eqn:F;
    try (vm_compute in F; discriminate).
  destruct (Hlast [m1] m2 [] eq_refl) as (cn & cs & Hcn & Hcs & ->).
  - vm_compute in F. injection F as <- <-. vm_compute. reflexivity.
  - intros m' [].
  - vm_compute in F. injection F as <- <-.
    vm_compute in Hcn. vm_compute in Hcs.
    injection Hcn as <-. injection Hcs as <-. vm_compute. reflexivity.
Defined.

(** *** Foreign keys *)

Lemma foreign_key_step_Ok content acc m acc' :
  foreign_key_step content acc m = Ok acc' ->
  exists t cn a rt b,
    group content m 1 = Some t /\ group content m 3 = Some a /\
    group content m 5 = Some b /\
    acc' = <[t := default [] (acc !! t) ++
                   [mkForeignKey cn (split_columns a) rt (split_columns b)]]> acc.
Proof.
  unfold foreign_key_step. intros H.
  apply bind_Ok in H as (a & Ha & H). apply req_Ok in Ha.
  apply bind_Ok in H as (b & Hb & H). apply req_Ok in Hb.
  apply bind_Ok in H as (t & Ht & H). apply req_Ok in Ht.
  apply bind_Ok in H as (cn & Hcn & H).
  apply bind_Ok in H as (rt & Hrt & H).
  injection H as <-. exists t, cn, a, rt, b. auto.
Qed.

(** Every extracted foreign key lists the fields of the two texts of one
    match. *)
Lemma foreign_key_origin content fks t l fk :
  _parse_foreign_keys content = Ok fks -> fks !! t = Some l -> In fk l ->
  exists m a b,
    In m (re_finditer true fk_pattern content) /\
    group content m 1 = Some t /\
    group content m 3 = Some a /\ group content m 5 = Some b /\
    fk_columns fk = split_columns a /\ fk_referenced_columns fk = split_columns b.
Proof.
  unfold _parse_foreign_keys. intros H. revert t l fk.
  eapply for_each_inv with
    (P := fun acc : gmap str (list ForeignKey) => forall t l fk,
            acc !! t = Some l -> In fk l ->
            exists m a b,
              In m (re_finditer true fk_pattern content) /\
              group content m 1 = Some t /\
              group content m 3 = Some a /\ group content m 5 = Some b /\
              fk_columns fk = split_columns a /\
              fk_referenced_columns fk = split_columns b);
    [| | exact H].
  - intros acc m acc' Hm Hacc Hstep t l fk Hl Hfk.
    apply foreign_key_step_Ok in Hstep as (t' & cn & a & rt & b & Ht' & Ha & Hb & ->).
    destruct (decide (t' = t)) as [-> | Hne].
    + rewrite lookup_insert_eq in Hl. injection Hl as <-.
      apply in_app_or in Hfk as [Hfk | [<- | []]].
      * destruct (acc !! t) as [l0 |] eqn:E; [eapply Hacc; eauto | contradiction].
      * exists m, a, b. simpl. auto 10.
    + rewrite lookup_insert_ne in Hl by exact Hne. eapply Hacc; eauto.
  - intros t l fk Hl. rewrite lookup_empty in Hl. discriminate.
Qed.

(** What the extractor returns for [doc_fk]. *)
Lemma doc_fk_parsed :
  exists fks,
    _parse_foreign_keys doc_fk = Ok fks /\
    fks !! lit "EMP" =
      Some [mkForeignKey (lit "EMP_FK") [lit "A"; lit "B"] (lit "DEPT") [lit "X"]].
Proof.
  destruct (_parse_foreign_keys doc_fk) as [fks | e] eqn:E;
    [| vm_compute in E; discriminate].
  exists fks. split; [reflexivity |].
  assert (F : match _parse_foreign_keys doc_fk with
              | Ok f => f !! lit "EMP" | Raise _ => None end
              = Some [mkForeignKey (lit "EMP_FK") [lit "A"; lit "B"] (lit "DEPT") [lit "X"]])
    by (vm_compute; reflexivity).
  rewrite E in F. exact F.
Defined.

(** C3, as stated, fails: a statement whose two parenthesized lists have
    different numbers of fields yields a foreign key with two local columns
    and one referenced column. *)
Lemma foreign_key_lengths_differ :
  exists fks fk,
    _parse_foreign_keys doc_fk = Ok fks /\
    fks !! lit "EMP" = Some [fk] /\
    fk_columns fk = [lit "A"; lit "B"] /\
    fk_referenced_columns fk = [lit "X"] /\
    length (fk_columns fk) <> length (fk_referenced_columns fk).
Proof.
  destruct doc_fk_parsed as (fks & E & L).
  exists fks, (mkForeignKey (lit "EMP_FK") [lit "A"; lit "B"] (lit "DEPT") [lit "X"]).
  split; [exact E | split; [exact L |]].
  split; [reflexivity | split; [reflexivity | simpl; lia]].
Qed.

(** C3, amended.  Each of the two column lists of an extracted foreign key
    is the comma-split of its own parenthesized text in the statement, so
    its length is one more than the number of commas of that text; the two
    lengths are equal exactly when the two texts have as many commas. *)
Theorem foreign_key_lengths (content : str) (fks : gmap str (list ForeignKey))
    (t : str) (l : list ForeignKey) (fk : ForeignKey) :
  _parse_foreign_keys content = Ok fks -> fks !! t = Some l -> In fk l ->
  exists m a b,
    In m (re_finditer true fk_pattern content) /\
    group content m 3 = Some a /\ group content m 5 = Some b /\
    length (fk_columns fk) = S (count_occ ascii_dec a ","%char) /\
    length (fk_referenced_columns fk) = S (count_occ ascii_dec b ","%char) /\
    (length (fk_columns fk) = length (fk_referenced_columns fk) <->
     count_occ ascii_dec a ","%char = count_occ ascii_dec b ","%char).
Proof.
  intros H Hl Hfk.
  destruct (foreign_key_origin _ _ _ _ _ H Hl Hfk) as (m & a & b & Hm & _ & Ha & Hb & -> & ->).
  exists m, a, b. rewrite !split_columns_length. repeat split; auto; lia.
Qed.

Lemma foreign_key_lengths_witness :
  exists fks l fk,
    _parse_foreign_keys doc_fk = Ok fks /\ fks !! lit "EMP" = Some l /\ In fk l /\
    exists m a b,
      In m (re_finditer true fk_pattern doc_fk) /\
      group doc_fk m 3 = Some a /\ group doc_fk m 5 = Some b /\
      length (fk_columns fk) = S (count_occ ascii_dec a ","%char) /\
      length (fk_referenced_columns fk) = S (count_occ ascii_dec b ","%char) /\
      (length (fk_columns fk) = length (fk_referenced_columns fk) <->
       count_occ ascii_dec a ","%char = count_occ ascii_dec b ","%char).
Proof.
  destruct doc_fk_parsed as (fks & E & L).
  set (fk := mkForeignKey (lit "EMP_FK") [lit "A"; lit "B"] (lit "DEPT") [lit "X"]) in *.
  exists fks, [fk], fk.
  assert (I : In fk [fk]) by (left; reflexivity).
  split; [exact E | split; [exact L | split; [exact I |]]].
  exact (foreign_key_lengths doc_fk fks (lit "EMP") [fk] fk E L I).
Defined.

(** *** Views *)

Lemma view_of_match_Ok content schema m v :
  view_of_match content schema m = Ok (Some v) ->
  exists cs, group content m 3 = Some cs /\ view_columns v = split_columns cs.
Proof.
  unfold view_of_match. intros H.
  apply bind_Ok in H as (cs & Hcs & H). apply req_Ok in Hcs.
  apply bind_Ok in H as (sel & _ & H).
  apply bind_Ok in H as (name & _ & H).
  injection H as <-. exists cs. auto.
Qed.

Lemma view_origin content vs v :
  _parse_views content = Ok vs -> In v vs ->
  exists m cs, In m (re_finditer true view_pattern content) /\
    group content m 3 = Some cs /\ view_columns v = split_columns cs.
Proof.
  unfold _parse_views. intros H Hv.
  apply bind_Ok in H as (md & _ & H).
  destruct (collect_In _ _ _ _ H Hv) as (m & Hm & Hvm).
  apply view_of_match_Ok in Hvm as (cs & Hcs & E). eauto.
Qed.

Lemma primary_key_origin content pks t pk :
  _parse_primary_keys content = Ok pks -> pks !! t = Some pk ->
  exists m cs, In m (re_finditer true pk_pattern content) /\
    group content m 3 = Some cs /\ pk_columns pk = split_columns cs.
Proof.
  unfold _parse_primary_keys. intros H. revert t pk.
  eapply for_each_inv with
    (P := fun acc : gmap str PrimaryKey => forall t pk, acc !! t = Some pk ->
            exists m cs, In m (re_finditer true pk_pattern content) /\
              group content m 3 = Some cs /\ pk_columns pk = split_columns cs);
    [| | exact H].
  - intros acc m acc' Hm Hacc Hstep t pk Hpk.
    apply primary_key_step_Ok in Hstep as (t' & cn & cs & _ & _ & Hcs & ->).
    destruct (decide (t' = t)) as [-> | Hne].
    + rewrite lookup_insert_eq in Hpk. injection Hpk as <-. eauto.
    + rewrite lookup_insert_ne in Hpk by exact Hne. eauto.
  - intros t pk Hpk. rewrite lookup_empty in Hpk. discriminate.
Qed.

(** C10.  The column lists of every primary key, foreign key and view the
    extractor returns have at least one element, and the empty text between
    the parentheses gives the list whose only element is the empty string. *)
Theorem column_lists_nonempty (content : str) :
  (forall pks t pk,
      _parse_primary_keys content = Ok pks -> pks !! t = Some pk ->
      pk_columns pk <> []) /\
  (forall fks t l fk,
      _parse_foreign_keys content = Ok fks -> fks !! t = Some l -> In fk l ->
      fk_columns fk <> [] /\ fk_referenced_columns fk <> []) /\
  (forall vs v, _parse_views content = Ok vs -> In v vs -> view_columns v <> []) /\
  split_columns (lit "") = [lit ""].
Proof.
  split; [| split; [| split]].
  - intros pks t pk H Hpk.
    destruct (primary_key_origin _ _ _ _ H Hpk) as (m & cs & _ & _ & ->).
    apply split_columns_nonempty.
  - intros fks t l fk H Hl Hfk.
    destruct (foreign_key_origin _ _ _ _ _ H Hl Hfk) as (m & a & b & _ & _ & _ & _ & -> & ->).
    split; apply split_columns_nonempty.
  - intros vs v H Hv.
    destruct (view_origin _ _ _ H Hv) as (m & cs & _ & _ & ->).
    apply split_columns_nonempty.
  - reflexivity.
Qed.

(** The statements of [doc_empty_lists] have empty parentheses, and every
    list extracted from them is the one-element list of the empty string. *)
Lemma column_lists_nonempty_witness :
  exists pk fk v,
    (forall pks, _parse_primary_keys doc_empty_lists = Ok pks ->
                 pks !! lit "EMP" = Some pk) /\
    (forall fks, _parse_foreign_keys doc_empty_lists = Ok fks ->
                 fks !! lit "EMP" = Some [fk]) /\
    _parse_views doc_empty_lists = Ok [v] /\
    pk_columns pk = [lit ""] /\ fk_columns fk = [lit ""] /\
    fk_referenced_columns fk = [lit ""] /\ view_columns v = [lit ""] /\
    pk_columns pk <> [] /\ view_columns v <> [].
Proof.
  pose (pk := mkPrimaryKey (lit "EMP_PK") [lit ""]).
  pose (fk := mkForeignKey (lit "EMP_FK") [lit ""] (lit "DEPT") [lit ""]).
  pose (v := mkView (lit "V") UNKNOWN [lit ""] (lit "SELECT 1 FROM DUAL;") None).
  assert (Hpk : forall pks, _parse_primary_keys doc_empty_lists = Ok pks ->
                            pks !! lit "EMP" = Some pk).
  { intros pks E.
    assert (F : match _parse_primary_keys doc_empty_lists with
                | Ok f => f !! lit "EMP" | Raise _ => None end = Some pk)
      by (vm_compute; reflexivity).
    rewrite E in F. exact F. }
  assert (Hfk : forall fks, _parse_foreign_keys doc_empty_lists = Ok fks ->
                            fks !! lit "EMP" = Some [fk]).
  { intros fks E.
    assert (F : match _parse_foreign_keys doc_empty_lists with
                | Ok f => f !! lit "EMP" | Raise _ => None end = Some [fk])
      by (vm_compute; reflexivity).
    rewrite E in F. exact F. }
  assert (Hv : _parse_views doc_empty_lists = Ok [v]) by (vm_compute; reflexivity).
  exists pk, fk, v.
  repeat (split; [first [exact Hpk | exact Hfk | exact Hv | reflexivity] |]).
  destruct (column_lists_nonempty doc_empty_lists) as (Cpk & _ & Cv & _).
  destruct (_parse_primary_keys doc_empty_lists) as [pks | e] eqn:E;
    [| vm_compute in E; discriminate].
  split.
  - exact (Cpk pks (lit "EMP") pk eq_refl (Hpk pks eq_refl)).
  - exact (Cv [v] v Hv (or_introl eq_refl)).
Defined.

(** *** Procedures *)

Lemma has_refcursor_out_true (ps : list ProcedureParameter) :
  has_refcursor_out ps = true <->
  exists p, In p ps /\
    (param_direction p = lit "OUT" \/ param_direction p = lit "IN OUT") /\
    (exists a b, upper (param_data_type p) = a ++ lit "REF" ++ b) /\
    (exists a b, upper (param_data_type p) = a ++ lit "CURSOR" ++ b).
Proof.
  unfold has_refcursor_out, is_refcursor_out. rewrite existsb_exists.
  split; intros (p & Hp & H); exists p; (split; [exact Hp |]).
  - rewrite !andb_true_iff, str_in_true, !contains_true in H.
    destruct H as (Hd & Hr & Hc). simpl in Hd. intuition.
  - rewrite !andb_true_iff, str_in_true, !contains_true.
    destruct H as (Hd & Hr & Hc). simpl. intuition.
Qed.

Lemma procedure_of_match_flag body pkg schema m p :
  procedure_of_match body pkg schema m = Ok (Some p) ->
  proc_has_refcursor_out p = has_refcursor_out (proc_parameters p).
Proof.
  unfold procedure_of_match. intros H. inv_ok H. injection H as <-. reflexivity.
Qed.

Lemma procedures_of_package_flag content schema m ps p :
  procedures_of_package content schema m = Ok ps -> In p ps ->
  proc_has_refcursor_out p = has_refcursor_out (proc_parameters p).
Proof.
  unfold procedures_of_package. intros H Hp.
  apply bind_Ok in H as (body & _ & H).
  destruct (collect_In _ _ _ _ H Hp) as (a & _ & Ha).
  eapply procedure_of_match_flag; eauto.
Qed.

Lemma _parse_procedures_flag content procs p :
  _parse_procedures content = Ok procs -> In p procs ->
  proc_has_refcursor_out p = has_refcursor_out (proc_parameters p).
Proof.
  unfold _parse_procedures. intros H.
  apply bind_Ok in H as (md & _ & H). revert p.
  eapply for_each_inv with
    (P := fun procs => forall p, In p procs ->
            proc_has_refcursor_out p = has_refcursor_out (proc_parameters p));
    [| | exact H].
  - intros acc m acc' _ Hacc Hstep p Hp.
    apply bind_Ok in Hstep as (ps & Hps & Hstep). injection Hstep as <-.
    apply in_app_or in Hp as [Hp | Hp]; [auto |].
    eapply procedures_of_package_flag; eauto.
  - intros p [].
Qed.

(** C4.  For every extracted procedure, [has_refcursor_out] is true if and
    only if one of its parameters has direction OUT or IN OUT and a data type
    whose upper-cased text contains both REF and CURSOR; it is false for an
    empty parameter list and when every parameter has direction IN. *)
Theorem has_refcursor_out_iff (content : str) (procs : list Procedure) (p : Procedure) :
  _parse_procedures content = Ok procs -> In p procs ->
  (proc_has_refcursor_out p = true <->
   exists x, In x (proc_parameters p) /\
     (param_direction x = lit "OUT" \/ param_direction x = lit "IN OUT") /\
     (exists a b, upper (param_data_type x) = a ++ lit "REF" ++ b) /\
     (exists a b, upper (param_data_type x) = a ++ lit "CURSOR" ++ b)) /\
  (proc_parameters p = [] -> proc_has_refcursor_out p = false) /\
  ((forall x, In x (proc_parameters p) -> param_direction x = lit "IN") ->
   proc_has_refcursor_out p = false).
Proof.
  intros H Hp. rewrite (_parse_procedures_flag _ _ _ H Hp).
  split; [apply has_refcursor_out_true | split].
  - intros ->. reflexivity.
  - intros Hin. destruct (has_refcursor_out (proc_parameters p)) eqn:E; [| reflexivity].
    apply has_refcursor_out_true in E as (x & Hx & [Hd | Hd] & _);
      rewrite (Hin x Hx) in Hd; discriminate.
Qed.

Lemma has_refcursor_out_iff_witness :
  exists procs p,
    _parse_procedures doc_pkg = Ok procs /\ In p procs /\
    proc_name p = lit "GET_DATA" /\
    exists x, In x (proc_parameters p) /\
      (param_direction x = lit "OUT" \/ param_direction x = lit "IN OUT") /\
      (exists a b, upper (param_data_type x) = a ++ lit "REF" ++ b) /\
      (exists a b, upper (param_data_type x) = a ++ lit "CURSOR" ++ b).
Proof.
  pose (x1 := mkProcedureParameter (lit "P_ID") (lit "IN") (lit "NUMBER")).
  pose (x2 := mkProcedureParameter (lit "P_CUR") (lit "OUT") (lit "SYS_REFCURSOR")).
  pose (p := mkProcedure (lit "GET_DATA") (lit "PKG") (lit "HR") [x1; x2] true).
  assert (E : _parse_procedures doc_pkg = Ok [p]) by (vm_compute; reflexivity).
  assert (I : In p [p]) by (left; reflexivity).
  exists [p], p. split; [exact E | split; [exact I | split; [reflexivity |]]].
  apply (has_refcursor_out_iff doc_pkg [p] p E I). reflexivity.
Defined.

(** *** The merge *)

Lemma table_of_match_fresh content ds m t :
  table_of_match content ds m = Ok (Some t) ->
  tbl_comment t = None /\ tbl_primary_key t = None /\ tbl_foreign_keys t = [].
Proof.
  unfold table_of_match. intros H.
  apply bind_Ok in H as (rc & _ & H).
  apply bind_Ok in H as (blk & _ & H).
  apply bind_Ok in H as (cols & _ & H).
  apply bind_Ok in H as (name & _ & H).
  injection H as <-. auto.
Qed.

Lemma _parse_tables_fresh content ts t :
  _parse_tables content = Ok ts -> In t ts ->
  tbl_comment t = None /\ tbl_primary_key t = None /\ tbl_foreign_keys t = [].
Proof.
  unfold _parse_tables. intros H Ht.
  apply bind_Ok in H as (md & _ & H).
  destruct (collect_In _ _ _ _ H Ht) as (m & _ & Hm).
  eapply table_of_match_fresh; eauto.
Qed.

(** The tables of the model are the extracted tables, merged. *)
Lemma parse_tables now content model :
  parse now content = Ok model ->
  exists ts tc cc pks fks,
    _parse_tables content = Ok ts /\
    _parse_table_comments content = Ok tc /\
    _parse_column_comments content = Ok cc /\
    _parse_primary_keys content = Ok pks /\
    _parse_foreign_keys content = Ok fks /\
    tables model = map (merge_table tc cc pks fks) ts.
Proof.
  unfold parse. intros H.
  apply bind_Ok in H as (md & _ & H).
  apply bind_Ok in H as (ts & Hts & H).
  apply bind_Ok in H as (tc & Htc & H).
  apply bind_Ok in H as (cc & Hcc & H).
  apply bind_Ok in H as (vs & _ & H).
  apply bind_Ok in H as (ps & _ & H).
  apply bind_Ok in H as (pks & Hpks & H).
  apply bind_Ok in H as (fks & Hfks & H).
  injection H as <-. exists ts, tc, cc, pks, fks. simpl. auto 10.
Qed.

(** C9.  After the merge, the comment, the primary key and the foreign keys
    of every table are the entries of its name, and of its name only, in the
    results of the three extractors; so two tables of the same name carry
    the same three values, whatever their schemas. *)
Theorem merge_keyed_by_name (now : Z) (content : str) (model : SchemaModel) :
  parse now content = Ok model ->
  exists tc pks fks,
    _parse_table_comments content = Ok tc /\
    _parse_primary_keys content = Ok pks /\
    _parse_foreign_keys content = Ok fks /\
    (forall t, In t (tables model) ->
       tbl_comment t = tc !! tbl_name t /\
       tbl_primary_key t = pks !! tbl_name t /\
       tbl_foreign_keys t = default [] (fks !! tbl_name t)) /\
    (forall t1 t2, In t1 (tables model) -> In t2 (tables model) ->
       tbl_name t1 = tbl_name t2 ->
       tbl_comment t1 = tbl_comment t2 /\
       tbl_primary_key t1 = tbl_primary_key t2 /\
       tbl_foreign_keys t1 = tbl_foreign_keys t2).
Proof.
  intros H.
  destruct (parse_tables _ _ _ H) as (ts & tc & cc & pks & fks & Hts & Htc & _ & Hpks & Hfks & E).
  exists tc, pks, fks.
  assert (Hone : forall t, In t (tables model) ->
            tbl_comment t = tc !! tbl_name t /\
            tbl_primary_key t = pks !! tbl_name t /\
            tbl_foreign_keys t = default [] (fks !! tbl_name t)).
  { intros t Ht. rewrite E in Ht. apply in_map_iff in Ht as (t0 & <- & Ht0).
    destruct (_parse_tables_fresh _ _ _ Hts Ht0) as (_ & Hpk & Hfk).
    unfold merge_table. simpl. rewrite Hpk, Hfk.
    split; [reflexivity |].
    split; [destruct (pks !! tbl_name t0) | destruct (fks !! tbl_name t0)]; reflexivity. }
  split; [exact Htc | split; [exact Hpks | split; [exact Hfks | split; [exact Hone |]]]].
  intros t1 t2 H1 H2 En.
  destruct (Hone t1 H1) as (-> & -> & ->). destruct (Hone t2 H2) as (-> & -> & ->).
  rewrite En. auto.
Qed.

Lemma merge_keyed_by_name_witness :
  exists model t1 t2,
    parse 0 doc_two_schemas = Ok model /\
    In t1 (tables model) /\ In t2 (tables model) /\
    tbl_schema_name t1 = lit "A" /\ tbl_schema_name t2 = lit "B" /\
    tbl_name t1 = tbl_name t2 /\
    tbl_comment t1 = Some (lit "Staff of A") /\
    tbl_comment t1 = tbl_comment t2 /\
    tbl_primary_key t1 = tbl_primary_key t2 /\
    tbl_foreign_keys t1 = tbl_foreign_keys t2.
Proof.
  destruct (parse 0 doc_two_schemas) as [model | e] eqn:E;
    [| vm_compute in E; discriminate].
  assert (F : exists t1 t2,
             match parse 0 doc_two_schemas with
             | Ok m => tables m | Raise _ => [] end = [t1; t2] /\
             tbl_schema_name t1 = lit "A" /\ tbl_schema_name t2 = lit "B" /\
             tbl_name t1 = tbl_name t2 /\
             tbl_comment t1 = Some (lit "Staff of A")).
  { vm_compute. eexists _, _. repeat split. }
  destruct F as (t1 & t2 & F & Ha & Hb & Hn & Hc). rewrite E in F.
  assert (I1 : In t1 (tables model)) by (rewrite F; left; reflexivity).
  assert (I2 : In t2 (tables model)) by (rewrite F; right; left; reflexivity).
  exists model, t1, t2.
  repeat (split; [first [reflexivity | assumption] |]).
  destruct (merge_keyed_by_name 0 doc_two_schemas model E)
    as (tc & pks & fks & _ & _ & _ & _ & Hsame).
  exact (Hsame t1 t2 I1 I2 Hn).
Defined.

(** *** The scenario of the specification *)

(** The time stamp is copied into the model and has no other effect. *)
Lemma parse_now (now : Z) (content : str) :
  parse now content =
  match parse 0 content with
  | Ok m => Ok (mkSchemaModel (database_type m) (database_version m) (schema_name m)
                  now (tables m) (views m) (procedures m))
  | Raise e => Raise e
  end.
Proof.
  unfold parse.
  destruct (_parse_metadata content); simpl; [| reflexivity].
  destruct (_parse_tables content); simpl; [| reflexivity].
  destruct (_parse_table_comments content); simpl; [| reflexivity].
  destruct (_parse_column_comments content); simpl; [| reflexivity].
  destruct (_parse_views content); simpl; [| reflexivity].
  destruct (_parse_procedures content); simpl; [| reflexivity].
  destruct (_parse_primary_keys content); simpl; [| reflexivity].
  destruct (_parse_foreign_keys content); simpl; reflexivity.
Qed.

(** C1.  The document [doc_emp_gap gap] holds one table block for EMP with
    the columns ID NUMBER(10) NOT NULL and NAME VARCHAR2(50), the schema
    marker HR, a table comment, a primary key on ID and no foreign key; the
    comment "-- Row Count: 42" ends [gap] characters before the block, so it
    lies within the 200 characters before the block when [gap <= 183].  The
    extractor then returns [emp_model]: one table EMP of schema HR with row
    count 42, the column ID with precision 10, no scale and not nullable, the
    column NAME with length 50 and nullable, the primary key on [ID] and no
    foreign keys. *)
Theorem emp_scenario (now : Z) (gap : nat) :
  gap <= 183 -> parse now (doc_emp_gap gap) = Ok (emp_model now).
Proof.
  intros Hgap.
  assert (Hall : forallb emp_check (seq 0 184) = true) by (vm_compute; reflexivity).
  rewrite forallb_forall in Hall.
  assert (Hc : emp_check gap = true) by (apply Hall, in_seq; lia).
  unfold emp_check in Hc. apply bool_decide_eq_true in Hc.
  rewrite parse_now, Hc. reflexivity.
Qed.

Lemma emp_scenario_witness : parse 7 doc_emp = Ok (emp_model 7).
Proof. apply (emp_scenario 7 0). lia. Defined.

(** The table pattern asks for the layout of the exporter: the statement of
    the scenario written on one line is not a block for it. *)
Remark emp_on_one_line :
  _parse_tables (lit "-- Row Count: 42
CREATE TABLE EMP (ID NUMBER(10) NOT NULL, NAME VARCHAR2(50));
") = Ok [].
Proof. vm_compute. reflexivity. Qed.

(** Beyond the window the comment is not seen, and the count stays 0. *)
Lemma emp_scenario_beyond_window :
  tbl_row_count <$> (match parse 0 (doc_emp_gap 184) with
                     | Ok m => tables m | Raise _ => [] end) = [0%Z].
Proof. vm_compute. reflexivity. Qed.

End ToadFacts.

(** ** [parse] returns *)

Module TotalFacts.

Import PyStrFacts ExcFacts ReFacts.

Lemma int_of_str_Ok (v : str) :
  v <> [] -> Forall (fun c => is_digit c = true) v ->
  length v <= int_max_str_digits -> exists z, int_of_str v = Ok z.
Proof.
  intros Hne Hd Hlen. unfold int_of_str.
  destruct v as [|c v]; [contradiction |].
  assert (E : forallb is_digit (c :: v) = true).
  { apply forallb_forall. intros x Hx.
    rewrite Forall_forall in Hd. apply Hd. apply list_elem_of_In. exact Hx. }
  rewrite E. apply Nat.leb_le in Hlen. rewrite Hlen. eauto.
Qed.

Lemma digit_runs_piece (s a b c : str) :
  digit_runs_convertible s -> s = a ++ b ++ c -> digit_runs_convertible b.
Proof.
  intros Hs E pre d suf Eb Hd.
  apply (Hs (a ++ pre) d (suf ++ c)); [| exact Hd].
  rewrite E, Eb. rewrite <- !app_assoc. reflexivity.
Qed.

Lemma digit_runs_slice (s : str) (i j : nat) :
  digit_runs_convertible s -> digit_runs_convertible (slice s i j).
Proof.
  intros Hs. destruct (slice_substring s i j) as (pre & suf & E).
  eapply digit_runs_piece; eauto.
Qed.

Lemma digit_runs_group (s : str) m n v :
  digit_runs_convertible s -> group s m n = Some v -> digit_runs_convertible v.
Proof.
  intros Hs Hv. destruct (group_substring _ _ _ _ Hv) as (pre & suf & E).
  eapply digit_runs_piece; eauto.
Qed.

(** A group of digits converts. *)
Lemma digits_group_converts ic r s m n v :
  digit_runs_convertible s -> matched ic r s m ->
  Forall (fun body => body = digits) (group_bodies n r) ->
  group s m n = Some v -> exists z, int_of_str v = Ok z.
Proof.
  intros Hs Hm HB Hv.
  destruct (group_plus_class _ _ _ _ _ _ _ _ Hm HB Hv) as [Hne Hd].
  apply int_of_str_Ok; auto.
  destruct (group_substring _ _ _ _ Hv) as (pre & suf & E).
  exact (Hs _ _ _ E Hd).
Qed.

Lemma int_if_total cond o :
  (forall v, o = Some v -> exists z, int_of_str v = Ok z) ->
  (cond = true -> truthy o = true) ->
  exists r, int_if cond o = Ok r.
Proof.
  intros Hconv Hc. unfold int_if. destruct cond; [| eauto].
  specialize (Hc eq_refl). destruct o as [v |]; [| discriminate].
  destruct (Hconv v eq_refl) as [z Hz]. simpl. rewrite Hz. simpl. eauto.
Qed.

(** Use a group that the pattern always sets. *)
Ltac set_group Hm n v E :=
  let Hs := fresh in
  pose proof (group_set _ _ _ _ n Hm eq_refl) as Hs;
  destruct Hs as [v E]; rewrite E; cbn [req mbind result_bind mret result_ret].

Lemma _parse_metadata_total content : exists md, _parse_metadata content = Ok md.
Proof.
  unfold _parse_metadata.
  destruct (re_search false version_pattern content) as [m1 |] eqn:E1;
    destruct (re_search false schema_pattern content) as [m2 |] eqn:E2;
    try apply re_search_matched in E1; try apply re_search_matched in E2.
  - set_group E1 1 v1 G1. set_group E2 1 v2 G2. eauto.
  - set_group E1 1 v1 G1. eauto.
  - cbn [mbind result_bind mret result_ret]. set_group E2 1 v2 G2. eauto.
  - simpl. eauto.
Qed.

Lemma column_of_match_total block m :
  digit_runs_convertible block -> matched true col_pattern block m ->
  exists oc, column_of_match block m = Ok oc.
Proof.
  intros Hd Hm. unfold column_of_match.
  set_group Hm 1 name G1.
  destruct (str_in (upper name) skipped_names); [eauto |].
  assert (Hdef : exists dv,
    match re_search true default_pattern (or_empty (group block m 5)) with
    | Some dm => v ← req AttributeError (group (or_empty (group block m 5)) dm 1);
                 mret (Some (strip v))
    | None => mret None
    end = Ok dv).
  { destruct (re_search true default_pattern (or_empty (group block m 5))) as [dm |] eqn:E.
    - apply re_search_matched in E. set_group E 1 v G. eauto.
    - eauto. }
  destruct Hdef as [dv ->]. cbn [mbind result_bind].
  set_group Hm 2 dt G2.
  destruct (int_if_total (truthy (group block m 3) && str_in (upper dt) char_types)
              (group block m 3)) as [ml ->].
  { intros v Hv. eapply digits_group_converts; eauto. repeat constructor. }
  { intros H. apply andb_true_iff in H. tauto. }
  cbn [mbind result_bind].
  destruct (int_if_total (truthy (group block m 3) && str_eqb (upper dt) (lit "NUMBER"))
              (group block m 3)) as [pr ->].
  { intros v Hv. eapply digits_group_converts; eauto. repeat constructor. }
  { intros H. apply andb_true_iff in H. tauto. }
  cbn [mbind result_bind].
  destruct (int_if_total (truthy (group block m 4)) (group block m 4)) as [sc ->].
  { intros v Hv. eapply digits_group_converts; eauto. repeat constructor. }
  { auto. }
  cbn [mbind result_bind]. eauto.
Qed.

Lemma _parse_columns_total block :
  digit_runs_convertible block -> exists cols, _parse_columns block = Ok cols.
Proof.
  intros Hd. unfold _parse_columns. apply collect_total.
  intros m Hm. apply re_finditer_matched in Hm. apply column_of_match_total; auto.
Qed.

Lemma table_of_match_total content ds m :
  digit_runs_convertible content -> matched true table_pattern content m ->
  exists ot, table_of_match content ds m = Ok ot.
Proof.
  intros Hd Hm. unfold table_of_match.
  set (preceding_text := slice content (m_start m - 200) (m_start m)).
  assert (Hrow : exists rc,
    match re_search false row_count_pattern preceding_text with
    | Some rm => d ← req TypeError (group preceding_text rm 1); int_of_str d
    | None => mret 0%Z
    end = Ok rc).
  { destruct (re_search false row_count_pattern preceding_text) as [rm |] eqn:E; [| eauto].
    apply re_search_matched in E. set_group E 1 d G.
    eapply digits_group_converts; [| exact E | | exact G].
    - apply digit_runs_slice. exact Hd.
    - repeat constructor. }
  destruct Hrow as [rc ->]. cbn [mbind result_bind].
  set_group Hm 3 blk G3.
  destruct (_parse_columns_total blk) as [cols ->].
  { eapply digit_runs_group; eauto. }
  cbn [mbind result_bind].
  set_group Hm 2 name G2. eauto.
Qed.

Lemma _parse_tables_total content :
  digit_runs_convertible content -> exists ts, _parse_tables content = Ok ts.
Proof.
  intros Hd. unfold _parse_tables.
  destruct (_parse_metadata_total content) as [md ->]. cbn [mbind result_bind].
  apply collect_total. intros m Hm. apply re_finditer_matched in Hm.
  apply table_of_match_total; auto.
Qed.

Lemma _parse_table_comments_total content :
  exists tc, _parse_table_comments content = Ok tc.
Proof.
  unfold _parse_table_comments. apply for_each_total.
  intros acc m Hm. apply re_finditer_matched in Hm. unfold table_comment_step.
  set_group Hm 2 c G2. set_group Hm 1 t G1. eauto.
Qed.

Lemma _parse_column_comments_total content :
  exists cc, _parse_column_comments content = Ok cc.
Proof.
  unfold _parse_column_comments. apply for_each_total.
  intros acc m Hm. apply re_finditer_matched in Hm. unfold column_comment_step.
  set_group Hm 1 t G1. set_group Hm 3 c G3. set_group Hm 2 col G2. eauto.
Qed.

Lemma _parse_views_total content : exists vs, _parse_views content = Ok vs.
Proof.
  unfold _parse_views.
  destruct (_parse_metadata_total content) as [md ->]. cbn [mbind result_bind].
  apply collect_total. intros m Hm. apply re_finditer_matched in Hm.
  unfold view_of_match.
  set_group Hm 3 cs G3. set_group Hm 4 sel G4. set_group Hm 2 name G2. eauto.
Qed.

Lemma parameter_of_total param : exists op, parameter_of param = Ok op.
Proof.
  unfold parameter_of. destruct (negb (truthy (Some (strip param)))); [eauto |].
  destruct (re_match true param_dir_pattern (strip param)) as [m |] eqn:E.
  - apply re_match_matched in E.
    set_group E 2 d G2. set_group E 3 t G3. set_group E 1 n G1. eauto.
  - destruct (re_match true param_plain_pattern (strip param)) as [m |] eqn:F; [| eauto].
    apply re_match_matched in F.
    set_group F 2 t G2. set_group F 1 n G1. eauto.
Qed.

Lemma _parse_procedure_parameters_total params_str :
  exists ps, _parse_procedure_parameters params_str = Ok ps.
Proof.
  unfold _parse_procedure_parameters. apply collect_total.
  intros a _. apply parameter_of_total.
Qed.

Lemma procedures_of_package_total content ds m :
  matched true pkg_pattern content m ->
  exists ps, procedures_of_package content ds m = Ok ps.
Proof.
  intros Hm. unfold procedures_of_package.
  set_group Hm 3 body G3.
  apply collect_total. intros pm Hpm.
  apply re_finditer_matched in Hpm. unfold procedure_of_match.
  set_group Hpm 2 params G.
  destruct (_parse_procedure_parameters_total params) as [ps ->].
  cbn [mbind result_bind]. set_group Hpm 1 pn G1. set_group Hm 2 name G2. eauto.
Qed.

Lemma _parse_procedures_total content : exists ps, _parse_procedures content = Ok ps.
Proof.
  unfold _parse_procedures.
  destruct (_parse_metadata_total content) as [md ->]. cbn [mbind result_bind].
  apply for_each_total. intros acc m Hm. apply re_finditer_matched in Hm.
  destruct (procedures_of_package_total content (default_schema_of md) m Hm) as [ps ->].
  cbn [mbind result_bind mret result_ret]. eauto.
Qed.

Lemma _parse_primary_keys_total content : exists pks, _parse_primary_keys content = Ok pks.
Proof.
  unfold _parse_primary_keys. apply for_each_total.
  intros acc m Hm. apply re_finditer_matched in Hm. unfold primary_key_step.
  set_group Hm 3 cs G3. set_group Hm 2 cn G2. set_group Hm 1 t G1. eauto.
Qed.

Lemma _parse_foreign_keys_total content : exists fks, _parse_foreign_keys content = Ok fks.
Proof.
  unfold _parse_foreign_keys. apply for_each_total.
  intros acc m Hm. apply re_finditer_matched in Hm. unfold foreign_key_step.
  set_group Hm 3 a G3. set_group Hm 5 b G5. set_group Hm 1 t G1.
  set_group Hm 2 cn G2. set_group Hm 4 rt G4. eauto.
Qed.

Lemma digit_runs_short (s : str) :
  length s <= int_max_str_digits -> digit_runs_convertible s.
Proof.
  intros Hlen pre d suf E _. rewrite E, !length_app in Hlen. lia.
Qed.

(** C8, as stated, fails: [int()] refuses a size of more than 4300 digits,
    and [parse] raises the [ValueError] instead of returning a model. *)
Lemma parse_raises_on_long_size : parse 0 doc_long_size = Raise ValueError.
Proof. vm_compute. reflexivity. Qed.

(** C8, amended.  On every document whose runs of decimal digits are all at
    most 4300 characters long, [parse] returns a model: no group is used
    that the match left unset, and every text given to [int()] is a
    non-empty run of digits within the conversion limit.  Fragments that no
    pattern recognizes raise nothing. *)
Theorem parse_total (now : Z) (content : str) :
  digit_runs_convertible content -> exists model, parse now content = Ok model.
Proof.
  intros Hd. unfold parse.
  destruct (_parse_metadata_total content) as [md ->]. cbn [mbind result_bind].
  destruct (_parse_tables_total content Hd) as [ts ->]. cbn [mbind result_bind].
  destruct (_parse_table_comments_total content) as [tc ->]. cbn [mbind result_bind].
  destruct (_parse_column_comments_total content) as [cc ->]. cbn [mbind result_bind].
  destruct (_parse_views_total content) as [vs ->]. cbn [mbind result_bind].
  destruct (_parse_procedures_total content) as [ps ->]. cbn [mbind result_bind].
  destruct (_parse_primary_keys_total content) as [pks ->]. cbn [mbind result_bind].
  destruct (_parse_foreign_keys_total content) as [fks ->]. cbn [mbind result_bind].
  eauto.
Qed.

(** A document with fragments that no pattern recognizes. *)
Lemma parse_total_witness :
  length doc_malformed <= int_max_str_digits /\
  exists model, parse 0 doc_malformed = Ok model.
Proof.
  assert (L : length doc_malformed <= int_max_str_digits)
    by (apply Nat.leb_le; vm_compute; reflexivity).
  split; [exact L |].
  apply (parse_total 0 doc_malformed). apply digit_runs_short. exact L.
Defined.

(** What is returned for it: the two lines that read as columns (the
    unfinished size of [A] falls into its trailing text), and the comment. *)
Lemma parse_malformed :
  match parse 0 doc_malformed with
  | Ok m => Some (map (fun t => (tbl_name t, map col_name (tbl_columns t), tbl_comment t))
                      (tables m))
  | Raise _ => None
  end = Some [(lit "T", [lit "A"; lit "B"], Some (lit "kept"))].
Proof. vm_compute. reflexivity. Qed.

End TotalFacts.

(** ** Literal texts and alternatives in a match *)

Module LitFacts.

Import PyStrFacts ReFacts FuelFacts.

Lemma upper_lower_char (x : ascii) : upper_char (lower_char x) = upper_char x.
Proof. destruct x as [[] [] [] [] [] [] [] []]; reflexivity. Qed.

Lemma upper_upper_char (x : ascii) : upper_char (upper_char x) = upper_char x.
Proof. destruct x as [[] [] [] [] [] [] [] []]; reflexivity. Qed.

Lemma upper_idempotent (s : str) : upper (upper s) = upper s.
Proof.
  unfold upper. rewrite map_map. apply map_ext. intros; apply upper_upper_char.
Qed.

(** Two characters that match, with or without IGNORECASE, have the same
    upper case: the matcher folds the case of the ASCII letters only. *)
Lemma chr_eq_upper ic a x : chr_eq ic a x = true -> upper_char a = upper_char x.
Proof.
  unfold chr_eq. destruct ic; intros E; apply ascii_eqb_true in E.
  - rewrite <- (upper_lower_char a), <- (upper_lower_char x), E. reflexivity.
  - rewrite E. reflexivity.
Qed.

Lemma take_drop_S (s : str) i x n :
  s !! i = Some x -> take (S n) (drop i s) = x :: take n (drop (S i) s).
Proof. intros H. rewrite (drop_S _ _ _ H). reflexivity. Qed.

Section Lits.
Variable s : str.
Variable ic : bool.

Lemma dmatch_Eps_inv i g j g' : dmatch ic s Eps i g j g' -> g' = g /\ j = i.
Proof. inversion 1; auto. Qed.

Lemma dmatch_Lit_inv a i g j g' :
  dmatch ic s (Lit a) i g j g' ->
  g' = g /\ j = S i /\ exists x, s !! i = Some x /\ chr_eq ic a x = true.
Proof. inversion 1; subst; eauto. Qed.

Lemma dmatch_Cls_inv cc i g j g' :
  dmatch ic s (Cls cc) i g j g' ->
  g' = g /\ j = S i /\ exists x, s !! i = Some x /\ in_class cc x = true.
Proof. inversion 1; subst; eauto. Qed.

Lemma dmatch_Seq_inv r1 r2 i g j g' :
  dmatch ic s (Seq r1 r2) i g j g' ->
  exists k g1, dmatch ic s r1 i g k g1 /\ dmatch ic s r2 k g1 j g'.
Proof. inversion 1; subst; eauto. Qed.

Lemma dmatch_Alt_inv r1 r2 i g j g' :
  dmatch ic s (Alt r1 r2) i g j g' ->
  dmatch ic s r1 i g j g' \/ dmatch ic s r2 i g j g'.
Proof. inversion 1; subst; auto. Qed.

Lemma dmatch_Group_inv n r i g j g' :
  dmatch ic s (Group n r) i g j g' ->
  exists g1, dmatch ic s r i g j g1 /\ g' = <[n := (i, j)]> g1.
Proof. inversion 1; subst; eauto. Qed.

Lemma slice_cons i j x :
  s !! i = Some x -> i < j -> slice s i j = x :: slice s (S i) j.
Proof.
  intros H Hlt. unfold slice. replace (j - i) with (S (j - S i)) by lia.
  apply take_drop_S. exact H.
Qed.

Lemma slice_nil i : slice s i i = [].
Proof. unfold slice. rewrite Nat.sub_diag. reflexivity. Qed.

(** A literal text covers a piece of the subject of its length, equal to it
    up to case, and exactly equal without IGNORECASE; it sets no group. *)
Lemma dmatch_Lits l : forall i g j g',
  dmatch ic s (Lits l) i g j g' ->
  g' = g /\ j = i + length l /\
  upper (slice s i j) = upper l /\
  (ic = false -> slice s i j = l).
Proof.
  induction l as [|a l IH]; intros i g j g' D.
  - apply dmatch_Eps_inv in D as [-> ->]. rewrite slice_nil.
    split; [reflexivity | split; [simpl; lia | split; [reflexivity | reflexivity]]].
  - assert (D' : exists k, dmatch ic s (Lit a) i g k g /\ dmatch ic s (Lits l) k g j g').
    { destruct l as [|b l].
      - simpl in D. pose proof (dmatch_Lit_inv _ _ _ _ _ D) as (-> & -> & _).
        exists (S i). split; [exact D | constructor].
      - change (Lits (a :: b :: l)) with (Seq (Lit a) (Lits (b :: l))) in D.
        apply dmatch_Seq_inv in D as (k & g1 & D1 & D2).
        pose proof (dmatch_Lit_inv _ _ _ _ _ D1) as (-> & _). eauto. }
    destruct D' as (k & D1 & D2).
    apply dmatch_Lit_inv in D1 as (_ & -> & x & Hx & Hc).
    apply IH in D2 as (-> & -> & Hu & He).
    rewrite (slice_cons _ _ _ Hx) by lia.
    split; [reflexivity | split; [simpl; lia | split]].
    + change (upper (x :: slice s (S i) (S i + length l)))
        with (upper_char x :: upper (slice s (S i) (S i + length l))).
      rewrite Hu. simpl. f_equal. symmetry. eapply chr_eq_upper; eauto.
    + intros ->. rewrite (He eq_refl).
      simpl in Hc. apply ascii_eqb_true in Hc. subst. reflexivity.
Qed.

Lemma dmatch_Alts l : forall i g j g',
  dmatch ic s (Alts l) i g j g' ->
  l = [] \/ exists r, In r l /\ dmatch ic s r i g j g'.
Proof.
  induction l as [|r l IH]; intros i g j g' D; [auto |]. right.
  destruct l as [|r' l].
  - exists r. simpl. auto.
  - change (Alts (r :: r' :: l)) with (Alt r (Alts (r' :: l))) in D.
    apply dmatch_Alt_inv in D as [D | D].
    + exists r. simpl. auto.
    + apply IH in D as [? | (r0 & Hr0 & D0)]; [discriminate |].
      exists r0. split; [right; exact Hr0 | exact D0].
Qed.

(** The head of a sequence. *)
Lemma dmatch_Seqs_cons r l i g j g' :
  dmatch ic s (Seqs (r :: l)) i g j g' ->
  exists k g1, dmatch ic s r i g k g1 /\ dmatch ic s (Seqs l) k g1 j g'.
Proof.
  intros D. destruct l as [|r' l].
  - simpl in D. exists j, g'. split; [exact D | constructor].
  - change (Seqs (r :: r' :: l)) with (Seq r (Seqs (r' :: l))) in D.
    apply dmatch_Seq_inv in D. exact D.
Qed.

End Lits.

(** A group that encloses only a choice of keywords holds, when set, one of
    them up to case. *)
Lemma group_keyword ic r s m n (kws : list string) v :
  matched ic r s m -> kws <> [] ->
  group_bodies n r = [Alts (map kw kws)] ->
  group s m n = Some v ->
  exists k, In k kws /\ upper v = upper (lit k).
Proof.
  unfold matched, group. intros D Hne HB Hv.
  destruct (m_caps m !! n) as [[i j] |] eqn:E; [| discriminate].
  simpl in Hv. injection Hv as <-.
  eapply (dmatch_group_inv s ic
            (fun i j => exists k, In k kws /\ upper (slice s i j) = upper (lit k)) n);
    eauto.
  - rewrite HB. constructor; [| constructor].
    intros i' g j' g' D'. apply dmatch_Alts in D' as [Hnil | (r0 & Hr0 & D0)].
    + destruct kws; [contradiction | discriminate].
    + apply in_map_iff in Hr0 as (k & <- & Hk).
      apply dmatch_Lits in D0 as (_ & _ & Hu & _). eauto.
  - intros a c Hac. rewrite lookup_empty in Hac. discriminate.
Qed.

End LitFacts.

(** ** Stripping *)

Module StripFacts.

Import PyStrFacts.

Lemma lstrip_head s c : head (lstrip s) = Some c -> is_space c = false.
Proof.
  induction s as [|x s IH]; simpl; [discriminate |].
  destruct (is_space x) eqn:E; [exact IH |]. simpl. intros [= <-]. exact E.
Qed.

Lemma lstrip_suffix s : exists pre, s = pre ++ lstrip s /\ Forall (fun c => is_space c = true) pre.
Proof.
  induction s as [|x s (pre & E & H)]; simpl; [exists []; split; [reflexivity | constructor] |].
  destruct (is_space x) eqn:Ex.
  - exists (x :: pre). split; [simpl; f_equal; exact E | constructor; assumption].
  - exists []. split; [reflexivity | constructor].
Qed.

Lemma rstrip_prefix s : exists suf, s = rstrip s ++ suf /\ Forall (fun c => is_space c = true) suf.
Proof.
  unfold rstrip. destruct (lstrip_suffix (rev s)) as (pre & E & H).
  exists (rev pre). split.
  - rewrite <- rev_app_distr, <- E, rev_involutive. reflexivity.
  - apply Forall_rev. exact H.
Qed.

Lemma last_rev {A} (l : list A) : last (rev l) = head l.
Proof. destruct l as [|x l]; [reflexivity |]. simpl. apply last_snoc. Qed.

Lemma rstrip_last s c : last (rstrip s) = Some c -> is_space c = false.
Proof.
  unfold rstrip. rewrite last_rev. apply lstrip_head.
Qed.

Lemma last_app_r {A} (l1 l2 : list A) x : last l2 = Some x -> last (l1 ++ l2) = Some x.
Proof. intros H. rewrite last_app, H. reflexivity. Qed.

(** [strip] leaves no white space at the ends ... *)
Lemma strip_trimmed s : trimmed (strip s).
Proof.
  unfold strip. split.
  - apply lstrip_head.
  - intros c Hc. apply (rstrip_last s).
    destruct (lstrip_suffix (rstrip s)) as (pre & E & _).
    rewrite E. apply last_app_r. exact Hc.
Qed.

(** ... and returns a piece of its argument. *)
Lemma strip_piece s : exists pre suf, s = pre ++ strip s ++ suf.
Proof.
  destruct (rstrip_prefix s) as (suf & E1 & _).
  destruct (lstrip_suffix (rstrip s)) as (pre & E2 & _).
  exists pre, suf. unfold strip. rewrite app_assoc, <- E2. exact E1.
Qed.

Lemma strip_Forall (P : ascii -> Prop) s : Forall P s -> Forall P (strip s).
Proof.
  intros H. destruct (strip_piece s) as (pre & suf & E). rewrite E in H.
  apply Forall_app in H as [_ H]. apply Forall_app in H as [H _]. exact H.
Qed.

Lemma lstrip_id s : (forall c, head s = Some c -> is_space c = false) -> lstrip s = s.
Proof.
  destruct s as [|x s]; [reflexivity |]. simpl. intros H.
  rewrite (H x eq_refl). reflexivity.
Qed.

(** Text that is trimmed already is left as it is. *)
Lemma strip_id s : trimmed s -> strip s = s.
Proof.
  intros [Hh Hl]. unfold strip.
  assert (E : rstrip s = s).
  { unfold rstrip. rewrite lstrip_id; [apply rev_involutive |].
    intros c Hc. apply Hl. rewrite <- (rev_involutive s), last_rev. exact Hc. }
  rewrite E. apply lstrip_id. exact Hh.
Qed.

Lemma is_word_not_space c : is_word c = true -> is_space c = false.
Proof. destruct c as [[] [] [] [] [] [] [] []]; vm_compute; congruence. Qed.

Lemma word_trimmed s : Forall (fun c => is_word c = true) s -> trimmed s.
Proof.
  intros H. rewrite Forall_forall in H. split; intros c Hc; apply is_word_not_space, H.
  - destruct s; [discriminate |]. injection Hc as <-. left.
  - apply last_Some in Hc as [l' ->]. apply elem_of_app. right. left.
Qed.

End StripFacts.

(** ** Columns: types, names and sizes *)

Module ColumnFacts.

Import PyStrFacts ExcFacts ReFacts LitFacts StripFacts ToadFacts.

Lemma digit_val_nonneg c : (0 <= digit_val c)%Z.
Proof. unfold digit_val. lia. Qed.

Lemma digits_val_nonneg s : (0 <= digits_val s)%Z.
Proof.
  unfold digits_val.
  assert (H : forall acc, (0 <= acc)%Z ->
            (0 <= fold_left (fun a c => (10 * a + digit_val c)%Z) s acc)%Z).
  { induction s as [|c s IH]; intros acc Hacc; simpl; [exact Hacc |].
    apply IH. pose proof (digit_val_nonneg c). lia. }
  apply H. lia.
Qed.

(** [int()] returns the value of the digits, which is not negative. *)
Lemma int_of_str_value v n : int_of_str v = Ok n -> n = digits_val v /\ (0 <= n)%Z.
Proof.
  unfold int_of_str. destruct v as [|c v]; [discriminate |].
  destruct (forallb is_digit (c :: v)); [| discriminate].
  destruct (length (c :: v) <=? int_max_str_digits); [| discriminate].
  intros [= <-]. split; [reflexivity | apply digits_val_nonneg].
Qed.

Lemma int_if_value cond x n :
  int_if cond x = Ok (Some n) ->
  cond = true /\ exists v, x = Some v /\ n = digits_val v /\ (0 <= n)%Z.
Proof.
  unfold int_if. destruct cond; [| discriminate]. intros H.
  apply bind_Ok in H as (v & Hv & H). apply req_Ok in Hv.
  apply bind_Ok in H as (k & Hk & H). injection H as <-.
  apply int_of_str_value in Hk. eauto.
Qed.

(** The sizes and the default of an accepted column, read off the match. *)
Lemma column_of_match_sizes block m col :
  column_of_match block m = Ok (Some col) ->
  str_in (upper (col_name col)) skipped_names = false /\
  (forall n, col_max_length col = Some n ->
     str_in (col_data_type col) char_types = true /\
     exists v, group block m 3 = Some v /\ n = digits_val v /\ (0 <= n)%Z) /\
  (forall n, col_precision col = Some n ->
     col_data_type col = lit "NUMBER" /\
     exists v, group block m 3 = Some v /\ n = digits_val v /\ (0 <= n)%Z) /\
  (forall n, col_scale col = Some n ->
     exists v, group block m 4 = Some v /\ n = digits_val v /\ (0 <= n)%Z) /\
  col_default_value col =
    match re_search true default_pattern (or_empty (group block m 5)) with
    | Some dm => strip <$> group (or_empty (group block m 5)) dm 1
    | None => None
    end.
Proof.
  unfold column_of_match. intros H.
  apply bind_Ok in H as (name & Hname & H).
  destruct (str_in (upper name) skipped_names) eqn:Hskip; [discriminate |].
  apply bind_Ok in H as (dv & Hdv & H).
  apply bind_Ok in H as (dt & Hdt & H).
  apply bind_Ok in H as (ml & Hml & H).
  apply bind_Ok in H as (pr & Hpr & H).
  apply bind_Ok in H as (sc & Hsc & H).
  injection H as <-. simpl. split; [exact Hskip |].
  split; [| split; [| split]].
  - intros n ->. apply int_if_value in Hml as (Hc & Hv).
    apply andb_true_iff in Hc as [_ Hc]. auto.
  - intros n ->. apply int_if_value in Hpr as (Hc & Hv).
    apply andb_true_iff in Hc as [_ Hc]. apply str_eqb_true in Hc. auto.
  - intros n ->. apply int_if_value in Hsc as (_ & Hv). exact Hv.
  - destruct (re_search true default_pattern (or_empty (group block m 5))) as [dm |].
    + apply bind_Ok in Hdv as (v & Hv & Hdv). apply req_Ok in Hv.
      injection Hdv as <-. rewrite Hv. reflexivity.
    + injection Hdv as <-. reflexivity.
Qed.

Lemma _parse_columns_origin block cols col :
  _parse_columns block = Ok cols -> In col cols ->
  exists m, matched true col_pattern block m /\ column_of_match block m = Ok (Some col).
Proof.
  unfold _parse_columns. intros H Hc.
  destruct (collect_In _ _ _ _ H Hc) as (m & Hm & Hcol).
  exists m. split; [apply re_finditer_matched; exact Hm | exact Hcol].
Qed.

Lemma type_keywords_upper : Forall (fun k => upper (lit k) = lit k) type_keywords.
Proof. repeat constructor. Qed.

(** The columns of [block_orders]. *)
Lemma block_orders_columns :
  exists c1 c2 c3,
    _parse_columns block_orders = Ok [c1; c2; c3] /\
    col_name c2 = lit "NOTE" /\ col_data_type c2 = lit "VARCHAR2" /\
    col_max_length c2 = Some 40%Z /\ col_default_value c2 = Some (lit "'n/a'") /\
    col_precision c3 = Some 12%Z /\ col_scale c3 = Some 2%Z.
Proof. vm_compute. eexists _, _, _. repeat split. Defined.

(** X8.  In a block of ASCII text, the data type of every column is one of
    the eleven type keywords, in upper case, however the declaration spells
    it.  (Outside ASCII, IGNORECASE lets the I of TIMESTAMP and INTEGER match
    U+0130, which [str.upper] keeps.) *)
Theorem column_data_type_is_keyword (columns_block : str) (cols : list Column) (col : Column) :
  ascii_text columns_block ->
  _parse_columns columns_block = Ok cols -> In col cols ->
  In (col_data_type col) (map lit type_keywords).
Proof.
  intros _ H Hc. destruct (_parse_columns_origin _ _ _ H Hc) as (m & Hm & Hcol).
  apply column_of_match_fields in Hcol as (dt & _ & Hdt & -> & _).
  destruct (group_keyword true col_pattern columns_block m 2 type_keywords dt Hm)
    as (k & Hk & Hu); [discriminate | reflexivity | exact Hdt |].
  rewrite Hu. pose proof type_keywords_upper as HU.
  rewrite Forall_forall in HU. rewrite (HU k) by (apply list_elem_of_In; exact Hk).
  apply in_map. exact Hk.
Qed.

Lemma column_data_type_is_keyword_witness :
  exists cols col,
    ascii_text block_orders /\
    _parse_columns block_orders = Ok cols /\ In col cols /\
    col_data_type col = lit "VARCHAR2" /\
    In (col_data_type col) (map lit type_keywords).
Proof.
  destruct block_orders_columns as (c1 & c2 & c3 & E & _ & Ht & _).
  assert (A : ascii_text block_orders) by (vm_compute; reflexivity).
  assert (I : In c2 [c1; c2; c3]) by (right; left; reflexivity).
  exists [c1; c2; c3], c2.
  split; [exact A |]. split; [exact E |]. split; [exact I |]. split; [exact Ht |].
  exact (column_data_type_is_keyword block_orders [c1; c2; c3] c2 A E I).
Defined.

(** X9.  The name of every column is a non-empty word, and is none of the six
    words that introduce a constraint, whatever their case. *)
Theorem column_name_is_word (columns_block : str) (cols : list Column) (col : Column) :
  _parse_columns columns_block = Ok cols -> In col cols ->
  col_name col <> [] /\
  Forall (fun c => is_word c = true) (col_name col) /\
  ~ In (upper (col_name col)) skipped_names.
Proof.
  intros H Hc. destruct (_parse_columns_origin _ _ _ H Hc) as (m & Hm & Hcol).
  pose proof (column_of_match_sizes _ _ _ Hcol) as (Hskip & _).
  apply column_of_match_fields in Hcol as (dt & Hn & _).
  assert (HB : Forall (fun body => body = Plus true (Cls CWord)) (group_bodies 1 col_pattern))
    by (repeat constructor).
  destruct (group_plus_class true col_pattern columns_block m 1 true CWord _ Hm HB Hn)
    as [Hne Hw].
  split; [exact Hne | split; [exact Hw |]].
  intros Hin. apply str_in_true in Hin. congruence.
Qed.

Lemma column_name_is_word_witness :
  exists cols col,
    _parse_columns block_orders = Ok cols /\ In col cols /\
    length cols = 3 /\
    col_name col <> [] /\
    Forall (fun c => is_word c = true) (col_name col) /\
    ~ In (upper (col_name col)) skipped_names.
Proof.
  destruct block_orders_columns as (c1 & c2 & c3 & E & _).
  assert (I : In c2 [c1; c2; c3]) by (right; left; reflexivity).
  exists [c1; c2; c3], c2.
  split; [exact E |]. split; [exact I |]. split; [reflexivity |].
  exact (column_name_is_word block_orders [c1; c2; c3] c2 E I).
Defined.

(** X10.  A length is set only on VARCHAR2, CHAR and RAW columns and a precision
    only on NUMBER columns, so never both; each is the value of the first
    size argument, the scale that of the second, and none is negative. *)
Theorem column_sizes_by_type (columns_block : str) (cols : list Column) (col : Column) :
  _parse_columns columns_block = Ok cols -> In col cols ->
  exists m, In m (re_finditer true col_pattern columns_block) /\
    group columns_block m 1 = Some (col_name col) /\
    (forall n, col_max_length col = Some n ->
       In (col_data_type col) char_types /\ (0 <= n)%Z /\
       exists v, group columns_block m 3 = Some v /\ n = digits_val v) /\
    (forall n, col_precision col = Some n ->
       col_data_type col = lit "NUMBER" /\ (0 <= n)%Z /\
       exists v, group columns_block m 3 = Some v /\ n = digits_val v) /\
    (forall n, col_scale col = Some n ->
       (0 <= n)%Z /\ exists v, group columns_block m 4 = Some v /\ n = digits_val v) /\
    (col_max_length col = None \/ col_precision col = None).
Proof.
  intros H Hc. unfold _parse_columns in H.
  destruct (collect_In _ _ _ _ H Hc) as (m & Hm & Hcol).
  exists m. split; [exact Hm |].
  pose proof (column_of_match_sizes _ _ _ Hcol) as (_ & Hml & Hpr & Hsc & _).
  pose proof (column_length_xor_precision _ _ _ Hcol) as Hx.
  apply column_of_match_fields in Hcol as (dt & Hn & _).
  split; [exact Hn |]. split; [| split; [| split; [| exact Hx]]].
  - intros n E. destruct (Hml n E) as (Ht & v & Hv & -> & Hpos).
    apply str_in_true in Ht. eauto.
  - intros n E. destruct (Hpr n E) as (Ht & v & Hv & -> & Hpos). eauto.
  - intros n E. destruct (Hsc n E) as (v & Hv & -> & Hpos). eauto.
Qed.

Lemma column_sizes_by_type_witness :
  exists cols col,
    _parse_columns block_orders = Ok cols /\ In col cols /\
    col_precision col = Some 12%Z /\ col_scale col = Some 2%Z /\
    col_data_type col = lit "NUMBER" /\ col_max_length col = None.
Proof.
  destruct block_orders_columns as (c1 & c2 & c3 & E & _ & _ & _ & _ & Hp & Hs).
  assert (I : In c3 [c1; c2; c3]) by (right; right; left; reflexivity).
  exists [c1; c2; c3], c3.
  split; [exact E |]. split; [exact I |]. split; [exact Hp |]. split; [exact Hs |].
  destruct (column_sizes_by_type block_orders [c1; c2; c3] c3 E I)
    as (m & _ & _ & _ & Hprec & _ & Hx).
  destruct (Hprec _ Hp) as (Ht & _). split; [exact Ht |].
  destruct Hx as [Hx | Hx]; [exact Hx | congruence].
Defined.

End ColumnFacts.

(** ** The header *)

Module MetadataFacts.

Import PyStrFacts ExcFacts ReFacts LitFacts StripFacts ToadFacts TotalFacts ColumnFacts.

Lemma upper_app (a b : str) : upper (a ++ b) = upper a ++ upper b.
Proof. apply map_app. Qed.

(** A match of a pattern that starts with a literal text finds that text,
    up to case, in the subject. *)
Lemma matched_starts_with_literal ic (l : list ascii) (rs : list regex) s m :
  matched ic (Seqs (Lits l :: rs)) s m ->
  (exists a b, upper s = a ++ upper l ++ b) /\
  (ic = false -> exists a b, s = a ++ l ++ b).
Proof.
  unfold matched. intros D.
  apply dmatch_Seqs_cons in D as (k & g1 & D & _).
  apply dmatch_Lits in D as (_ & _ & Hu & He).
  destruct (slice_substring s (m_start m) k) as (pre & suf & E). split.
  - exists (upper pre), (upper suf). rewrite <- Hu, <- !upper_app, <- E. reflexivity.
  - intros Hic. exists pre, suf. rewrite <- (He Hic). exact E.
Qed.

Lemma dot_class_no_newline (v : str) :
  Forall (fun x => in_class CDot x = true) v -> ~ In nl v.
Proof.
  intros H Hin. rewrite Forall_forall in H.
  specialize (H nl (proj2 (list_elem_of_In _ _) Hin)). vm_compute in H. discriminate.
Qed.

(** What [_parse_metadata] returns. *)
Lemma _parse_metadata_fields content md :
  _parse_metadata content = Ok md ->
  md_database_version md =
    match re_search false version_pattern content with
    | Some m => strip <$> group content m 1
    | None => None
    end /\
  md_schema_name md =
    match re_search false schema_pattern content with
    | Some m => strip <$> group content m 1
    | None => None
    end.
Proof.
  unfold _parse_metadata. intros H.
  apply bind_Ok in H as (ver & Hver & H).
  apply bind_Ok in H as (sch & Hsch & H). injection H as <-. simpl. split.
  - destruct (re_search false version_pattern content) as [m |].
    + apply bind_Ok in Hver as (v & Hv & Hver). apply req_Ok in Hv.
      injection Hver as <-. rewrite Hv. reflexivity.
    + injection Hver as <-. reflexivity.
  - destruct (re_search false schema_pattern content) as [m |].
    + apply bind_Ok in Hsch as (v & Hv & Hsch). apply req_Ok in Hv.
      injection Hsch as <-. rewrite Hv. reflexivity.
    + injection Hsch as <-. reflexivity.
Qed.

(** The schema name of the header is the word after the marker. *)
Lemma md_schema_name_word content md v :
  _parse_metadata content = Ok md -> md_schema_name md = Some v ->
  v <> [] /\ Forall (fun c => is_word c = true) v /\
  exists m, re_search false schema_pattern content = Some m /\ group content m 1 = Some v.
Proof.
  intros H Hv. apply _parse_metadata_fields in H as [_ Hs]. rewrite Hs in Hv.
  destruct (re_search false schema_pattern content) as [m |] eqn:E; [| discriminate].
  destruct (group content m 1) as [w |] eqn:G; [| discriminate].
  injection Hv as <-. apply re_search_matched in E.
  assert (HB : Forall (fun body => body = Plus true (Cls CWord)) (group_bodies 1 schema_pattern))
    by (repeat constructor).
  destruct (group_plus_class _ _ _ _ _ _ _ _ E HB G) as [Hne Hw].
  rewrite (strip_id w (word_trimmed w Hw)). eauto.
Qed.

Lemma parse_metadata now content model :
  parse now content = Ok model ->
  exists md, _parse_metadata content = Ok md /\
    schema_name model = default_schema_of md /\
    database_version model = md_database_version md.
Proof.
  unfold parse. intros H.
  apply bind_Ok in H as (md & Hmd & H).
  apply bind_Ok in H as (ts & _ & H).
  apply bind_Ok in H as (tc & _ & H).
  apply bind_Ok in H as (cc & _ & H).
  apply bind_Ok in H as (vs & _ & H).
  apply bind_Ok in H as (ps & _ & H).
  apply bind_Ok in H as (pks & _ & H).
  apply bind_Ok in H as (fks & _ & H).
  injection H as <-. exists md. auto.
Qed.

(** X3.  The schema name of the model is never empty: it is the word that follows
    the first "-- Schema :" marker of the document, and UNKNOWN when the
    document has no such marker. *)
Theorem schema_name_is_word (now : Z) (content : str) (model : SchemaModel) :
  parse now content = Ok model ->
  schema_name model <> [] /\
  Forall (fun c => is_word c = true) (schema_name model) /\
  (re_search false schema_pattern content = None -> schema_name model = UNKNOWN) /\
  (forall m, re_search false schema_pattern content = Some m ->
             group content m 1 = Some (schema_name model)).
Proof.
  intros H. destruct (parse_metadata _ _ _ H) as (md & Hmd & -> & _).
  unfold default_schema_of.
  destruct (md_schema_name md) as [v |] eqn:E.
  - destruct (md_schema_name_word _ _ _ Hmd E) as (Hne & Hw & m & Hm & Hg). simpl.
    split; [exact Hne | split; [exact Hw | split]].
    + intros Hn. congruence.
    + intros m' Hm'. congruence.
  - simpl. split; [discriminate | split; [repeat constructor | split; [reflexivity |]]].
    intros m Hm. apply _parse_metadata_fields in Hmd as [_ Hs].
    rewrite Hm in Hs. rewrite E in Hs. apply re_search_matched in Hm.
    destruct (group_set _ _ _ _ 1 Hm eq_refl) as [v Hv]. rewrite Hv in Hs. discriminate.
Qed.

Lemma schema_name_is_word_witness :
  exists model,
    parse 0 doc_orders = Ok model /\ schema_name model = lit "SALES" /\
    schema_name model <> [] /\
    Forall (fun c => is_word c = true) (schema_name model).
Proof.
  destruct (parse 0 doc_orders) as [model | e] eqn:E;
    [| vm_compute in E; discriminate].
  assert (F : match parse 0 doc_orders with
              | Ok m => schema_name m | Raise _ => [] end = lit "SALES")
    by (vm_compute; reflexivity).
  rewrite E in F.
  destruct (schema_name_is_word 0 doc_orders model E) as (Hne & Hw & _).
  exists model. split; [reflexivity |]. split; [exact F |]. split; [exact Hne | exact Hw].
Defined.

(** X4.  The database version of the model has no white space at its ends
    and no line feed, and comes from a document that holds the label
    "Database Version"; it is absent exactly when the version pattern finds
    no match. *)
Theorem database_version_trimmed (now : Z) (content : str) (model : SchemaModel) :
  parse now content = Ok model ->
  (forall v, database_version model = Some v ->
     trimmed v /\ ~ In nl v /\ exists a b, content = a ++ lit "Database Version" ++ b) /\
  (database_version model = None <-> re_search false version_pattern content = None).
Proof.
  intros H. destruct (parse_metadata _ _ _ H) as (md & Hmd & _ & ->).
  apply _parse_metadata_fields in Hmd as [Hv _]. rewrite Hv.
  destruct (re_search false version_pattern content) as [m |] eqn:E.
  - apply re_search_matched in E.
    destruct (group_set _ _ _ _ 1 E eq_refl) as [w Hw]. rewrite Hw. simpl. split.
    + intros v [= <-]. split; [apply strip_trimmed | split].
      * apply dot_class_no_newline, strip_Forall.
        assert (HB : Forall (fun body => body = Plus true (Cls CDot))
                       (group_bodies 1 version_pattern)) by (repeat constructor).
        apply (group_plus_class _ _ _ _ _ _ _ _ E HB Hw).
      * unfold version_pattern, kw in E.
        apply matched_starts_with_literal in E as [_ He]. exact (He eq_refl).
    + split; discriminate.
  - split; [discriminate | tauto].
Qed.

Lemma database_version_trimmed_witness :
  exists model v,
    parse 0 doc_orders = Ok model /\ database_version model = Some v /\
    v = lit "Oracle Database 19c" /\ trimmed v /\ ~ In nl v.
Proof.
  destruct (parse 0 doc_orders) as [model | e] eqn:E;
    [| vm_compute in E; discriminate].
  assert (F : match parse 0 doc_orders with
              | Ok m => database_version m | Raise _ => None end =
              Some (lit "Oracle Database 19c"))
    by (vm_compute; reflexivity).
  rewrite E in F.
  destruct (database_version_trimmed 0 doc_orders model E) as (Hv & _).
  destruct (Hv _ F) as (Ht & Hn & _).
  exists model, (lit "Oracle Database 19c").
  split; [reflexivity |]. split; [exact F |]. split; [reflexivity |].
  split; [exact Ht | exact Hn].
Defined.

End MetadataFacts.

(** ** Defaults of columns, and tables *)

Module TableFacts.

Import PyStrFacts ExcFacts ReFacts LitFacts StripFacts ToadFacts TotalFacts ColumnFacts MetadataFacts.

(** X11.  The default of a column has no white space at its ends and no line
    feed, and it is set only when the trailing text of the column holds
    DEFAULT, in any case: a column whose trailing text has no DEFAULT has no
    default. *)
Theorem column_default_value (columns_block : str) (cols : list Column) (col : Column) :
  _parse_columns columns_block = Ok cols -> In col cols ->
  exists m, In m (re_finditer true col_pattern columns_block) /\
    group columns_block m 1 = Some (col_name col) /\
    let rest := or_empty (group columns_block m 5) in
    (forall d, col_default_value col = Some d ->
       trimmed d /\ ~ In nl d /\ exists a b, upper rest = a ++ lit "DEFAULT" ++ b) /\
    ((~ exists a b, upper rest = a ++ lit "DEFAULT" ++ b) -> col_default_value col = None).
Proof.
  intros H Hc. unfold _parse_columns in H.
  destruct (collect_In _ _ _ _ H Hc) as (m & Hm & Hcol).
  exists m. split; [exact Hm |].
  pose proof (column_of_match_sizes _ _ _ Hcol) as (_ & _ & _ & _ & Hd).
  apply column_of_match_fields in Hcol as (dt & Hn & _).
  split; [exact Hn |]. cbv zeta.
  assert (Hsome : forall d, col_default_value col = Some d ->
            trimmed d /\ ~ In nl d /\
            exists a b, upper (or_empty (group columns_block m 5)) = a ++ lit "DEFAULT" ++ b).
  { intros d Ed. rewrite Hd in Ed.
    destruct (re_search true default_pattern (or_empty (group columns_block m 5)))
      as [dm |] eqn:E; [| discriminate].
    apply re_search_matched in E.
    destruct (group (or_empty (group columns_block m 5)) dm 1) as [v |] eqn:G; [| discriminate].
    injection Ed as <-. split; [apply strip_trimmed | split].
    - apply dot_class_no_newline, strip_Forall.
      assert (HB : Forall (fun body => body = Plus false (Cls CDot))
                     (group_bodies 1 default_pattern)) by (repeat constructor).
      apply (group_plus_class _ _ _ _ _ _ _ _ E HB G).
    - unfold default_pattern, kw in E.
      apply matched_starts_with_literal in E as [Hu _]. exact Hu. }
  split; [exact Hsome |].
  intros Hno. destruct (col_default_value col) as [d |] eqn:Ed; [| reflexivity].
  exfalso. apply Hno. apply (Hsome d eq_refl).
Qed.

Lemma column_default_value_witness :
  exists cols col d,
    _parse_columns block_orders = Ok cols /\ In col cols /\
    col_default_value col = Some d /\ d = lit "'n/a'" /\
    trimmed d /\ ~ In nl d.
Proof.
  destruct block_orders_columns as (c1 & c2 & c3 & E & _ & _ & _ & Hd & _).
  assert (I : In c2 [c1; c2; c3]) by (right; left; reflexivity).
  exists [c1; c2; c3], c2, (lit "'n/a'").
  split; [exact E |]. split; [exact I |]. split; [exact Hd |]. split; [reflexivity |].
  destruct (column_default_value block_orders [c1; c2; c3] c2 E I)
    as (m & _ & _ & Hdef & _).
  destruct (Hdef _ Hd) as (Ht & Hn & _). split; [exact Ht | exact Hn].
Defined.

(** *** Tables *)

(** A loop whose body never skips an item returns one element per item, in
    order. *)
Lemma collect_Forall2 {A B} (f : A -> result (option B)) (l : list A) :
  (forall a, In a l -> f a <> Ok None) ->
  forall bs, collect f l = Ok bs -> Forall2 (fun a b => f a = Ok (Some b)) l bs.
Proof.
  induction l as [|a l IH]; intros Hf bs H; simpl in H.
  - injection H as <-. constructor.
  - apply bind_Ok in H as (ob & Ha & H).
    apply bind_Ok in H as (bs' & Hl & H). injection H as <-.
    destruct ob as [b |]; [| exfalso; apply (Hf a); [left; reflexivity | exact Ha]].
    constructor; [exact Ha |]. apply IH; [| exact Hl].
    intros a' Ha'. apply Hf. right. exact Ha'.
Qed.

Lemma Forall2_impl_l {A B} (P Q : A -> B -> Prop) (R : A -> Prop) l k :
  Forall2 P l k -> Forall R l -> (forall a b, R a -> P a b -> Q a b) -> Forall2 Q l k.
Proof.
  intros HF. induction HF as [|a b l k Hab HF IH]; intros HR Himp; constructor.
  - apply Himp; [apply (Forall_inv HR) | exact Hab].
  - apply IH; [apply (Forall_inv_tail HR) | exact Himp].
Qed.

Lemma re_finditer_all_matched ic r s :
  Forall (fun m => matched ic r s m) (re_finditer ic r s).
Proof. apply Forall_forall. intros m Hm. apply re_finditer_matched, list_elem_of_In, Hm. Qed.

(** The fields of the table of a block, read off the match. *)
Lemma table_of_match_fields content ds m t :
  table_of_match content ds m = Ok (Some t) ->
  group content m 2 = Some (tbl_name t) /\
  tbl_schema_name t = schema_or (group content m 1) ds /\
  (exists blk, group content m 3 = Some blk /\ _parse_columns blk = Ok (tbl_columns t)) /\
  let window := slice content (m_start m - 200) (m_start m) in
  match re_search false row_count_pattern window with
  | Some rm => exists d, group window rm 1 = Some d /\ int_of_str d = Ok (tbl_row_count t)
  | None => tbl_row_count t = 0%Z
  end.
Proof.
  unfold table_of_match. intros H.
  apply bind_Ok in H as (rc & Hrc & H).
  apply bind_Ok in H as (blk & Hblk & H). apply req_Ok in Hblk.
  apply bind_Ok in H as (cols & Hcols & H).
  apply bind_Ok in H as (name & Hname & H). apply req_Ok in Hname.
  injection H as <-. simpl. repeat split; eauto.
  destruct (re_search false row_count_pattern _) as [rm |].
  - apply bind_Ok in Hrc as (d & Hd & Hrc). apply req_Ok in Hd. eauto.
  - injection Hrc as <-. reflexivity.
Qed.

Lemma table_of_match_not_skipped content ds m : table_of_match content ds m <> Ok None.
Proof.
  unfold table_of_match. intros H.
  apply bind_Ok in H as (rc & Hrc & H).
  apply bind_Ok in H as (blk & Hblk & H).
  apply bind_Ok in H as (cols & Hcols & H).
  apply bind_Ok in H as (name & Hname & H). discriminate.
Qed.

Lemma _parse_tables_origin content md ts :
  _parse_metadata content = Ok md -> _parse_tables content = Ok ts ->
  Forall2 (fun m t => table_of_match content (default_schema_of md) m = Ok (Some t))
          (re_finditer true table_pattern content) ts.
Proof.
  unfold _parse_tables. intros Hmd H. rewrite Hmd in H. simpl in H.
  apply collect_Forall2; [| exact H].
  intros m _. apply table_of_match_not_skipped.
Qed.

(** X5.  There is one table for each block that the table pattern matches, in
    document order, blocks of the same name included; its name is the name
    of the block and its columns are those of the body of the block. *)
Theorem one_table_per_block (content : str) (ts : list Table) :
  _parse_tables content = Ok ts ->
  Forall2 (fun m t =>
             group content m 2 = Some (tbl_name t) /\
             exists blk, group content m 3 = Some blk /\
                         _parse_columns blk = Ok (tbl_columns t))
          (re_finditer true table_pattern content) ts.
Proof.
  intros H. destruct (_parse_metadata_total content) as [md Hmd].
  eapply Forall2_impl; [exact (_parse_tables_origin _ _ _ Hmd H) |].
  intros m t Hmt. apply table_of_match_fields in Hmt as (Hn & _ & Hb & _). auto.
Qed.

Lemma one_table_per_block_witness :
  exists ts,
    _parse_tables doc_orders = Ok ts /\
    map tbl_name ts = [lit "ORDERS"; lit "ORDERS_OLD"] /\
    Forall2 (fun m t =>
               group doc_orders m 2 = Some (tbl_name t) /\
               exists blk, group doc_orders m 3 = Some blk /\
                           _parse_columns blk = Ok (tbl_columns t))
            (re_finditer true table_pattern doc_orders) ts.
Proof.
  destruct (_parse_tables doc_orders) as [ts | e] eqn:E;
    [| vm_compute in E; discriminate].
  assert (F : map tbl_name (match _parse_tables doc_orders with
                            | Ok l => l | Raise _ => [] end) =
              [lit "ORDERS"; lit "ORDERS_OLD"])
    by (vm_compute; reflexivity).
  rewrite E in F.
  exists ts. split; [reflexivity |]. split; [exact F |].
  exact (one_table_per_block doc_orders ts E).
Defined.

(** X6.  The schema of a table is the qualifier of its block when the block has
    one, and the schema name of the header (or UNKNOWN) when it has none. *)
Theorem table_schema_or_default (content : str) (md : metadata) (ts : list Table) :
  _parse_metadata content = Ok md -> _parse_tables content = Ok ts ->
  Forall2 (fun m t =>
             match group content m 1 with
             | Some qualifier => tbl_schema_name t = qualifier
             | None => tbl_schema_name t = default UNKNOWN (md_schema_name md)
             end)
          (re_finditer true table_pattern content) ts.
Proof.
  intros Hmd H.
  eapply Forall2_impl_l;
    [exact (_parse_tables_origin _ _ _ Hmd H) | apply re_finditer_all_matched |].
  intros m t Hin Hmt. simpl in Hin.
  apply table_of_match_fields in Hmt as (_ & Hs & _). rewrite Hs. unfold schema_or.
  destruct (group content m 1) as [q |] eqn:G; [| reflexivity].
  assert (HB : Forall (fun body => body = Plus true (Cls CWord))
                 (group_bodies 1 table_pattern)) by (repeat constructor).
  destruct (group_plus_class _ _ _ _ _ _ _ _ Hin HB G) as [Hne _].
  destruct q; [contradiction | reflexivity].
Qed.

Lemma table_schema_or_default_witness :
  exists md ts,
    _parse_metadata doc_orders = Ok md /\ _parse_tables doc_orders = Ok ts /\
    map tbl_schema_name ts = [lit "SALES"; lit "ARCHIVE"] /\
    Forall2 (fun m t =>
               match group doc_orders m 1 with
               | Some qualifier => tbl_schema_name t = qualifier
               | None => tbl_schema_name t = default UNKNOWN (md_schema_name md)
               end)
            (re_finditer true table_pattern doc_orders) ts.
Proof.
  destruct (_parse_metadata doc_orders) as [md | e] eqn:M;
    [| vm_compute in M; discriminate].
  destruct (_parse_tables doc_orders) as [ts | e] eqn:E;
    [| vm_compute in E; discriminate].
  assert (F : map tbl_schema_name (match _parse_tables doc_orders with
                                   | Ok l => l | Raise _ => [] end) =
              [lit "SALES"; lit "ARCHIVE"])
    by (vm_compute; reflexivity).
  rewrite E in F.
  exists md, ts. split; [reflexivity |]. split; [reflexivity |]. split; [exact F |].
  exact (table_schema_or_default doc_orders md ts M E).
Defined.

(** X7.  The row count of a table is never negative, and it is 0 when the 200
    characters before the block do not hold the text "Row Count:". *)
Theorem row_count_from_window (content : str) (ts : list Table) :
  _parse_tables content = Ok ts ->
  Forall2 (fun m t =>
             (0 <= tbl_row_count t)%Z /\
             let window := slice content (m_start m - 200) (m_start m) in
             ((~ exists a b, window = a ++ lit "Row Count:" ++ b) ->
              tbl_row_count t = 0%Z))
          (re_finditer true table_pattern content) ts.
Proof.
  intros H. destruct (_parse_metadata_total content) as [md Hmd].
  eapply Forall2_impl; [exact (_parse_tables_origin _ _ _ Hmd H) |].
  intros m t Hmt. apply table_of_match_fields in Hmt as (_ & _ & _ & Hrc).
  cbv zeta in *.
  destruct (re_search false row_count_pattern (slice content (m_start m - 200) (m_start m)))
    as [rm |] eqn:E.
  - destruct Hrc as (d & Hd & Hint). apply int_of_str_value in Hint as [_ Hpos].
    split; [exact Hpos |]. intros Hno. exfalso. apply Hno.
    apply re_search_matched in E. unfold matched in E.
    unfold row_count_pattern in E.
    apply dmatch_Seqs_cons in E as (k1 & g1 & _ & E).
    apply dmatch_Seqs_cons in E as (k2 & g2 & _ & E).
    apply dmatch_Seqs_cons in E as (k3 & g3 & E & _).
    apply dmatch_Lits in E as (_ & _ & _ & He).
    destruct (slice_substring (slice content (m_start m - 200) (m_start m)) k2 k3)
      as (pre & suf & Es).
    exists pre, suf. rewrite <- (He eq_refl). exact Es.
  - rewrite Hrc. split; [lia | reflexivity].
Qed.

Lemma row_count_from_window_witness :
  exists ts,
    _parse_tables doc_orders = Ok ts /\
    map tbl_row_count ts = [1200%Z; 0%Z] /\
    Forall (fun t => (0 <= tbl_row_count t)%Z) ts.
Proof.
  destruct (_parse_tables doc_orders) as [ts | e] eqn:E;
    [| vm_compute in E; discriminate].
  assert (F : map tbl_row_count (match _parse_tables doc_orders with
                                 | Ok l => l | Raise _ => [] end) = [1200%Z; 0%Z])
    by (vm_compute; reflexivity).
  rewrite E in F.
  exists ts. split; [reflexivity |]. split; [exact F |].
  pose proof (row_count_from_window doc_orders ts E) as HF.
  apply Forall_forall. intros t Ht.
  destruct (proj1 (list_elem_of_lookup ts t) Ht) as [i Hi].
  destruct (Forall2_lookup_r _ _ _ _ _ HF Hi) as (m & _ & Hm & _). exact Hm.
Defined.

End TableFacts.

(** ** The merge, and the exceptions of [parse] *)

Module MergeFacts.

Import PyStrFacts ExcFacts ReFacts LitFacts StripFacts ToadFacts TotalFacts.
Import ColumnFacts MetadataFacts TableFacts UnescapeFacts.

Lemma Forall2_map_r {A B} (f : A -> B) (l : list A) :
  Forall2 (fun a b => b = f a) l (map f l).
Proof. induction l; constructor; auto. Qed.

(** X2.  The merge changes nothing of a table but its comment and its keys, and
    nothing of a column but its comment, which becomes the entry of the
    column name under the table name in the column comments; the tables and
    the columns keep their number and their order. *)
Theorem merge_keeps_tables (now : Z) (content : str) (model : SchemaModel) :
  parse now content = Ok model ->
  exists ts cc,
    _parse_tables content = Ok ts /\
    _parse_column_comments content = Ok cc /\
    Forall2 (fun t0 t =>
               tbl_name t = tbl_name t0 /\
               tbl_schema_name t = tbl_schema_name t0 /\
               tbl_row_count t = tbl_row_count t0 /\
               Forall2 (fun c0 c =>
                          col_name c = col_name c0 /\
                          col_data_type c = col_data_type c0 /\
                          col_nullable c = col_nullable c0 /\
                          col_max_length c = col_max_length c0 /\
                          col_precision c = col_precision c0 /\
                          col_scale c = col_scale c0 /\
                          col_default_value c = col_default_value c0 /\
                          col_comment c =
                            default ∅ (cc !! tbl_name t0) !! col_name c0)
                       (tbl_columns t0) (tbl_columns t))
            ts (tables model).
Proof.
  intros H.
  destruct (parse_tables _ _ _ H) as (ts & tc & cc & pks & fks & Hts & _ & Hcc & _ & _ & E).
  exists ts, cc. split; [exact Hts | split; [exact Hcc |]]. rewrite E.
  eapply Forall2_impl; [apply Forall2_map_r |].
  intros t0 t ->. unfold merge_table. simpl. repeat split.
  eapply Forall2_impl; [apply Forall2_map_r |].
  intros c0 c ->. simpl. repeat split.
Qed.

Lemma merge_keeps_tables_witness :
  exists model ts,
    parse 0 doc_orders = Ok model /\ _parse_tables doc_orders = Ok ts /\
    Forall2 (fun t0 t => tbl_name t = tbl_name t0 /\
                         tbl_row_count t = tbl_row_count t0 /\
                         length (tbl_columns t) = length (tbl_columns t0))
            ts (tables model).
Proof.
  destruct (parse 0 doc_orders) as [model | e] eqn:E;
    [| vm_compute in E; discriminate].
  destruct (merge_keeps_tables 0 doc_orders model E) as (ts & cc & Hts & _ & HF).
  exists model, ts. split; [reflexivity |]. split; [exact Hts |].
  eapply Forall2_impl; [exact HF |].
  intros t0 t (Hn & _ & Hr & Hc). split; [exact Hn |]. split; [exact Hr |].
  symmetry. eapply Forall2_length. exact Hc.
Defined.

(** *** The only exception *)

Lemma collect_Raise {A B} (f : A -> result (option B)) (l : list A) e :
  collect f l = Raise e -> exists a, In a l /\ f a = Raise e.
Proof.
  induction l as [|a l IH]; simpl; [discriminate |].
  destruct (f a) as [ob | e'] eqn:Ea; simpl.
  - destruct (collect f l) as [bs | e'] eqn:El; simpl; [discriminate |].
    intros [= <-]. destruct (IH eq_refl) as (a' & Ha' & E). exists a'. auto.
  - intros [= <-]. exists a. auto.
Qed.

Lemma int_of_str_Raise v e : int_of_str v = Raise e -> e = ValueError.
Proof.
  unfold int_of_str. destruct v as [|c v]; [congruence |].
  destruct (forallb is_digit (c :: v)); [| congruence].
  destruct (length (c :: v) <=? int_max_str_digits); congruence.
Qed.

Lemma int_if_Raise cond o e :
  (cond = true -> truthy o = true) -> int_if cond o = Raise e -> e = ValueError.
Proof.
  unfold int_if. destruct cond; [| discriminate]. intros Hc.
  specialize (Hc eq_refl). destruct o as [v |]; [| discriminate]. simpl.
  destruct (int_of_str v) as [n | e'] eqn:E; simpl; [discriminate |].
  intros [= <-]. eapply int_of_str_Raise; eauto.
Qed.

Lemma column_of_match_Raise block m e :
  matched true col_pattern block m -> column_of_match block m = Raise e -> e = ValueError.
Proof.
  intros Hm. unfold column_of_match.
  set_group Hm 1 name G1.
  destruct (str_in (upper name) skipped_names); [discriminate |].
  assert (Hdef : exists dv,
    match re_search true default_pattern (or_empty (group block m 5)) with
    | Some dm => v ← req AttributeError (group (or_empty (group block m 5)) dm 1);
                 mret (Some (strip v))
    | None => mret None
    end = Ok dv).
  { destruct (re_search true default_pattern (or_empty (group block m 5))) as [dm |] eqn:E.
    - apply re_search_matched in E. set_group E 1 v G. eauto.
    - eauto. }
  destruct Hdef as [dv ->]. cbn [mbind result_bind].
  set_group Hm 2 dt G2.
  destruct (int_if (truthy (group block m 3) && str_in (upper dt) char_types)
              (group block m 3)) as [ml | e1] eqn:E1; cbn [mbind result_bind].
  2: { intros [= <-]. eapply int_if_Raise; [| exact E1].
       intros H. apply andb_true_iff in H. tauto. }
  destruct (int_if (truthy (group block m 3) && str_eqb (upper dt) (lit "NUMBER"))
              (group block m 3)) as [pr | e2] eqn:E2; cbn [mbind result_bind].
  2: { intros [= <-]. eapply int_if_Raise; [| exact E2].
       intros H. apply andb_true_iff in H. tauto. }
  destruct (int_if (truthy (group block m 4)) (group block m 4)) as [sc | e3] eqn:E3;
    cbn [mbind result_bind].
  2: { intros [= <-]. eapply int_if_Raise; [| exact E3]. auto. }
  discriminate.
Qed.

Lemma _parse_columns_Raise block e : _parse_columns block = Raise e -> e = ValueError.
Proof.
  unfold _parse_columns. intros H. apply collect_Raise in H as (m & Hm & H).
  apply re_finditer_matched in Hm. eapply column_of_match_Raise; eauto.
Qed.

Lemma table_of_match_Raise content ds m e :
  matched true table_pattern content m -> table_of_match content ds m = Raise e ->
  e = ValueError.
Proof.
  intros Hm. unfold table_of_match.
  set (window := slice content (m_start m - 200) (m_start m)).
  destruct (match re_search false row_count_pattern window with
            | Some rm => d ← req TypeError (group window rm 1); int_of_str d
            | None => mret 0%Z
            end) as [rc | e1] eqn:E1; cbn [mbind result_bind].
  2: { intros [= <-].
       destruct (re_search false row_count_pattern window) as [rm |] eqn:E; [| discriminate].
       apply re_search_matched in E. revert E1. set_group E 1 d G.
       apply int_of_str_Raise. }
  set_group Hm 3 blk G3.
  destruct (_parse_columns blk) as [cols | e2] eqn:E2; cbn [mbind result_bind].
  2: { intros [= <-]. eapply _parse_columns_Raise; eauto. }
  set_group Hm 2 name G2. discriminate.
Qed.

Lemma _parse_tables_Raise content e : _parse_tables content = Raise e -> e = ValueError.
Proof.
  unfold _parse_tables.
  destruct (_parse_metadata_total content) as [md ->]. cbn [mbind result_bind].
  intros H. apply collect_Raise in H as (m & Hm & H).
  apply re_finditer_matched in Hm. eapply table_of_match_Raise; eauto.
Qed.

(** X1.  The only exception [parse] can raise is the [ValueError] of [int()], and
    it comes from the extraction of the tables: every other extractor
    returns. *)
Theorem parse_raises_only_ValueError (now : Z) (content : str) (e : exn) :
  parse now content = Raise e ->
  e = ValueError /\ _parse_tables content = Raise ValueError.
Proof.
  unfold parse.
  destruct (_parse_metadata_total content) as [md ->]. cbn [mbind result_bind].
  destruct (_parse_tables content) as [ts | e1] eqn:E1; cbn [mbind result_bind].
  2: { intros [= <-]. apply _parse_tables_Raise in E1. subst. auto. }
  destruct (_parse_table_comments_total content) as [tc ->]. cbn [mbind result_bind].
  destruct (_parse_column_comments_total content) as [cc ->]. cbn [mbind result_bind].
  destruct (_parse_views_total content) as [vs ->]. cbn [mbind result_bind].
  destruct (_parse_procedures_total content) as [ps ->]. cbn [mbind result_bind].
  destruct (_parse_primary_keys_total content) as [pks ->]. cbn [mbind result_bind].
  destruct (_parse_foreign_keys_total content) as [fks ->]. cbn [mbind result_bind].
  discriminate.
Qed.

Lemma parse_raises_only_ValueError_witness :
  parse 0 doc_long_size = Raise ValueError /\
  _parse_tables doc_long_size = Raise ValueError.
Proof.
  assert (E : parse 0 doc_long_size = Raise ValueError) by (vm_compute; reflexivity).
  split; [exact E |].
  exact (proj2 (parse_raises_only_ValueError 0 doc_long_size ValueError E)).
Defined.

(** *** Unescaping undoes the doubling of quotes *)

(** X14.  A text written the SQL way, with each of its quotes doubled, is read
    back unchanged: unescaping undoes the doubling, for every text. *)
Theorem unescape_escape_quotes (s : str) : unescape (escape_quotes s) = s.
Proof.
  induction s as [|c s IH]; [reflexivity |].
  unfold escape_quotes in *. simpl flat_map.
  destruct (ascii_eqb c "'"%char) eqn:E.
  - apply ascii_eqb_true in E. subst. simpl app.
    rewrite unescape_pair, IH. reflexivity.
  - simpl app. rewrite unescape_copy; [rewrite IH; reflexivity |].
    cbn [starts_with]. apply ascii_eqb_false in E.
    destruct (ascii_eqb "'"%char c) eqn:F; [| reflexivity].
    apply ascii_eqb_true in F. congruence.
Qed.

End MergeFacts.

(** ** Comments and keys *)

Module KeyFacts.

Import PyStrFacts ExcFacts ReFacts LitFacts StripFacts ToadFacts TotalFacts.
Import ColumnFacts MetadataFacts TableFacts UnescapeFacts.

(** *** Table comments *)

Lemma table_comment_step_Ok content acc m acc' :
  table_comment_step content acc m = Ok acc' ->
  exists t text,
    group content m 1 = Some t /\ group content m 2 = Some text /\
    acc' = <[t := unescape text]> acc.
Proof.
  unfold table_comment_step. intros H.
  apply bind_Ok in H as (text & Htext & H). apply req_Ok in Htext.
  apply bind_Ok in H as (t & Ht & H). apply req_Ok in Ht.
  injection H as <-. eauto.
Qed.

Lemma table_comment_loop_other content (t : str) (ms : list rmatch_obj) :
  (forall m, In m ms -> group content m 1 <> Some t) ->
  forall acc tc, for_each (table_comment_step content) ms acc = Ok tc ->
  tc !! t = acc !! t.
Proof.
  intros Hms acc tc H.
  eapply for_each_inv with (P := fun a : gmap str str => a !! t = acc !! t);
    [| reflexivity | exact H].
  intros a m a' Hm Ha Hstep.
  apply table_comment_step_Ok in Hstep as (t' & text & Ht' & _ & ->).
  rewrite lookup_insert_ne; [exact Ha |].
  intros ->. exact (Hms m Hm Ht').
Qed.

(** X12.  The comment recorded for a table name is the unescaped text of the last
    comment statement for that name in document order, whatever the schema
    the statement names; a name without a statement has no entry. *)
Theorem table_comment_last_match_wins (content : str) (tc : gmap str str) (t : str) :
  _parse_table_comments content = Ok tc ->
  (forall ms1 m ms2,
      re_finditer true table_comment_pattern content = ms1 ++ m :: ms2 ->
      group content m 1 = Some t ->
      (forall m', In m' ms2 -> group content m' 1 <> Some t) ->
      exists text, group content m 2 = Some text /\ tc !! t = Some (unescape text)) /\
  ((forall m, In m (re_finditer true table_comment_pattern content) ->
              group content m 1 <> Some t) ->
   tc !! t = None).
Proof.
  unfold _parse_table_comments. intros H. split.
  - intros ms1 m ms2 E Hm Hlater. rewrite E, for_each_app in H.
    apply bind_Ok in H as (acc1 & _ & H). simpl in H.
    apply bind_Ok in H as (acc2 & Hstep & H).
    apply table_comment_step_Ok in Hstep as (t' & text & Ht' & Htext & ->).
    exists text. split; [exact Htext |].
    rewrite (table_comment_loop_other content t ms2 Hlater _ _ H).
    assert (t' = t) as -> by congruence. apply lookup_insert_eq.
  - intros Hnone. rewrite (table_comment_loop_other content t _ Hnone _ _ H).
    apply lookup_empty.
Qed.

Lemma table_comment_last_match_wins_witness :
  exists tc,
    _parse_table_comments doc_orders = Ok tc /\
    tc !! lit "ORDERS" = Some (lit "new").
Proof.
  destruct (_parse_table_comments doc_orders) as [tc | e] eqn:E;
    [| vm_compute in E; discriminate].
  exists tc. split; [reflexivity |].
  destruct (table_comment_last_match_wins doc_orders tc (lit "ORDERS") E) as (Hlast & _).
  assert (F : exists m1 m2,
             re_finditer true table_comment_pattern doc_orders = [m1; m2] /\
             group doc_orders m2 1 = Some (lit "ORDERS") /\
             group doc_orders m2 2 = Some (lit "new")).
  { vm_compute. eexists _, _. repeat split. }
  destruct F as (m1 & m2 & F & G1 & G2).
  destruct (Hlast [m1] m2 [] F G1) as (text & Htext & Htc); [intros m' [] |].
  rewrite G2 in Htext. injection Htext as <-. exact Htc.
Defined.

(** *** Foreign keys in document order *)

Lemma foreign_key_step_built content acc m acc' :
  foreign_key_step content acc m = Ok acc' ->
  exists t fk,
    group content m 1 = Some t /\ fk_of_match content m fk /\
    acc' = <[t := default [] (acc !! t) ++ [fk]]> acc.
Proof.
  unfold foreign_key_step. intros H.
  apply bind_Ok in H as (a & Ha & H). apply req_Ok in Ha.
  apply bind_Ok in H as (b & Hb & H). apply req_Ok in Hb.
  apply bind_Ok in H as (t & Ht & H). apply req_Ok in Ht.
  apply bind_Ok in H as (cn & Hcn & H). apply req_Ok in Hcn.
  apply bind_Ok in H as (rt & Hrt & H). apply req_Ok in Hrt.
  injection H as <-.
  exists t, (mkForeignKey cn (split_columns a) rt (split_columns b)).
  split; [exact Ht |]. split; [| reflexivity].
  unfold fk_of_match. simpl. eauto 10.
Qed.

Lemma foreign_key_loop content (t : str) (ms : list rmatch_obj) :
  forall acc fks, for_each (foreign_key_step content) ms acc = Ok fks ->
  exists new,
    Forall2 (fk_of_match content) (matches_for content t ms) new /\
    default [] (fks !! t) = default [] (acc !! t) ++ new /\
    (fks !! t = None <-> acc !! t = None /\ matches_for content t ms = []).
Proof.
  induction ms as [|m ms IH]; intros acc fks H; simpl in H.
  - injection H as <-. exists []. simpl. rewrite app_nil_r.
    split; [constructor | split; [reflexivity | tauto]].
  - apply bind_Ok in H as (acc1 & Hstep & H).
    apply foreign_key_step_built in Hstep as (t' & fk & Ht' & Hfk & ->).
    destruct (IH _ _ H) as (new & HF & Hd & Hnone).
    unfold matches_for in *. simpl List.filter.
    destruct (decide (t' = t)) as [-> | Hne].
    + rewrite lookup_insert_eq in Hd, Hnone. simpl in Hd.
      rewrite bool_decide_eq_true_2 by exact Ht'.
      exists (fk :: new). split; [constructor; assumption |].
      split; [rewrite Hd, <- app_assoc; reflexivity |].
      split; [intros Hn; apply Hnone in Hn as [? _]; discriminate | intros [_ ?]; discriminate].
    + rewrite lookup_insert_ne in Hd, Hnone by exact Hne.
      rewrite bool_decide_eq_false_2 by congruence.
      exists new. auto.
Qed.

(** X21.  The foreign keys recorded for a table name are those of the statements
    for that name, one for each and in document order; a name has no entry
    exactly when no statement is for it. *)
Theorem foreign_keys_in_document_order (content : str)
    (fks : gmap str (list ForeignKey)) (t : str) :
  _parse_foreign_keys content = Ok fks ->
  Forall2 (fk_of_match content)
          (matches_for content t (re_finditer true fk_pattern content))
          (default [] (fks !! t)) /\
  (fks !! t = None <->
   matches_for content t (re_finditer true fk_pattern content) = []).
Proof.
  unfold _parse_foreign_keys. intros H.
  destruct (foreign_key_loop content t _ _ _ H) as (new & HF & Hd & Hnone).
  rewrite lookup_empty in Hd, Hnone. simpl in Hd. rewrite Hd.
  split; [exact HF | tauto].
Qed.

Lemma foreign_keys_in_document_order_witness :
  exists fks,
    _parse_foreign_keys doc_orders = Ok fks /\
    map fk_constraint_name (default [] (fks !! lit "ORDERS")) =
      [lit "ORDERS_FK1"; lit "ORDERS_FK2"] /\
    Forall2 (fk_of_match doc_orders)
            (matches_for doc_orders (lit "ORDERS")
               (re_finditer true fk_pattern doc_orders))
            (default [] (fks !! lit "ORDERS")).
Proof.
  destruct (_parse_foreign_keys doc_orders) as [fks | e] eqn:E;
    [| vm_compute in E; discriminate].
  assert (F : map fk_constraint_name
                (default [] (match _parse_foreign_keys doc_orders with
                             | Ok f => f !! lit "ORDERS" | Raise _ => None end)) =
              [lit "ORDERS_FK1"; lit "ORDERS_FK2"])
    by (vm_compute; reflexivity).
  rewrite E in F.
  exists fks. split; [reflexivity |]. split; [exact F |].
  exact (proj1 (foreign_keys_in_document_order doc_orders fks (lit "ORDERS") E)).
Defined.

(** *** The entries of a column list *)

Lemma split_on_pieces (sep : ascii) (P : ascii -> Prop) (s : str) :
  Forall P s ->
  Forall (fun p => Forall P p /\ ~ In sep p) (split_on sep s).
Proof.
  induction s as [|c s IH]; intros H; simpl.
  - repeat constructor. intros [].
  - pose proof (Forall_inv H) as Hc. specialize (IH (Forall_inv_tail H)).
    destruct (ascii_eqb c sep) eqn:E.
    + constructor; [split; [constructor | intros []] | exact IH].
    + apply ascii_eqb_false in E.
      destruct (split_on sep s) as [|h r]; [repeat constructor; [exact Hc | ] |].
      * intros [-> | []]. contradiction.
      * pose proof (Forall_inv IH) as [Hh Hn]. constructor; [| exact (Forall_inv_tail IH)].
        split; [constructor; assumption |].
        intros [-> | Hin]; [contradiction | exact (Hn Hin)].
Qed.

Lemma replace_char_none (a b : ascii) (s : str) :
  a <> b -> Forall (fun c => c <> a) (replace [a] [b] s).
Proof.
  intros Hab. unfold replace. induction s as [|c s IH]; simpl; [constructor |].
  rewrite andb_true_r. destruct (ascii_eqb a c) eqn:E; simpl.
  - constructor; [congruence | exact IH].
  - apply ascii_eqb_false in E. constructor; [congruence | exact IH].
Qed.

Lemma strip_not_In (a : ascii) (s : str) : ~ In a s -> ~ In a (strip s).
Proof.
  intros H Hin. apply H. destruct (strip_piece s) as (pre & suf & E).
  rewrite E. apply in_or_app. right. apply in_or_app. left. exact Hin.
Qed.

(** Every entry of a column list is free of commas and line feeds and has
    no white space at its ends. *)
Lemma split_columns_entries (columns_str : str) :
  Forall (fun x => trimmed x /\ ~ In ","%char x /\ ~ In nl x) (split_columns columns_str).
Proof.
  unfold split_columns.
  assert (Hne : nl <> " "%char) by (vm_compute; discriminate).
  pose proof (split_on_pieces ","%char (fun c => c <> nl) _
                (replace_char_none nl " "%char columns_str Hne)) as H.
  change (lit " ") with [" "%char].
  apply Forall_map. eapply Forall_impl; [exact H |].
  intros p [Hnl Hcomma]. simpl. split; [apply strip_trimmed |].
  split; apply strip_not_In; [exact Hcomma |].
  intros Hin. rewrite Forall_forall in Hnl.
  apply (Hnl nl); [apply list_elem_of_In; exact Hin | reflexivity].
Qed.

(** X16.  The column names of every primary key, foreign key and view are free of
    commas and line feeds and have no white space at their ends. *)
Theorem column_lists_trimmed (content : str) :
  (forall pks t pk,
      _parse_primary_keys content = Ok pks -> pks !! t = Some pk ->
      Forall (fun x => trimmed x /\ ~ In ","%char x /\ ~ In nl x) (pk_columns pk)) /\
  (forall fks t l fk,
      _parse_foreign_keys content = Ok fks -> fks !! t = Some l -> In fk l ->
      Forall (fun x => trimmed x /\ ~ In ","%char x /\ ~ In nl x) (fk_columns fk) /\
      Forall (fun x => trimmed x /\ ~ In ","%char x /\ ~ In nl x)
             (fk_referenced_columns fk)) /\
  (forall vs v, _parse_views content = Ok vs -> In v vs ->
      Forall (fun x => trimmed x /\ ~ In ","%char x /\ ~ In nl x) (view_columns v)).
Proof.
  split; [| split].
  - intros pks t pk H Hpk.
    destruct (primary_key_origin _ _ _ _ H Hpk) as (m & cs & _ & _ & ->).
    apply split_columns_entries.
  - intros fks t l fk H Hl Hfk.
    destruct (foreign_key_origin _ _ _ _ _ H Hl Hfk)
      as (m & a & b & _ & _ & _ & _ & -> & ->).
    split; apply split_columns_entries.
  - intros vs v H Hv.
    destruct (view_origin _ _ _ H Hv) as (m & cs & _ & _ & ->).
    apply split_columns_entries.
Qed.

Lemma column_lists_trimmed_witness :
  exists fks l fk,
    _parse_foreign_keys doc_orders = Ok fks /\ fks !! lit "ORDERS" = Some l /\ In fk l /\
    fk_columns fk = [lit "ITEM_ID"; lit "SHOP_ID"] /\
    Forall (fun x => trimmed x /\ ~ In ","%char x /\ ~ In nl x) (fk_columns fk).
Proof.
  destruct (_parse_foreign_keys doc_orders) as [fks | e] eqn:E;
    [| vm_compute in E; discriminate].
  assert (F : exists fk1 fk2,
             match _parse_foreign_keys doc_orders with
             | Ok f => f !! lit "ORDERS" | Raise _ => None end = Some [fk1; fk2] /\
             fk_columns fk2 = [lit "ITEM_ID"; lit "SHOP_ID"]).
  { vm_compute. eexists _, _. split; reflexivity. }
  destruct F as (fk1 & fk2 & F & Hc). rewrite E in F.
  assert (I : In fk2 [fk1; fk2]) by (right; left; reflexivity).
  exists fks, [fk1; fk2], fk2.
  split; [reflexivity |]. split; [exact F |]. split; [exact I |]. split; [exact Hc |].
  destruct (column_lists_trimmed doc_orders) as (_ & Hfk & _).
  exact (proj1 (Hfk fks (lit "ORDERS") [fk1; fk2] fk2 E F I)).
Defined.

End KeyFacts.

(** ** White space in parameter texts *)

Module SpacingFacts.

Import PyStrFacts ExcFacts ReFacts FuelFacts LitFacts StripFacts.

Lemma piece_refl s : piece s s.
Proof. exists [], []. rewrite app_nil_r. reflexivity. Qed.

Lemma piece_trans a b c : piece a b -> piece b c -> piece a c.
Proof.
  intros (p1 & s1 & ->) (p2 & s2 & ->). exists (p2 ++ p1), (s1 ++ s2).
  rewrite <- !app_assoc. reflexivity.
Qed.

Lemma strip_is_piece s : piece (strip s) s.
Proof. apply strip_piece. Qed.

Lemma slice_is_piece s i j : piece (slice s i j) s.
Proof. apply slice_substring. Qed.

Lemma piece_cons c p s : piece p s -> piece p (c :: s).
Proof. intros (pre & suf & ->). exists (c :: pre), suf. reflexivity. Qed.

(** The first field of a split starts the text; the others lie in it. *)
Lemma split_on_fields sep s :
  match split_on sep s with
  | [] => False
  | h :: r => (exists suf, s = h ++ suf) /\ Forall (fun p => piece p s) r
  end.
Proof.
  induction s as [|c s IH]; simpl.
  - split; [exists []; reflexivity | constructor].
  - destruct (split_on sep s) as [|h r]; [contradiction |].
    destruct IH as [(suf & E) Hr].
    assert (Hr' : Forall (fun p => piece p (c :: s)) r).
    { eapply Forall_impl; [exact Hr |]. intros p Hp. apply piece_cons, Hp. }
    destruct (ascii_eqb c sep).
    + split; [exists (c :: s); reflexivity |].
      constructor; [| exact Hr'].
      exists [c], suf. simpl. rewrite E. reflexivity.
    + split; [exists suf; simpl; rewrite E; reflexivity | exact Hr'].
Qed.

Lemma split_on_piece sep s p : In p (split_on sep s) -> piece p s.
Proof.
  pose proof (split_on_fields sep s) as H.
  destruct (split_on sep s) as [|h r]; [contradiction |].
  destruct H as [(suf & E) Hr]. intros [<- | Hp].
  - exists [], suf. exact E.
  - rewrite Forall_forall in Hr. apply Hr, list_elem_of_In, Hp.
Qed.

(** *** Single spacing *)


Lemma single_spaced_tail a t : single_spaced (a :: t) = true -> single_spaced t = true.
Proof. simpl. intros H. apply andb_true_iff in H. tauto. Qed.

Lemma single_spaced_nospace_app w t :
  Forall nospace w -> single_spaced t = true -> single_spaced (w ++ t) = true.
Proof.
  induction 1 as [|c w Hc Hw IH]; intros Ht; [exact Ht |].
  simpl. unfold nospace in Hc. rewrite Hc. simpl. apply IH, Ht.
Qed.

Lemma join_single_spaced (words : list str) :
  Forall (fun w => w <> [] /\ Forall nospace w) words ->
  single_spaced (join (lit " ") words) = true.
Proof.
  induction 1 as [|w words [Hne Hw] Hws IH]; [reflexivity |].
  destruct words as [|w' words].
  - simpl. rewrite <- (app_nil_r w). apply single_spaced_nospace_app; auto.
  - change (join (lit " ") (w :: w' :: words))
      with (w ++ " "%char :: join (lit " ") (w' :: words)).
    apply single_spaced_nospace_app; [exact Hw |].
    change (single_spaced (" "%char :: join (lit " ") (w' :: words)))
      with ((negb (is_space " "%char) ||
             (ascii_eqb " "%char " "%char &&
              match join (lit " ") (w' :: words) with
              | b :: _ => negb (is_space b) | [] => true end)) &&
            single_spaced (join (lit " ") (w' :: words))).
    rewrite IH, andb_true_r.
    apply Forall_inv in Hws as [Hne' Hw'].
    destruct w' as [|b w']; [contradiction |].
    apply Forall_inv in Hw'. unfold nospace in Hw'.
    assert (E : exists t, join (lit " ") ((b :: w') :: words) = b :: t).
    { destruct words; simpl; eauto. }
    destruct E as [t ->]. rewrite Hw'. reflexivity.
Qed.

Lemma split_ws_aux_words s : forall cur,
  Forall nospace cur ->
  Forall (fun w => w <> [] /\ Forall nospace w) (split_ws_aux s cur).
Proof.
  induction s as [|c s IH]; intros cur Hcur; simpl.
  - destruct cur as [|x cur]; [constructor |].
    constructor; [| constructor]. split.
    + simpl. destruct (rev cur); discriminate.
    + apply Forall_rev. exact Hcur.
  - destruct (is_space c) eqn:E.
    + destruct cur as [|x cur]; [apply IH; constructor |].
      constructor; [| apply IH; constructor]. split.
      * simpl. destruct (rev cur); discriminate.
      * apply Forall_rev. exact Hcur.
    + apply IH. constructor; [exact E | exact Hcur].
Qed.

(** The text put together again from its words is single spaced. *)
Lemma normalized_single_spaced s :
  single_spaced (join (lit " ") (split_ws s)) = true.
Proof. apply join_single_spaced, split_ws_aux_words. constructor. Qed.

(** In single spaced text a run of white space is one space. *)
Lemma single_spaced_run s w :
  single_spaced s = true -> piece w s ->
  Forall (fun c => is_space c = true) w -> w = [] \/ w = [" "%char].
Proof.
  intros Hs (pre & suf & ->) Hw. revert Hs.
  induction pre as [|x pre IH]; intros Hs;
    [| apply IH; eapply single_spaced_tail; exact Hs].
  simpl in Hs. destruct w as [|a w]; [auto |]. right.
  pose proof (Forall_inv Hw) as Ha. apply Forall_inv_tail in Hw.
  simpl in Hs. rewrite Ha in Hs. simpl in Hs.
  apply andb_true_iff in Hs as [Hs _]. apply andb_true_iff in Hs as [Hsp Hnext].
  apply ascii_eqb_true in Hsp. subst a.
  destruct w as [|b w]; [reflexivity |].
  simpl in Hnext. rewrite (Forall_inv Hw) in Hnext. discriminate.
Qed.

Lemma single_spaced_piece p s :
  single_spaced s = true -> piece p s -> single_spaced p = true.
Proof.
  intros Hs (pre & suf & ->). revert Hs.
  induction pre as [|x pre IH]; intros Hs;
    [| apply IH; eapply single_spaced_tail; exact Hs].
  simpl in Hs. revert Hs. induction p as [|a p IH]; intros Hs; [reflexivity |].
  simpl in Hs. apply andb_true_iff in Hs as [Ha Hs]. simpl.
  rewrite (IH Hs), andb_true_r.
  destruct (is_space a); [| reflexivity]. simpl in *.
  apply andb_true_iff in Ha as [Ha Hn]. rewrite Ha. simpl.
  destruct p as [|b p]; [reflexivity | exact Hn].
Qed.

End SpacingFacts.

(** ** Parameters: directions *)

Module ParameterFacts.

Import PyStrFacts ExcFacts ReFacts FuelFacts LitFacts StripFacts ToadFacts SpacingFacts MetadataFacts.

Lemma is_space_upper c : is_space (upper_char c) = is_space c.
Proof. destruct c as [[] [] [] [] [] [] [] []]; reflexivity. Qed.

Lemma upper_char_space c : is_space c = true -> upper_char c = c.
Proof. destruct c as [[] [] [] [] [] [] [] []]; vm_compute; congruence. Qed.

Lemma upper_space_run w : Forall (fun c => is_space c = true) w -> upper w = w.
Proof.
  induction 1 as [|c w Hc Hw IH]; [reflexivity |].
  simpl. rewrite (upper_char_space c Hc). f_equal. exact IH.
Qed.

Lemma lstrip_upper s : lstrip (upper s) = upper (lstrip s).
Proof.
  induction s as [|c s IH]; [reflexivity |]. simpl.
  rewrite is_space_upper. destruct (is_space c); [exact IH | reflexivity].
Qed.

Lemma upper_rev s : upper (rev s) = rev (upper s).
Proof. unfold upper. apply map_rev. Qed.

(** Stripping and upper-casing commute. *)
Lemma strip_upper s : strip (upper s) = upper (strip s).
Proof.
  unfold strip, rstrip.
  rewrite <- upper_rev, lstrip_upper, <- upper_rev, lstrip_upper. reflexivity.
Qed.

Lemma take_add_drop {A} (l : list A) a b : take (a + b) l = take a l ++ take b (drop a l).
Proof.
  revert l. induction a as [|a IH]; intros l; [reflexivity |].
  destruct l as [|x l]; simpl; [destruct b; reflexivity |]. f_equal. apply IH.
Qed.

Lemma slice_split (s : str) i k j :
  i <= k -> k <= j -> slice s i j = slice s i k ++ slice s k j.
Proof.
  intros H1 H2. unfold slice.
  replace (j - i) with ((k - i) + (j - k)) by lia.
  rewrite take_add_drop, drop_drop. replace (i + (k - i)) with k by lia. reflexivity.
Qed.

(** The direction group of the first parameter pattern holds IN, OUT, or IN
    and OUT with white space between them, in any case. *)
Lemma direction_group param m d :
  matched true param_dir_pattern param m -> group param m 2 = Some d ->
  upper d = lit "OUT" \/ upper d = lit "IN" \/
  exists w, w <> [] /\ Forall (fun c => is_space c = true) w /\ piece w param /\
            upper d = lit "IN" ++ w ++ lit "OUT".
Proof.
  unfold matched, group. intros D Hd.
  destruct (m_caps m !! 2) as [[i j] |] eqn:E; [| discriminate].
  simpl in Hd. injection Hd as <-.
  eapply (dmatch_group_inv param true
    (fun i j =>
       upper (slice param i j) = lit "OUT" \/ upper (slice param i j) = lit "IN" \/
       exists w, w <> [] /\ Forall (fun c => is_space c = true) w /\ piece w param /\
                 upper (slice param i j) = lit "IN" ++ w ++ lit "OUT") 2); eauto.
  - constructor; [| constructor].
    intros i' g j' g' D'.
    apply dmatch_Alts in D' as [? | (r0 & Hr0 & D0)]; [discriminate |].
    destruct Hr0 as [<- | [<- | [<- | []]]].
    + right. right.
      apply dmatch_Seqs_cons in D0 as (k1 & g1 & D1 & D0).
      apply dmatch_Seqs_cons in D0 as (k2 & g2 & D2 & D3).
      pose proof (dmatch_le _ _ _ _ _ _ _ D1) as L1.
      pose proof (dmatch_le _ _ _ _ _ _ _ D3) as L3.
      apply dmatch_Lits in D1 as (_ & _ & U1 & _).
      apply dmatch_Lits in D3 as (_ & _ & U3 & _).
      apply dmatch_plus_class in D2 as (Hlt & Hspan).
      destruct (slice_span_in _ _ _ _ Hspan) as [Hlen Hall].
      exists (slice param k1 k2). split; [| split; [| split]].
      * intros Hn. rewrite Hn in Hlen. simpl in Hlen. lia.
      * exact Hall.
      * apply slice_is_piece.
      * rewrite (slice_split param i' k1 j') by lia.
        rewrite (slice_split param k1 k2 j') by lia.
        rewrite !upper_app, U1, U3, (upper_space_run _ Hall). reflexivity.
    + left. apply dmatch_Lits in D0 as (_ & _ & U & _). exact U.
    + right. left. apply dmatch_Lits in D0 as (_ & _ & U & _). exact U.
  - intros a c Hac. rewrite lookup_empty in Hac. discriminate.
Qed.

Lemma parameter_of_direction param0 p :
  single_spaced param0 = true -> parameter_of param0 = Ok (Some p) ->
  In (param_direction p) [lit "IN"; lit "OUT"; lit "IN OUT"].
Proof.
  intros Hss. unfold parameter_of.
  destruct (negb (truthy (Some (strip param0)))); [discriminate |].
  destruct (re_match true param_dir_pattern (strip param0)) as [m |] eqn:E.
  - intros H.
    apply bind_Ok in H as (d & Hd & H). apply req_Ok in Hd.
    apply bind_Ok in H as (t & Ht & H).
    apply bind_Ok in H as (n & Hn & H). injection H as <-. simpl.
    apply re_match_matched in E. rewrite <- strip_upper.
    destruct (direction_group _ _ _ E Hd) as [-> | [-> | (w & Hne & Hw & Hp & ->)]].
    + right. left. reflexivity.
    + left. reflexivity.
    + assert (Hs : single_spaced (strip param0) = true)
        by (eapply single_spaced_piece; [exact Hss | apply strip_is_piece]).
      destruct (single_spaced_run _ _ Hs Hp Hw) as [-> | ->]; [contradiction |].
      right. right. left. reflexivity.
  - destruct (re_match true param_plain_pattern (strip param0)) as [m |]; [| discriminate].
    intros H.
    apply bind_Ok in H as (t & Ht & H).
    apply bind_Ok in H as (n & Hn & H). injection H as <-. simpl. left. reflexivity.
Qed.

Lemma _parse_procedure_parameters_direction params_str ps p :
  _parse_procedure_parameters params_str = Ok ps -> In p ps ->
  In (param_direction p) [lit "IN"; lit "OUT"; lit "IN OUT"].
Proof.
  unfold _parse_procedure_parameters. intros H Hp.
  destruct (collect_In _ _ _ _ H Hp) as (param0 & Hin & Hpar).
  eapply parameter_of_direction; [| exact Hpar].
  eapply single_spaced_piece; [apply normalized_single_spaced |].
  eapply split_on_piece; exact Hin.
Qed.

(** The parameters of an extracted procedure are those of the parameter
    text of some procedure declaration. *)
Lemma procedure_parameters_origin content procs pr :
  _parse_procedures content = Ok procs -> In pr procs ->
  exists params_str, _parse_procedure_parameters params_str = Ok (proc_parameters pr).
Proof.
  unfold _parse_procedures. intros H.
  apply bind_Ok in H as (md & _ & H). revert pr.
  eapply for_each_inv with
    (P := fun procs => forall pr, In pr procs ->
            exists params_str,
              _parse_procedure_parameters params_str = Ok (proc_parameters pr));
    [| | exact H].
  - intros acc m acc' _ Hacc Hstep pr Hpr.
    apply bind_Ok in Hstep as (ps & Hps & Hstep). injection Hstep as <-.
    apply in_app_or in Hpr as [Hpr | Hpr]; [auto |].
    unfold procedures_of_package in Hps.
    apply bind_Ok in Hps as (body & _ & Hps).
    destruct (collect_In _ _ _ _ Hps Hpr) as (pm & _ & Hpm).
    unfold procedure_of_match in Hpm.
    apply bind_Ok in Hpm as (params_str & _ & Hpm).
    apply bind_Ok in Hpm as (params & Hparams & Hpm).
    apply bind_Ok in Hpm as (name & _ & Hpm).
    apply bind_Ok in Hpm as (pkg & _ & Hpm).
    injection Hpm as <-. simpl. eauto.
  - intros pr [].
Qed.

(** X18.  In a document of ASCII text, the direction of every parameter of
    every extracted procedure is IN, OUT or IN OUT, in upper case and with
    one space, however the declaration spells and spaces it.  (Outside
    ASCII, IGNORECASE lets the I of IN match U+0130, which [str.upper]
    keeps.) *)
Theorem parameter_direction_is_known (content : str) (procs : list Procedure)
    (pr : Procedure) (p : ProcedureParameter) :
  ascii_text content ->
  _parse_procedures content = Ok procs -> In pr procs -> In p (proc_parameters pr) ->
  In (param_direction p) [lit "IN"; lit "OUT"; lit "IN OUT"].
Proof.
  intros _ H Hpr Hp.
  destruct (procedure_parameters_origin _ _ _ H Hpr) as (params_str & Hps).
  eapply _parse_procedure_parameters_direction; eauto.
Qed.

Lemma parameter_direction_is_known_witness :
  exists procs pr p,
    ascii_text doc_orders /\
    _parse_procedures doc_orders = Ok procs /\ In pr procs /\
    In p (proc_parameters pr) /\
    param_name p = lit "p_cur" /\ param_direction p = lit "IN OUT" /\
    In (param_direction p) [lit "IN"; lit "OUT"; lit "IN OUT"].
Proof.
  destruct (_parse_procedures doc_orders) as [procs | e] eqn:E;
    [| vm_compute in E; discriminate].
  assert (F : exists pr rest q p,
             match _parse_procedures doc_orders with
             | Ok l => l | Raise _ => [] end = pr :: rest /\
             proc_parameters pr = [q; p] /\
             param_name p = lit "p_cur" /\ param_direction p = lit "IN OUT").
  { vm_compute. eexists _, _, _, _. repeat split. }
  destruct F as (pr & rest & q & p & F & Hps & Hn & Hd). rewrite E in F.
  assert (I : In pr procs) by (rewrite F; left; reflexivity).
  assert (J : In p (proc_parameters pr)) by (rewrite Hps; right; left; reflexivity).
  assert (A : ascii_text doc_orders) by (vm_compute; reflexivity).
  exists procs, pr, p.
  split; [exact A |]. split; [reflexivity |]. split; [exact I |]. split; [exact J |].
  split; [exact Hn |]. split; [exact Hd |].
  exact (parameter_direction_is_known doc_orders procs pr p A E I J).
Defined.

Lemma split_ws_aux_spaces s :
  Forall (fun c => is_space c = true) s -> split_ws_aux s [] = [].
Proof.
  induction 1 as [|c s Hc Hs IH]; [reflexivity |]. simpl. rewrite Hc. exact IH.
Qed.

(** X20.  A parameter text of white space only, as between the parentheses of a
    procedure without parameters, gives no parameter. *)
Theorem blank_parameter_text (params_str : str) :
  Forall (fun c => is_space c = true) params_str ->
  _parse_procedure_parameters params_str = Ok [].
Proof.
  intros H. unfold _parse_procedure_parameters, split_ws.
  rewrite (split_ws_aux_spaces _ H). reflexivity.
Qed.

Lemma blank_parameter_text_witness :
  _parse_procedure_parameters (lit " ") = Ok [] /\
  _parse_procedure_parameters [] = Ok [].
Proof.
  split.
  - apply (blank_parameter_text (lit " ")). repeat constructor.
  - apply (blank_parameter_text []). constructor.
Defined.

End ParameterFacts.

(** ** Views, procedures and column comments *)

Module ViewFacts.

Import PyStrFacts ExcFacts ReFacts FuelFacts LitFacts StripFacts ToadFacts TotalFacts.
Import ColumnFacts MetadataFacts TableFacts KeyFacts SpacingFacts ParameterFacts.

(** *** Views *)

Lemma view_of_match_fields content ds m v :
  view_of_match content ds m = Ok (Some v) ->
  group content m 2 = Some (view_name v) /\
  view_schema_name v = schema_or (group content m 1) ds /\
  (exists cs, group content m 3 = Some cs /\ view_columns v = split_columns cs) /\
  (exists sel, group content m 4 = Some sel /\ view_select_statement v = strip sel) /\
  view_comment v = None.
Proof.
  unfold view_of_match. intros H.
  apply bind_Ok in H as (cs & Hcs & H). apply req_Ok in Hcs.
  apply bind_Ok in H as (sel & Hsel & H). apply req_Ok in Hsel.
  apply bind_Ok in H as (name & Hname & H). apply req_Ok in Hname.
  injection H as <-. simpl. eauto 10.
Qed.

Lemma view_of_match_not_skipped content ds m : view_of_match content ds m <> Ok None.
Proof.
  unfold view_of_match. intros H.
  apply bind_Ok in H as (cs & Hcs & H).
  apply bind_Ok in H as (sel & Hsel & H).
  apply bind_Ok in H as (name & Hname & H). discriminate.
Qed.

Lemma _parse_views_origin content md vs :
  _parse_metadata content = Ok md -> _parse_views content = Ok vs ->
  Forall2 (fun m v => view_of_match content (default_schema_of md) m = Ok (Some v))
          (re_finditer true view_pattern content) vs.
Proof.
  unfold _parse_views. intros Hmd H. rewrite Hmd in H. simpl in H.
  apply collect_Forall2; [| exact H].
  intros m _. apply view_of_match_not_skipped.
Qed.

(** The views and the procedures of the model are those of the two
    extractors, and its schema name is the default of both. *)
Lemma parse_views now content model :
  parse now content = Ok model ->
  exists md, _parse_metadata content = Ok md /\
    schema_name model = default_schema_of md /\
    _parse_views content = Ok (views model) /\
    _parse_procedures content = Ok (procedures model).
Proof.
  unfold parse. intros H.
  apply bind_Ok in H as (md & Hmd & H).
  apply bind_Ok in H as (ts & _ & H).
  apply bind_Ok in H as (tc & _ & H).
  apply bind_Ok in H as (cc & _ & H).
  apply bind_Ok in H as (vs & Hvs & H).
  apply bind_Ok in H as (ps & Hps & H).
  apply bind_Ok in H as (pks & _ & H).
  apply bind_Ok in H as (fks & _ & H).
  injection H as <-. exists md. auto.
Qed.

(** The schema that [schema_or] gives for the qualifier group of a match. *)
Lemma schema_or_qualifier r content m ds :
  matched true r content m ->
  Forall (fun body => body = Plus true (Cls CWord)) (group_bodies 1 r) ->
  schema_or (group content m 1) ds =
  match group content m 1 with Some q => q | None => ds end.
Proof.
  intros Hm HB. unfold schema_or.
  destruct (group content m 1) as [q |] eqn:G; [| reflexivity].
  destruct (group_plus_class _ _ _ _ _ _ _ _ Hm HB G) as [Hne _].
  destruct q; [contradiction | reflexivity].
Qed.

(** X15.  The model has one view for each match of the view pattern, in document
    order: its name is that of the statement, its schema the qualifier of
    the statement or else the schema name of the model, its columns the
    split of the parenthesized list and its statement the text after AS
    without the white space at its ends.  No view has a comment. *)
Theorem views_of_document (now : Z) (content : str) (model : SchemaModel) :
  parse now content = Ok model ->
  Forall2 (fun m v =>
             group content m 2 = Some (view_name v) /\
             view_schema_name v =
               match group content m 1 with
               | Some qualifier => qualifier
               | None => schema_name model
               end /\
             (exists cs, group content m 3 = Some cs /\
                         view_columns v = split_columns cs) /\
             (exists sel, group content m 4 = Some sel /\
                          view_select_statement v = strip sel) /\
             trimmed (view_select_statement v) /\
             view_comment v = None)
          (re_finditer true view_pattern content) (views model).
Proof.
  intros H. destruct (parse_views _ _ _ H) as (md & Hmd & Hs & Hvs & _).
  eapply Forall2_impl_l;
    [exact (_parse_views_origin _ _ _ Hmd Hvs) | apply re_finditer_all_matched |].
  intros m v Hin Hmv. simpl in Hin.
  apply view_of_match_fields in Hmv as (Hn & Hsch & Hcs & (sel & Hsel & Hst) & Hc).
  split; [exact Hn |]. split.
  - rewrite Hsch, Hs. apply (schema_or_qualifier view_pattern); [exact Hin |].
    repeat constructor.
  - split; [exact Hcs |]. split; [eauto |]. split; [| exact Hc].
    rewrite Hst. apply strip_trimmed.
Qed.

Lemma views_of_document_witness :
  exists model v,
    parse 0 doc_orders = Ok model /\ views model = [v] /\
    view_name v = lit "V_ORDERS" /\ view_schema_name v = lit "SALES" /\
    view_select_statement v = lit "SELECT ID, NOTE FROM ORDERS;" /\
    trimmed (view_select_statement v) /\ view_comment v = None.
Proof.
  destruct (parse 0 doc_orders) as [model | e] eqn:E;
    [| vm_compute in E; discriminate].
  assert (F : exists v,
             match parse 0 doc_orders with
             | Ok m => views m | Raise _ => [] end = [v] /\
             view_name v = lit "V_ORDERS" /\ view_schema_name v = lit "SALES" /\
             view_select_statement v = lit "SELECT ID, NOTE FROM ORDERS;").
  { vm_compute. eexists. repeat split. }
  destruct F as (v & F & Hn & Hs & Hsel). rewrite E in F.
  exists model, v.
  split; [reflexivity |]. split; [exact F |]. split; [exact Hn |].
  split; [exact Hs |]. split; [exact Hsel |].
  pose proof (views_of_document 0 doc_orders model E) as HF.
  rewrite F in HF.
  apply Forall2_cons_inv_r in HF as (m & ms & (_ & _ & _ & _ & Ht & Hc) & _ & _).
  split; [exact Ht | exact Hc].
Defined.

(** *** Procedures *)

Lemma procedure_of_match_fields body pkg schema m p :
  procedure_of_match body pkg schema m = Ok (Some p) ->
  group body m 1 = Some (proc_name p) /\
  pkg = Some (proc_package_name p) /\
  proc_schema_name p = schema /\
  exists s, group body m 2 = Some s /\
            _parse_procedure_parameters s = Ok (proc_parameters p).
Proof.
  unfold procedure_of_match. intros H.
  apply bind_Ok in H as (s & Hs & H). apply req_Ok in Hs.
  apply bind_Ok in H as (params & Hparams & H).
  apply bind_Ok in H as (name & Hname & H). apply req_Ok in Hname.
  apply bind_Ok in H as (pk & Hpk & H). apply req_Ok in Hpk.
  injection H as <-. simpl. eauto 10.
Qed.

Lemma procedure_of_match_not_skipped body pkg schema m :
  procedure_of_match body pkg schema m <> Ok None.
Proof.
  unfold procedure_of_match. intros H.
  apply bind_Ok in H as (s & Hs & H).
  apply bind_Ok in H as (params & Hparams & H).
  apply bind_Ok in H as (name & Hname & H).
  apply bind_Ok in H as (pk & Hpk & H). discriminate.
Qed.

(** A loop that appends the results of its body collects them in order. *)
Lemma for_each_append {A B} (f : A -> result (list B)) (l : list A) :
  forall acc res,
    for_each (fun acc a => bs ← f a; mret (acc ++ bs)) l acc = Ok res ->
    exists bss, Forall2 (fun a bs => f a = Ok bs) l bss /\ res = acc ++ concat bss.
Proof.
  induction l as [|a l IH]; intros acc res H; simpl in H.
  - injection H as <-. exists []. split; [constructor |].
    simpl. rewrite app_nil_r. reflexivity.
  - apply bind_Ok in H as (acc1 & H1 & H).
    apply bind_Ok in H1 as (bs & Hbs & H1). injection H1 as <-.
    destruct (IH _ _ H) as (bss & HF & ->).
    exists (bs :: bss). split; [constructor; assumption |].
    simpl. rewrite app_assoc. reflexivity.
Qed.

(** X17.  The procedures of the model come package by package, in document order:
    one for each procedure declaration with a parenthesized parameter list
    in the body of a package specification, with the name of the
    declaration, the name of the package, the qualifier of the package or
    else the schema name of the model, and the parameters of the list. *)
Theorem procedures_by_package (now : Z) (content : str) (model : SchemaModel) :
  parse now content = Ok model ->
  exists pss,
    procedures model = concat pss /\
    Forall2 (fun m ps =>
               exists body, group content m 3 = Some body /\
                 Forall2 (fun pm p =>
                            group body pm 1 = Some (proc_name p) /\
                            group content m 2 = Some (proc_package_name p) /\
                            proc_schema_name p =
                              match group content m 1 with
                              | Some qualifier => qualifier
                              | None => schema_name model
                              end /\
                            exists s, group body pm 2 = Some s /\
                              _parse_procedure_parameters s = Ok (proc_parameters p))
                         (re_finditer true proc_pattern body) ps)
            (re_finditer true pkg_pattern content) pss.
Proof.
  intros H. destruct (parse_views _ _ _ H) as (md & Hmd & Hs & _ & Hps).
  unfold _parse_procedures in Hps. rewrite Hmd in Hps. simpl in Hps.
  apply for_each_append in Hps as (pss & HF & E). simpl in E.
  exists pss. split; [exact E |].
  eapply Forall2_impl_l; [exact HF | apply re_finditer_all_matched |].
  intros m ps Hin Hm. simpl in Hin, Hm.
  unfold procedures_of_package in Hm.
  apply bind_Ok in Hm as (body & Hbody & Hm). apply req_Ok in Hbody.
  exists body. split; [exact Hbody |].
  apply collect_Forall2 in Hm; [| intros pm _; apply procedure_of_match_not_skipped].
  eapply Forall2_impl; [exact Hm |].
  intros pm p Hp. simpl in Hp.
  apply procedure_of_match_fields in Hp as (Hn & Hpk & Hsch & Hpar).
  split; [exact Hn |]. split; [exact Hpk |]. split; [| exact Hpar].
  rewrite Hsch, Hs. apply (schema_or_qualifier pkg_pattern); [exact Hin |].
  repeat constructor.
Qed.

Lemma procedures_by_package_witness :
  exists model pss,
    parse 0 doc_orders = Ok model /\
    procedures model = concat pss /\
    map (map proc_package_name) pss =
      [[lit "ORDER_API"; lit "ORDER_API"]; [lit "AUDIT_API"]] /\
    length pss = length (re_finditer true pkg_pattern doc_orders).
Proof.
  destruct (parse 0 doc_orders) as [model | e] eqn:E;
    [| vm_compute in E; discriminate].
  destruct (procedures_by_package 0 doc_orders model E) as (pss & Hc & HF).
  exists model, pss. split; [reflexivity |]. split; [exact Hc |].
  split; [| symmetry; eapply Forall2_length; exact HF].
  assert (F : exists p1 p2 p3,
             match parse 0 doc_orders with
             | Ok m => procedures m | Raise _ => [] end = [p1; p2; p3] /\
             map proc_package_name [p1; p2; p3] =
               [lit "ORDER_API"; lit "ORDER_API"; lit "AUDIT_API"]).
  { vm_compute. eexists _, _, _. split; reflexivity. }
  destruct F as (p1 & p2 & p3 & F & Hn). rewrite E in F.
  assert (L : map length pss = [2; 1]).
  { assert (G : map (fun m => match group doc_orders m 3 with
                              | Some body => length (re_finditer true proc_pattern body)
                              | None => 0 end)
                    (re_finditer true pkg_pattern doc_orders) = [2; 1])
      by (vm_compute; reflexivity).
    rewrite <- G. clear -HF.
    induction HF as [|m ps ms pss' (body & Hb & Hps) HF IH]; [reflexivity |].
    simpl. rewrite Hb, IH. f_equal. symmetry. eapply Forall2_length. exact Hps. }
  rewrite F in Hc.
  destruct pss as [|[|a [|b [|? ?]]] [|[|c [|? ?]] [|? ?]]]; try discriminate L.
  simpl in Hc. injection Hc as <- <- <-.
  simpl in Hn |- *. injection Hn as -> -> ->. reflexivity.
Defined.

(** *** Column comments *)

Lemma column_comment_step_Ok content acc m acc' :
  column_comment_step content acc m = Ok acc' ->
  exists t c text,
    group content m 1 = Some t /\ group content m 2 = Some c /\
    group content m 3 = Some text /\
    acc' = <[t := <[c := unescape text]> (default ∅ (acc !! t))]> acc.
Proof.
  unfold column_comment_step. intros H.
  apply bind_Ok in H as (t & Ht & H). apply req_Ok in Ht.
  apply bind_Ok in H as (text & Htext & H). apply req_Ok in Htext.
  apply bind_Ok in H as (c & Hc & H). apply req_Ok in Hc.
  injection H as <-. eauto 10.
Qed.

Lemma column_comment_loop_other content (t c : str) (ms : list rmatch_obj) :
  (forall m, In m ms -> ~ (group content m 1 = Some t /\ group content m 2 = Some c)) ->
  forall acc cc, for_each (column_comment_step content) ms acc = Ok cc ->
  default ∅ (cc !! t) !! c = default ∅ (acc !! t) !! c.
Proof.
  intros Hms acc cc H.
  eapply for_each_inv with
    (P := fun a : gmap str (gmap str str) =>
            default ∅ (a !! t) !! c = default ∅ (acc !! t) !! c);
    [| reflexivity | exact H].
  intros a m a' Hm Ha Hstep.
  apply column_comment_step_Ok in Hstep as (t' & c' & text & Ht' & Hc' & _ & ->).
  destruct (decide (t' = t)) as [-> | Hne].
  - rewrite lookup_insert_eq. simpl.
    rewrite lookup_insert_ne; [exact Ha |].
    intros ->. exact (Hms m Hm (conj Ht' Hc')).
  - rewrite lookup_insert_ne; [exact Ha | exact Hne].
Qed.

(** X13.  The comment recorded for a column of a table name is the unescaped text
    of the last comment statement for that table name and column name in
    document order, whatever the schema the statement names; a pair without
    a statement has no comment. *)
Theorem column_comment_last_match_wins (content : str)
    (cc : gmap str (gmap str str)) (t c : str) :
  _parse_column_comments content = Ok cc ->
  (forall ms1 m ms2,
      re_finditer true column_comment_pattern content = ms1 ++ m :: ms2 ->
      group content m 1 = Some t -> group content m 2 = Some c ->
      (forall m', In m' ms2 ->
         ~ (group content m' 1 = Some t /\ group content m' 2 = Some c)) ->
      exists text, group content m 3 = Some text /\
                   default ∅ (cc !! t) !! c = Some (unescape text)) /\
  ((forall m, In m (re_finditer true column_comment_pattern content) ->
              ~ (group content m 1 = Some t /\ group content m 2 = Some c)) ->
   default ∅ (cc !! t) !! c = None).
Proof.
  unfold _parse_column_comments. intros H. split.
  - intros ms1 m ms2 E Ht Hc Hlater. rewrite E, for_each_app in H.
    apply bind_Ok in H as (acc1 & _ & H). simpl in H.
    apply bind_Ok in H as (acc2 & Hstep & H).
    apply column_comment_step_Ok in Hstep as (t' & c' & text & Ht' & Hc' & Htext & ->).
    exists text. split; [exact Htext |].
    rewrite (column_comment_loop_other content t c ms2 Hlater _ _ H).
    assert (t' = t) as -> by congruence. assert (c' = c) as -> by congruence.
    rewrite lookup_insert_eq. simpl. apply lookup_insert_eq.
  - intros Hnone. rewrite (column_comment_loop_other content t c _ Hnone _ _ H).
    rewrite lookup_empty. simpl. apply lookup_empty.
Qed.

Lemma column_comment_last_match_wins_witness :
  exists cc,
    _parse_column_comments doc_orders = Ok cc /\
    default ∅ (cc !! lit "ORDERS") !! lit "NOTE" = Some (lit "it's free text").
Proof.
  destruct (_parse_column_comments doc_orders) as [cc | e] eqn:E;
    [| vm_compute in E; discriminate].
  exists cc. split; [reflexivity |].
  destruct (column_comment_last_match_wins doc_orders cc (lit "ORDERS") (lit "NOTE") E)
    as (Hlast & _).
  assert (F : exists m1 m2,
             re_finditer true column_comment_pattern doc_orders = [m1; m2] /\
             group doc_orders m2 1 = Some (lit "ORDERS") /\
             group doc_orders m2 2 = Some (lit "NOTE") /\
             group doc_orders m2 3 = Some (lit "it''s free text")).
  { vm_compute. eexists _, _. repeat split. }
  destruct F as (m1 & m2 & F & G1 & G2 & G3).
  destruct (Hlast [m1] m2 [] F G1 G2) as (text & Htext & Hcc); [intros m' [] |].
  rewrite G3 in Htext. injection Htext as <-. exact Hcc.
Defined.

End ViewFacts.

(** ** The commands of [cli.py] *)

Module CliFacts.

Import PyStrFacts ExcFacts ReFacts FuelFacts LitFacts StripFacts ToadFacts.
Import TableFacts ViewFacts.

Section Sorting.
Context {A : Type} (key : A -> Z).

Lemma insert_desc_perm x l : Permutation (x :: l) (insert_desc key x l).
Proof.
  induction l as [|y r IH]; simpl; [reflexivity |].
  destruct (key y <=? key x)%Z; [reflexivity |].
  rewrite perm_swap. constructor. exact IH.
Qed.

Lemma sorted_desc_perm l : Permutation l (sorted_desc key l).
Proof.
  induction l as [|x r IH]; simpl; [reflexivity |].
  rewrite <- insert_desc_perm. constructor. exact IH.
Qed.

Lemma insert_desc_sorted x l :
  StronglySorted (fun a b => (key b <= key a)%Z) l ->
  StronglySorted (fun a b => (key b <= key a)%Z) (insert_desc key x l).
Proof.
  induction 1 as [|y r Hr IH Hy]; simpl; [repeat constructor |].
  destruct (key y <=? key x)%Z eqn:E.
  - apply Z.leb_le in E. constructor; [constructor; assumption |].
    constructor; [exact E |].
    eapply Forall_impl; [exact Hy |]. simpl. intros; lia.
  - apply Z.leb_gt in E. constructor; [exact IH |].
    apply (Permutation_Forall (insert_desc_perm x r)).
    constructor; [lia | exact Hy].
Qed.

Lemma sorted_desc_sorted l :
  StronglySorted (fun a b => (key b <= key a)%Z) (sorted_desc key l).
Proof.
  induction l as [|x r IH]; simpl; [constructor |]. apply insert_desc_sorted, IH.
Qed.

(** The sort is stable: the elements of one key keep their order. *)
Lemma insert_desc_filter k x l :
  List.filter (fun a => bool_decide (key a = k)) (insert_desc key x l) =
  List.filter (fun a => bool_decide (key a = k)) (x :: l).
Proof.
  induction l as [|y r IH]; [reflexivity |]. simpl insert_desc.
  destruct (key y <=? key x)%Z eqn:E; [reflexivity |].
  apply Z.leb_gt in E. simpl in *. rewrite IH.
  destruct (bool_decide (key x = k)) eqn:Ex; [| reflexivity].
  apply bool_decide_eq_true in Ex.
  rewrite bool_decide_eq_false_2 by lia. reflexivity.
Qed.

Lemma sorted_desc_stable k l :
  List.filter (fun a => bool_decide (key a = k)) (sorted_desc key l) =
  List.filter (fun a => bool_decide (key a = k)) l.
Proof.
  induction l as [|x r IH]; [reflexivity |]. simpl sorted_desc.
  rewrite insert_desc_filter. simpl. rewrite IH. reflexivity.
Qed.

Lemma StronglySorted_take_drop (R : A -> A -> Prop) n l :
  StronglySorted R l ->
  StronglySorted R (take n l) /\
  Forall (fun b => Forall (fun a => R a b) (take n l)) (drop n l).
Proof.
  intros H. revert n. induction H as [|x l Hl IH Hx]; intros n.
  - destruct n; simpl; split; constructor.
  - destruct n as [|n]; simpl.
    + split; [constructor |]. constructor; [constructor |].
      apply Forall_forall. intros; constructor.
    + destruct (IH n) as [Hs Hd]. split.
      * constructor; [exact Hs |]. apply Forall_take. exact Hx.
      * apply Forall_forall. intros b Hb. constructor.
        -- rewrite Forall_forall in Hx. apply Hx.
           apply (subseteq_drop n l). exact Hb.
        -- rewrite Forall_forall in Hd. apply Hd. exact Hb.
Qed.

End Sorting.

(** X22.  The ten tables that [analyze] lists are tables of the model, at most ten
    and all of them when there are fewer, in the order of decreasing row
    count; no table left out has more rows than a listed one, and tables of
    the same row count stay in the order of the model. *)
Theorem top_tables_are_the_largest (model : SchemaModel) :
  exists others,
    Permutation (tables model) (top_tables model ++ others) /\
    length (top_tables model) = min 10 (length (tables model)) /\
    StronglySorted (fun a b => (tbl_row_count b <= tbl_row_count a)%Z) (top_tables model) /\
    Forall (fun o => Forall (fun t => (tbl_row_count o <= tbl_row_count t)%Z)
                            (top_tables model)) others /\
    (forall k, List.filter (fun t => bool_decide (tbl_row_count t = k))
                           (top_tables model ++ others) =
               List.filter (fun t => bool_decide (tbl_row_count t = k)) (tables model)).
Proof.
  unfold top_tables.
  exists (drop 10 (sorted_desc tbl_row_count (tables model))).
  destruct (StronglySorted_take_drop
              (fun a b => (tbl_row_count b <= tbl_row_count a)%Z) 10 _
              (sorted_desc_sorted tbl_row_count (tables model))) as [Hs Hd].
  split; [rewrite take_drop; apply sorted_desc_perm |].
  split; [| split; [exact Hs | split; [exact Hd |]]].
  - rewrite length_take.
    rewrite <- (Permutation_length (sorted_desc_perm tbl_row_count _)). reflexivity.
  - intros k. rewrite take_drop. apply sorted_desc_stable.
Qed.

(** *** Counting and looking up *)

(** The keys of a table of the model are the entries of its name. *)
Lemma parse_table_keys now content model :
  parse now content = Ok model ->
  exists pks fks,
    _parse_primary_keys content = Ok pks /\
    _parse_foreign_keys content = Ok fks /\
    Forall (fun t => tbl_primary_key t = pks !! tbl_name t /\
                     tbl_foreign_keys t = default [] (fks !! tbl_name t))
           (tables model).
Proof.
  intros H.
  destruct (parse_tables _ _ _ H) as (ts & tc & cc & pks & fks & Hts & _ & _ & Hpks & Hfks & E).
  exists pks, fks. split; [exact Hpks | split; [exact Hfks |]].
  rewrite E. apply Forall_map. apply Forall_forall. intros t0 Ht0.
  apply list_elem_of_In in Ht0.
  destruct (_parse_tables_fresh _ _ _ Hts Ht0) as (_ & Hpk & Hfk).
  unfold merge_table. simpl. rewrite Hpk, Hfk.
  split; [destruct (pks !! tbl_name t0) | destruct (fks !! tbl_name t0)]; reflexivity.
Qed.

Lemma filter_length_ext {A} (f g : A -> bool) l :
  Forall (fun a => f a = g a) l -> length (List.filter f l) = length (List.filter g l).
Proof.
  induction 1 as [|a l Ha Hl IH]; [reflexivity |]. simpl. rewrite Ha.
  destruct (g a); simpl; rewrite IH; reflexivity.
Qed.

Lemma list_sum_map_ext {A} (f g : A -> nat) l :
  Forall (fun a => f a = g a) l -> list_sum (map f l) = list_sum (map g l).
Proof. induction 1 as [|a l Ha Hl IH]; [reflexivity |]. simpl. rewrite Ha, IH. reflexivity. Qed.

(** X23.  The counts of [analyze] go by table name: a table counts as having a
    primary key when a statement gives one to its name, and a foreign key is
    counted once for every table of its name, so that two tables of one name
    in two schemas count a key twice.  The procedures counted for their REF
    CURSOR are those with a parameter that passes the test for it. *)
Theorem analyze_counts_by_name (now : Z) (content : str) (model : SchemaModel) :
  parse now content = Ok model ->
  exists pks fks,
    _parse_primary_keys content = Ok pks /\
    _parse_foreign_keys content = Ok fks /\
    tables_with_pk model =
      length (List.filter (fun t => bool_decide (is_Some (pks !! tbl_name t))) (tables model)) /\
    total_fks model =
      list_sum (map (fun t => length (default [] (fks !! tbl_name t))) (tables model)) /\
    tables_with_pk model <= length (tables model) /\
    refcursor_procs model =
      length (List.filter (fun p => existsb is_refcursor_out (proc_parameters p))
                          (procedures model)).
Proof.
  intros H. destruct (parse_table_keys _ _ _ H) as (pks & fks & Hpks & Hfks & HF).
  exists pks, fks. split; [exact Hpks | split; [exact Hfks |]].
  unfold tables_with_pk, total_fks. split; [| split; [| split]].
  - apply filter_length_ext. eapply Forall_impl; [exact HF |].
    intros t [-> _]. reflexivity.
  - apply list_sum_map_ext. eapply Forall_impl; [exact HF |].
    intros t [_ ->]. reflexivity.
  - apply filter_length_le.
  - destruct (parse_views _ _ _ H) as (md & _ & _ & _ & Hps).
    unfold refcursor_procs. apply filter_length_ext. apply Forall_forall.
    intros p Hp. apply list_elem_of_In in Hp.
    apply (_parse_procedures_flag _ _ _ Hps Hp).
Qed.

Lemma analyze_counts_by_name_witness :
  exists model,
    parse 0 doc_two_schemas = Ok model /\
    length (tables model) = 2 /\
    tables_with_pk model = 2 /\ total_fks model = 2 /\
    exists pks fks,
      _parse_primary_keys doc_two_schemas = Ok pks /\
      _parse_foreign_keys doc_two_schemas = Ok fks /\
      tables_with_pk model =
        length (List.filter (fun t => bool_decide (is_Some (pks !! tbl_name t)))
                            (tables model)) /\
      total_fks model =
        list_sum (map (fun t => length (default [] (fks !! tbl_name t))) (tables model)).
Proof.
  destruct (parse 0 doc_two_schemas) as [model | e] eqn:E;
    [| vm_compute in E; discriminate].
  assert (F : match parse 0 doc_two_schemas with
              | Ok m => (length (tables m), tables_with_pk m, total_fks m)
              | Raise _ => (0, 0, 0) end = (2, 2, 2))
    by (vm_compute; reflexivity).
  rewrite E in F. injection F as F1 F2 F3.
  exists model. split; [reflexivity |]. split; [exact F1 |].
  split; [exact F2 |]. split; [exact F3 |].
  destruct (analyze_counts_by_name 0 doc_two_schemas model E)
    as (pks & fks & Hpks & Hfks & H1 & H2 & _).
  exists pks, fks. auto.
Defined.

Lemma find_none_iff {A} (f : A -> bool) l :
  List.find f l = None <-> forall x, In x l -> f x = false.
Proof.
  split; [apply find_none |].
  induction l as [|a l IH]; intros H; [reflexivity |]. simpl.
  rewrite (H a (or_introl eq_refl)). apply IH. intros x Hx. apply H. right. exact Hx.
Qed.

Lemma find_first {A} (f : A -> bool) l x :
  List.find f l = Some x ->
  exists l1 l2, l = l1 ++ x :: l2 /\ f x = true /\ forall y, In y l1 -> f y = false.
Proof.
  induction l as [|a l IH]; [discriminate |]. simpl.
  destruct (f a) eqn:E.
  - intros [= <-]. exists [], l. repeat split; auto. intros y [].
  - intros H. destruct (IH H) as (l1 & l2 & -> & Hx & Hl1).
    exists (a :: l1), l2. repeat split; auto.
    intros y [<- | Hy]; auto.
Qed.

(** The names of the tables of the model are the names of the blocks. *)
Lemma parse_table_names now content model :
  parse now content = Ok model ->
  map (fun t => Some (tbl_name t)) (tables model) =
  map (fun m => group content m 2) (re_finditer true table_pattern content).
Proof.
  intros H.
  destruct (parse_tables _ _ _ H) as (ts & tc & cc & pks & fks & Hts & _ & _ & _ & _ & E).
  rewrite E, map_map. simpl.
  destruct (TotalFacts._parse_metadata_total content) as [md Hmd].
  pose proof (_parse_tables_origin _ _ _ Hmd Hts) as HF.
  clear Hts E.
  induction HF as [|m t ms ts' Hmt HF IH]; [reflexivity |]. simpl.
  apply table_of_match_fields in Hmt as (Hn & _). rewrite Hn. f_equal. exact IH.
Qed.

(** X24.  [describe] looks a table up by its name without regard to case, in the
    query as in the document, and takes the first one in document order; it
    finds none exactly when no table block of the document has that name. *)
Theorem find_table_by_name (now : Z) (content : str) (model : SchemaModel) (query : str) :
  parse now content = Ok model ->
  (forall t, find_table model query = Some t ->
     upper (tbl_name t) = upper query /\
     exists before after, tables model = before ++ t :: after /\
       forall t', In t' before -> upper (tbl_name t') <> upper query) /\
  (find_table model query = None <->
   forall m name, In m (re_finditer true table_pattern content) ->
                  group content m 2 = Some name -> upper name <> upper query) /\
  find_table model (upper query) = find_table model query.
Proof.
  intros H. unfold find_table. split; [| split].
  - intros t Ht. apply find_first in Ht as (l1 & l2 & E & Hx & Hl1).
    apply str_eqb_true in Hx. split; [exact Hx |].
    exists l1, l2. split; [exact E |].
    intros t' Ht' Heq. specialize (Hl1 t' Ht').
    apply str_eqb_true in Heq. congruence.
  - rewrite find_none_iff. pose proof (parse_table_names _ _ _ H) as Hn. split.
    + intros Hnone m name Hm Hg Heq.
      assert (Hin : In (Some name) (map (fun t => Some (tbl_name t)) (tables model))).
      { rewrite Hn, <- Hg. apply (in_map (fun m => group content m 2)). exact Hm. }
      apply in_map_iff in Hin as (t & [= <-] & Ht).
      specialize (Hnone t Ht). apply str_eqb_true in Heq. congruence.
    + intros Hnone t Ht.
      assert (Hin : In (Some (tbl_name t)) (map (fun m => group content m 2)
                        (re_finditer true table_pattern content))).
      { rewrite <- Hn. apply (in_map (fun t => Some (tbl_name t))). exact Ht. }
      apply in_map_iff in Hin as (m & Hg & Hm).
      destruct (str_eqb (upper (tbl_name t)) (upper query)) eqn:E; [| reflexivity].
      apply str_eqb_true in E. exfalso. exact (Hnone m _ Hm Hg E).
  - rewrite LitFacts.upper_idempotent. reflexivity.
Qed.

Lemma find_table_by_name_witness :
  exists model t,
    parse 0 doc_orders = Ok model /\
    find_table model (lit "orders") = Some t /\
    tbl_name t = lit "ORDERS" /\
    upper (tbl_name t) = upper (lit "orders") /\
    find_table model (upper (lit "orders")) = find_table model (lit "orders").
Proof.
  destruct (parse 0 doc_orders) as [model | e] eqn:E;
    [| vm_compute in E; discriminate].
  assert (F : exists t,
             match parse 0 doc_orders with
             | Ok m => find_table m (lit "orders") | Raise _ => None end = Some t /\
             tbl_name t = lit "ORDERS").
  { vm_compute. eexists. split; reflexivity. }
  destruct F as (t & F & Hn). rewrite E in F.
  destruct (find_table_by_name 0 doc_orders model (lit "orders") E) as (Hsome & _ & Hup).
  exists model, t. split; [reflexivity |]. split; [exact F |]. split; [exact Hn |].
  split; [exact (proj1 (Hsome t F)) | exact Hup].
Defined.

End CliFacts.

(** ** Parameter texts, and the lookup of procedures *)

Module LookupFacts.

Import PyStrFacts ExcFacts ReFacts FuelFacts LitFacts StripFacts ToadFacts TotalFacts.
Import ColumnFacts MetadataFacts TableFacts KeyFacts SpacingFacts ParameterFacts.
Import CliFacts ViewFacts.

(** *** The text of a parameter *)

Lemma piece_not_In (c : ascii) (p s : str) : piece p s -> ~ In c s -> ~ In c p.
Proof.
  intros (pre & suf & ->) H Hin. apply H.
  apply in_or_app. right. apply in_or_app. left. exact Hin.
Qed.

Lemma parameter_of_fields param0 p :
  parameter_of param0 = Ok (Some p) ->
  param_name p <> [] /\ Forall (fun c => is_word c = true) (param_name p) /\
  piece (param_name p) param0 /\
  trimmed (param_data_type p) /\ piece (param_data_type p) param0.
Proof.
  unfold parameter_of.
  destruct (negb (truthy (Some (strip param0)))); [discriminate |].
  destruct (re_match true param_dir_pattern (strip param0)) as [m |] eqn:E.
  - intros H.
    apply bind_Ok in H as (d & Hd & H).
    apply bind_Ok in H as (t & Ht & H). apply req_Ok in Ht.
    apply bind_Ok in H as (n & Hn & H). apply req_Ok in Hn.
    injection H as <-. simpl.
    apply re_match_matched in E.
    assert (HB : Forall (fun body => body = Plus true (Cls CWord))
                   (group_bodies 1 param_dir_pattern)) by (repeat constructor).
    destruct (group_plus_class _ _ _ _ _ _ _ _ E HB Hn) as [Hne Hw].
    split; [exact Hne |]. split; [exact Hw |]. split; [| split].
    + eapply piece_trans; [apply (group_substring _ _ _ _ Hn) | apply strip_is_piece].
    + apply strip_trimmed.
    + eapply piece_trans; [apply strip_is_piece |].
      eapply piece_trans; [apply (group_substring _ _ _ _ Ht) | apply strip_is_piece].
  - destruct (re_match true param_plain_pattern (strip param0)) as [m |] eqn:F;
      [| discriminate].
    intros H.
    apply bind_Ok in H as (t & Ht & H). apply req_Ok in Ht.
    apply bind_Ok in H as (n & Hn & H). apply req_Ok in Hn.
    injection H as <-. simpl.
    apply re_match_matched in F.
    assert (HB : Forall (fun body => body = Plus true (Cls CWord))
                   (group_bodies 1 param_plain_pattern)) by (repeat constructor).
    destruct (group_plus_class _ _ _ _ _ _ _ _ F HB Hn) as [Hne Hw].
    split; [exact Hne |]. split; [exact Hw |]. split; [| split].
    + eapply piece_trans; [apply (group_substring _ _ _ _ Hn) | apply strip_is_piece].
    + apply strip_trimmed.
    + eapply piece_trans; [apply strip_is_piece |].
      eapply piece_trans; [apply (group_substring _ _ _ _ Ht) | apply strip_is_piece].
Qed.

(** X19.  The name of every parameter is a non-empty word; its data type has no
    white space at its ends, no comma, and no white space within but single
    spaces, however many lines and blanks the declaration spreads over. *)
Theorem parameter_text_normalized (params_str : str) (ps : list ProcedureParameter)
    (p : ProcedureParameter) :
  _parse_procedure_parameters params_str = Ok ps -> In p ps ->
  param_name p <> [] /\
  Forall (fun c => is_word c = true) (param_name p) /\
  trimmed (param_data_type p) /\
  single_spaced (param_data_type p) = true /\
  ~ In ","%char (param_data_type p).
Proof.
  unfold _parse_procedure_parameters. intros H Hp.
  destruct (collect_In _ _ _ _ H Hp) as (param0 & Hin & Hpar).
  destruct (parameter_of_fields _ _ Hpar) as (Hne & Hw & _ & Htr & Hpc).
  split; [exact Hne |]. split; [exact Hw |]. split; [exact Htr |]. split.
  - eapply single_spaced_piece; [| exact Hpc].
    eapply single_spaced_piece; [apply normalized_single_spaced |].
    eapply split_on_piece; exact Hin.
  - eapply piece_not_In; [exact Hpc |].
    assert (HT : Forall (fun _ : ascii => True) (join (lit " ") (split_ws params_str)))
      by (apply Forall_forall; auto).
    pose proof (split_on_pieces ","%char (fun _ => True) _ HT) as HF.
    rewrite Forall_forall in HF.
    apply (HF param0). apply list_elem_of_In. exact Hin.
Qed.

Lemma parameter_text_normalized_witness :
  exists ps q p,
    _parse_procedure_parameters params_orders = Ok ps /\ ps = [q; p] /\
    param_data_type p = lit "sys_refcursor" /\
    param_name p <> [] /\
    Forall (fun c => is_word c = true) (param_name p) /\
    trimmed (param_data_type p) /\
    single_spaced (param_data_type p) = true /\
    ~ In ","%char (param_data_type p).
Proof.
  assert (F : exists q p,
             _parse_procedure_parameters params_orders = Ok [q; p] /\
             param_data_type p = lit "sys_refcursor").
  { vm_compute. eexists _, _. split; reflexivity. }
  destruct F as (q & p & E & Ht).
  assert (I : In p [q; p]) by (right; left; reflexivity).
  exists [q; p], q, p. split; [exact E |]. split; [reflexivity |]. split; [exact Ht |].
  exact (parameter_text_normalized params_orders [q; p] p E I).
Defined.

(** *** Looking a procedure up *)

Lemma split_first_app (sep : ascii) (a b : str) :
  ~ In sep a -> split_first sep (a ++ sep :: b) = [a; b].
Proof.
  induction a as [|c a IH]; intros H; simpl.
  - assert (E : ascii_eqb sep sep = true) by (apply ascii_eqb_true; reflexivity).
    rewrite E. reflexivity.
  - destruct (ascii_eqb c sep) eqn:E.
    + apply ascii_eqb_true in E. exfalso. apply H. left. exact E.
    + rewrite IH; [reflexivity |]. intros Hin. apply H. right. exact Hin.
Qed.

Lemma has_dot_In (s : str) :
  existsb (fun c => ascii_eqb c "."%char) s = true <-> In "."%char s.
Proof.
  rewrite existsb_exists. split.
  - intros (c & Hc & E). apply ascii_eqb_true in E. subst c. exact Hc.
  - intros H. exists "."%char. split; [exact H | apply ascii_eqb_true; reflexivity].
Qed.

Lemma first_dot (s : str) :
  In "."%char s -> exists a b, s = a ++ "."%char :: b /\ ~ In "."%char a.
Proof.
  induction s as [|c s IH]; intros H; [destruct H |].
  destruct (ascii_eqb c "."%char) eqn:E.
  - apply ascii_eqb_true in E. subst c. exists [], s. split; [reflexivity | intros []].
  - destruct H as [-> | H].
    + assert (T : ascii_eqb "."%char "."%char = true) by (apply ascii_eqb_true; reflexivity).
      congruence.
    + destruct (IH H) as (a & b & -> & Ha). exists (c :: a), b.
      split; [reflexivity |]. intros [-> | Hin]; [| exact (Ha Hin)].
      assert (T : ascii_eqb "."%char "."%char = true) by (apply ascii_eqb_true; reflexivity).
      congruence.
Qed.

Lemma upper_char_dot c : upper_char c = "."%char -> c = "."%char.
Proof. destruct c as [[] [] [] [] [] [] [] []]; vm_compute; congruence. Qed.

Lemma upper_dot_free (s : str) : ~ In "."%char s -> ~ In "."%char (upper s).
Proof.
  intros H Hin. apply H. unfold upper in Hin.
  apply in_map_iff in Hin as (c & E & Hc). apply upper_char_dot in E. subst c. exact Hc.
Qed.

Lemma upper_has_dot (s : str) : In "."%char s -> In "."%char (upper s).
Proof. intros H. apply (in_map upper_char) in H. exact H. Qed.

Lemma word_dot_free (s : str) : Forall (fun c => is_word c = true) s -> ~ In "."%char s.
Proof.
  intros H Hin. rewrite Forall_forall in H.
  apply list_elem_of_In in Hin. specialize (H _ Hin). vm_compute in H. discriminate.
Qed.

(** The name of every procedure of the model is a word. *)
Lemma procedure_name_word now content model p :
  parse now content = Ok model -> In p (procedures model) ->
  Forall (fun c => is_word c = true) (proc_name p).
Proof.
  intros H Hp. destruct (parse_views _ _ _ H) as (md & Hmd & _ & _ & Hps).
  unfold _parse_procedures in Hps. rewrite Hmd in Hps. simpl in Hps.
  apply for_each_append in Hps as (pss & HF & E). simpl in E. rewrite E in Hp.
  apply in_concat in Hp as (ps & Hps & Hp).
  apply list_elem_of_In in Hps.
  destruct (proj1 (list_elem_of_lookup pss ps) Hps) as [i Hi].
  destruct (Forall2_lookup_r _ _ _ _ _ HF Hi) as (m & _ & Hm). simpl in Hm.
  unfold procedures_of_package in Hm.
  apply bind_Ok in Hm as (body & _ & Hm).
  destruct (collect_In _ _ _ _ Hm Hp) as (pm & Hpm & Hproc).
  apply procedure_of_match_fields in Hproc as (Hn & _).
  apply re_finditer_matched in Hpm.
  assert (HB : Forall (fun body => body = Plus true (Cls CWord))
                 (group_bodies 1 proc_pattern)) by (repeat constructor).
  destruct (group_plus_class _ _ _ _ _ _ _ _ Hpm HB Hn) as [_ Hw]. exact Hw.
Qed.

(** X25.  [describe_procedure] never fails on the unpacking of the split name.  A
    name without a dot is looked up among the procedure names of all
    packages; a name with a dot is cut at its first dot into a package name
    and a procedure name, and both must agree; case is disregarded
    throughout.  A name with two dots finds nothing. *)
Theorem find_procedure_lookup (now : Z) (content : str) (model : SchemaModel)
    (query : str) :
  parse now content = Ok model ->
  exists r, find_procedure model query = Ok r /\
    (~ In "."%char query ->
       (forall p, r = Some p ->
          In p (procedures model) /\ upper (proc_name p) = upper query) /\
       (r = None <->
        forall p, In p (procedures model) -> upper (proc_name p) <> upper query)) /\
    (forall pkg name, query = pkg ++ "."%char :: name -> ~ In "."%char pkg ->
       (forall p, r = Some p ->
          In p (procedures model) /\
          upper (proc_package_name p) = upper pkg /\ upper (proc_name p) = upper name) /\
       (r = None <->
        forall p, In p (procedures model) ->
          ~ (upper (proc_package_name p) = upper pkg /\
             upper (proc_name p) = upper name)) /\
       (In "."%char name -> r = None)).
Proof.
  intros H. unfold find_procedure.
  destruct (existsb (fun c => ascii_eqb c "."%char) query) eqn:E.
  - apply has_dot_In in E. destruct (first_dot _ E) as (a & b & -> & Ha).
    rewrite upper_app. change (upper ("."%char :: b)) with ("."%char :: upper b).
    rewrite (split_first_app _ _ _ (upper_dot_free _ Ha)).
    eexists. split; [reflexivity |]. split; [intros Hno; contradiction |].
    intros pkg name Eq Hpkg.
    assert (pkg = a /\ name = b) as [-> ->].
    { pose proof (split_first_app "."%char a b Ha) as S1.
      pose proof (split_first_app "."%char pkg name Hpkg) as S2.
      rewrite Eq in S1. rewrite S1 in S2. injection S2 as -> ->. auto. }
    split; [| split].
    + intros p Hp. apply find_some in Hp as [Hin Hp].
      apply andb_true_iff in Hp as [H1 H2].
      apply str_eqb_true in H1. apply str_eqb_true in H2. auto.
    + split.
      * intros Hn p Hp [H1 H2].
        pose proof (find_none _ _ Hn p Hp) as Hf. simpl in Hf.
        apply str_eqb_true in H1. apply str_eqb_true in H2.
        rewrite H1, H2 in Hf. discriminate.
      * intros Hn. apply find_none_iff. intros p Hp.
        destruct (str_eqb (upper (proc_package_name p)) (upper a)) eqn:E1;
          [| reflexivity].
        destruct (str_eqb (upper (proc_name p)) (upper b)) eqn:E2; [| reflexivity].
        apply str_eqb_true in E1. apply str_eqb_true in E2.
        exfalso. exact (Hn p Hp (conj E1 E2)).
    + intros Hdot. apply find_none_iff. intros p Hp.
      destruct (str_eqb (upper (proc_name p)) (upper b)) eqn:E2;
        [| apply andb_false_r].
      apply str_eqb_true in E2. exfalso.
      apply (upper_dot_free (proc_name p)).
      * apply word_dot_free. eapply procedure_name_word; eauto.
      * rewrite E2. apply upper_has_dot. exact Hdot.
  - eexists. split; [reflexivity |]. split.
    + intros _. split.
      * intros p Hp. apply find_some in Hp as [Hin Hp].
        apply str_eqb_true in Hp. auto.
      * split.
        -- intros Hn p Hp Heq.
           pose proof (find_none _ _ Hn p Hp) as Hf. simpl in Hf.
           apply str_eqb_true in Heq. congruence.
        -- intros Hn. apply find_none_iff. intros p Hp.
           destruct (str_eqb (upper (proc_name p)) (upper query)) eqn:E1;
             [| reflexivity].
           apply str_eqb_true in E1. exfalso. exact (Hn p Hp E1).
    + intros pkg name -> Hpkg. exfalso.
      assert (Hin : In "."%char (pkg ++ "."%char :: name))
        by (apply in_or_app; right; left; reflexivity).
      apply has_dot_In in Hin. congruence.
Qed.

Lemma find_procedure_lookup_witness :
  exists model p,
    parse 0 doc_orders = Ok model /\
    find_procedure model (lit "audit_api.purge") = Ok (Some p) /\
    proc_package_name p = lit "AUDIT_API" /\
    upper (proc_package_name p) = upper (lit "audit_api") /\
    upper (proc_name p) = upper (lit "purge").
Proof.
  destruct (parse 0 doc_orders) as [model | e] eqn:E;
    [| vm_compute in E; discriminate].
  assert (F : exists p,
             match parse 0 doc_orders with
             | Ok m => find_procedure m (lit "audit_api.purge")
             | Raise e => Raise e end = Ok (Some p) /\
             proc_package_name p = lit "AUDIT_API").
  { vm_compute. eexists. split; reflexivity. }
  destruct F as (p & F & Hn). rewrite E in F.
  destruct (find_procedure_lookup 0 doc_orders model (lit "audit_api.purge") E)
    as (r & Hr & _ & Hdot).
  rewrite F in Hr. injection Hr as <-.
  destruct (Hdot (lit "audit_api") (lit "purge") eq_refl) as (Hsome & _).
  { vm_compute. intros H. repeat (destruct H as [H | H]; [discriminate H |]). exact H. }
  destruct (Hsome p eq_refl) as (_ & H1 & H2).
  exists model, p. split; [reflexivity |]. split; [exact F |]. split; [exact Hn |].
  split; [exact H1 | exact H2].
Defined.

End LookupFacts.

(** ** The trailing text of a column, and nullability *)

Module NullableFacts.

Import PyStrFacts ExcFacts ReFacts FuelFacts ToadFacts LitFacts ParameterFacts.

Section Greedy.
Variable s : str.
Variable ic : bool.

(** Every match object of the scan comes from a run of the matcher at a
    position of the subject. *)
Lemma search_from_origin (r : regex) (fuel : nat) :
  forall c c' m, cur_ok s c -> search_from ic r fuel c = Some (c', m) ->
  exists c0, cur_ok s c0 /\ match_at ic r c0 = Some (c', m).
Proof.
  induction fuel as [|fuel IH]; intros c c' m Hc H; simpl in H.
  - destruct (match_at ic r c) as [res|] eqn:E; [| discriminate].
    injection H as ->. eauto.
  - destruct (match_at ic r c) as [res|] eqn:E.
    + injection H as ->. eauto.
    + destruct (rest c) as [|x t] eqn:Er; [discriminate |].
      apply IH in H; [exact H |]. eapply cur_ok_advance; eauto.
Qed.

Lemma finditer_from_origin (r : regex) (fuel : nat) :
  forall c m, cur_ok s c -> In m (finditer_from ic r fuel c) ->
  exists c0 c', cur_ok s c0 /\ match_at ic r c0 = Some (c', m).
Proof.
  induction fuel as [|fuel IH]; intros c m Hc H; simpl in H; [contradiction |].
  destruct (search_from ic r (length (rest c)) c) as [[c' m']|] eqn:E; [| contradiction].
  pose proof (search_from_sound s ic r _ _ _ _ Hc E) as (Hc' & _ & _).
  destruct H as [<- | H].
  - destruct (search_from_origin r _ _ _ _ Hc E) as (c0 & Hc0 & Hm). eauto.
  - destruct (m_start m' <? m_end m').
    + eapply IH; eauto.
    + destruct (rest c') as [|x t] eqn:Er; [contradiction |].
      eapply IH; [| exact H]. eapply cur_ok_advance; eauto.
Qed.

(** A run of the matcher on a sequence goes through a match of the
    expressions before the last one, then through a run on the last one
    with the same continuation. *)
Lemma rmatch_Seqs_last {R} (l : list regex) (z : regex) :
  forall c g (k : cursor -> caps -> option R) x,
    cur_ok s c -> rmatch ic (Seqs (l ++ [z])) c g k = Some x ->
    exists c1 g1, cur_ok s c1 /\
      dmatch ic s (Seqs l) (pos c) g (pos c1) g1 /\
      rmatch ic z c1 g1 k = Some x.
Proof.
  induction l as [|a l IH]; intros c g k x Hc H.
  - exists c, g. split; [exact Hc |]. split; [constructor | exact H].
  - assert (E : Seqs ((a :: l) ++ [z]) = Seq a (Seqs (l ++ [z]))).
    { simpl. destruct (l ++ [z]) eqn:El; [destruct l; discriminate | reflexivity]. }
    rewrite E in H. simpl in H.
    destruct (rmatch_sound s ic a R c g _ x Hc H) as (c1 & g1 & Hc1 & D & K).
    destruct (IH _ _ _ _ Hc1 K) as (c2 & g2 & Hc2 & D2 & K2).
    exists c2, g2. split; [exact Hc2 |]. split; [| exact K2].
    destruct l as [|b l].
    + simpl in D2. apply dmatch_Eps_inv in D2 as [-> E2]. rewrite E2. exact D.
    + change (Seqs (a :: b :: l)) with (Seq a (Seqs (b :: l))).
      econstructor; eauto.
Qed.

(** A match leaves the groups alone that the expression does not hold. *)
Lemma dmatch_keeps (n : nat) r i g j g' :
  dmatch ic s r i g j g' -> group_bodies n r = [] -> g' !! n = g !! n.
Proof.
  induction 1; simpl; intros Hb; try reflexivity.
  - apply app_eq_nil in Hb as [H1 H2].
    rewrite (IHdmatch2 H2). exact (IHdmatch1 H1).
  - apply app_eq_nil in Hb as [H1 _]. exact (IHdmatch H1).
  - apply app_eq_nil in Hb as [_ H2]. exact (IHdmatch H2).
  - rewrite (IHdmatch2 Hb). exact (IHdmatch1 Hb).
  - apply app_eq_nil in Hb as [H1 H2].
    destruct (n =? n0) eqn:En; [discriminate |]. apply Nat.eqb_neq in En.
    rewrite lookup_insert_ne by congruence. exact (IHdmatch H2).
  - exact (IHdmatch Hb).
Qed.

Lemma slice_snoc i q y :
  s !! q = Some y -> i <= q -> slice s i (S q) = slice s i q ++ [y].
Proof.
  intros Hy Hle. rewrite (slice_split s i q (S q)) by lia.
  rewrite (slice_cons s q (S q) y Hy) by lia. rewrite slice_nil. reflexivity.
Qed.

(** The greedy repetition of a class before a continuation that always
    succeeds takes every character of the class that follows: it stops at
    the end of the subject or before a character outside the class. *)
Lemma star_class_greedy {R} (cc : cclass) (k : cursor -> caps -> option R) :
  (forall c g, k c g <> None) ->
  forall fuel c g, cur_ok s c -> length (rest c) <= fuel ->
  exists c', cur_ok s c' /\ pos c <= pos c' /\
    star_loop true (rmatch ic (Cls cc)) k fuel c g = k c' g /\
    Forall (fun x => in_class cc x = true) (slice s (pos c) (pos c')) /\
    match rest c' with
    | [] => True
    | y :: _ => in_class cc y = false
    end.
Proof.
  intros Hk. set (body := rmatch (R := R) ic (Cls cc)).
  assert (Hbody : forall c g k', body c g k' =
            match rest c with
            | x :: _ => if in_class cc x then k' (advance c) g else None
            | [] => None
            end) by reflexivity.
  clearbody body.
  induction fuel as [|fuel IH]; intros c g Hc Hlen.
  - exists c. destruct (rest c) eqn:E; [| simpl in Hlen; lia].
    split; [exact Hc |]. split; [lia |]. split; [reflexivity |].
    split; [unfold slice; rewrite Nat.sub_diag; simpl; constructor | exact I].
  - cbn [star_loop]. rewrite Hbody. destruct (rest c) as [|x t] eqn:E.
    + exists c. split; [exact Hc |]. split; [lia |]. split; [reflexivity |].
      split; [unfold slice; rewrite Nat.sub_diag; simpl; constructor |].
      rewrite E. exact I.
    + destruct (in_class cc x) eqn:Ex.
      * destruct (cur_ok_advance s c x t Hc E) as (Hc' & Hx & Hp).
        assert (Hlt : (pos c <? pos (advance c)) = true)
          by (apply Nat.ltb_lt; lia).
        rewrite Hlt.
        assert (Hlen' : length (rest (advance c)) <= fuel).
        { unfold advance. rewrite E. simpl. simpl in Hlen. lia. }
        destruct (IH (advance c) g Hc' Hlen') as (c' & Hc'' & Hle & Hs & Hall & Hstop).
        exists c'. split; [exact Hc'' |]. split; [lia |]. split.
        -- rewrite Hs. destruct (k c' g) eqn:Ek; [reflexivity |].
           exfalso. exact (Hk _ _ Ek).
        -- split; [| exact Hstop].
           rewrite Hp in Hall, Hle.
           unfold slice in *. replace (pos c' - pos c) with (S (pos c' - S (pos c))) by lia.
           rewrite (drop_S _ _ _ Hx). simpl. constructor; [exact Ex | exact Hall].
      * exists c. split; [exact Hc |]. split; [lia |]. split; [reflexivity |].
        split; [unfold slice; rewrite Nat.sub_diag; simpl; constructor |].
        rewrite E. exact Ex.
Qed.

End Greedy.

(** A literal character that is not a letter matches itself only. *)
Lemma chr_eq_paren ic a x :
  a = "("%char \/ a = ")"%char -> chr_eq ic a x = true -> x = a.
Proof.
  intros Ha H. unfold chr_eq in H.
  destruct ic; apply ascii_eqb_true in H; [| congruence].
  destruct Ha as [-> | ->];
    destruct x as [[] [] [] [] [] [] [] []]; vm_compute in H; congruence.
Qed.

(** What the optional size argument covers: nothing, or a text in
    parentheses. *)
Lemma size_span (block : str) i g j g' :
  dmatch true block (Opt size_pattern) i g j g' ->
  i <= j /\
  (slice block i j = [] \/
   exists inner, slice block i j = "("%char :: inner ++ [")"%char]).
Proof.
  intros D. pose proof (dmatch_le _ _ _ _ _ _ _ D) as Hle. split; [exact Hle |].
  apply dmatch_Alt_inv in D as [D | D].
  - right. unfold size_pattern in D.
    apply dmatch_Seqs_cons in D as (q1 & g1 & D1 & D).
    apply dmatch_Seqs_cons in D as (q2 & g2 & D2 & D).
    apply dmatch_Seqs_cons in D as (q3 & g3 & D3 & D).
    apply dmatch_Seqs_cons in D as (q4 & g4 & D4 & D).
    apply dmatch_Seqs_cons in D as (q5 & g5 & D5 & D).
    apply dmatch_Eps_inv in D as [_ ->].
    apply dmatch_le in D2, D3, D4.
    apply dmatch_Lit_inv in D1 as (_ & -> & x & Hx & Cx).
    apply dmatch_Lit_inv in D5 as (_ & -> & y & Hy & Cy).
    apply chr_eq_paren in Cx; [| auto]. apply chr_eq_paren in Cy; [| auto]. subst x y.
    exists (slice block (S i) q4).
    rewrite (slice_cons block i (S q4) _ Hx) by lia.
    rewrite (slice_snoc block (S i) q4 _ Hy) by lia. reflexivity.
  - left. apply dmatch_Eps_inv in D as [_ ->]. apply slice_nil.
Qed.

(** The parts of a match of the column pattern: the type in group 2, the
    size argument if the pattern takes one, and the trailing text in group
    5, which ends the match, holds no comma and no line feed, and stops at
    the end of the block or before a comma or a line feed. *)
Lemma col_match_parts (block : str) (m : rmatch_obj) :
  In m (re_finditer true col_pattern block) ->
  exists a b i,
    a <= b /\ b <= i /\ i <= m_end m /\ m_end m <= length block /\
    m_caps m !! 2 = Some (a, b) /\
    (slice block b i = [] \/
     exists inner, slice block b i = "("%char :: inner ++ [")"%char]) /\
    m_caps m !! 5 = Some (i, m_end m) /\
    Forall (fun x => x <> ","%char /\ x <> nl) (slice block i (m_end m)) /\
    (drop (m_end m) block = [] \/
     exists t, drop (m_end m) block = ","%char :: t \/ drop (m_end m) block = nl :: t).
Proof.
  intros Hm. unfold re_finditer in Hm.
  destruct (finditer_from_origin block true col_pattern _ _ _ (cur_ok_start block) Hm)
    as (c0 & c' & Hc0 & Hat).
  unfold match_at in Hat.
  set (cc := CNoneOf [","%char; nl]).
  change col_pattern with
    (Seqs ([Bol; ws_star; Group 1 word; ws_plus;
            Group 2 (Alts (map kw type_keywords)); Opt size_pattern]
           ++ [Group 5 (Star true (Cls cc))])) in Hat.
  apply rmatch_Seqs_last with (s := block) in Hat as (c1 & g1 & Hc1 & D & Hat);
    [| exact Hc0].
  change (star_loop true (rmatch true (Cls cc))
            (fun c2 g2 => Some (c2, MatchObj (pos c0) (pos c2)
                                      (<[5 := (pos c1, pos c2)]> g2)))
            (length (rest c1)) c1 g1 = Some (c', m)) in Hat.
  destruct (star_class_greedy block true cc
              (fun c2 g2 => Some (c2, MatchObj (pos c0) (pos c2)
                                        (<[5 := (pos c1, pos c2)]> g2)))
              ltac:(intros; discriminate)
              (length (rest c1)) c1 g1 Hc1 (Nat.le_refl _))
    as (c2 & Hc2 & Hle & Hs & Hall & Hstop).
  rewrite Hs in Hat. injection Hat as <- <-. simpl.
  apply dmatch_Seqs_cons in D as (p0 & h0 & _ & D).
  apply dmatch_Seqs_cons in D as (p1 & h1 & _ & D).
  apply dmatch_Seqs_cons in D as (p2 & h2 & _ & D).
  apply dmatch_Seqs_cons in D as (p3 & h3 & _ & D).
  apply dmatch_Seqs_cons in D as (p4 & h4 & D2 & D).
  apply dmatch_Seqs_cons in D as (p5 & h5 & Dsize & D).
  apply dmatch_Eps_inv in D as [Eg Ep]. subst g1 p5.
  pose proof (dmatch_le _ _ _ _ _ _ _ D2) as Hab.
  apply dmatch_Group_inv in D2 as (h3' & _ & ->).
  pose proof (dmatch_keeps block true 2 _ _ _ _ _ Dsize eq_refl) as Hkeep.
  rewrite lookup_insert_eq in Hkeep.
  destruct (size_span _ _ _ _ _ Dsize) as [Hbi Hsize].
  destruct Hc2 as (Hr2 & Hl2 & _).
  exists p3, p4, (pos c1).
  split; [exact Hab |]. split; [exact Hbi |]. split; [exact Hle |].
  split; [exact Hl2 |].
  split; [rewrite lookup_insert_ne by discriminate; exact Hkeep |].
  split; [exact Hsize |].
  split; [apply lookup_insert_eq |]. split.
  - eapply Forall_impl; [exact Hall |].
    intros x Hx. split; intros ->; vm_compute in Hx; discriminate.
  - rewrite <- Hr2. destruct (rest c2) as [|y t]; [left; reflexivity |].
    right. exists t. simpl in Hstop. apply negb_false_iff in Hstop.
    apply orb_true_iff in Hstop as [Hy | Hy].
    + left. apply ascii_eqb_true in Hy. subst. reflexivity.
    + apply orb_true_iff in Hy as [Hy | Hy]; [| discriminate].
      right. apply ascii_eqb_true in Hy. subst. reflexivity.
Qed.

(** A text cut at four places. *)
Lemma slice_parts (s : str) (a b i j : nat) :
  a <= b -> b <= i -> i <= j -> j <= length s ->
  s = take a s ++ slice s a b ++ slice s b i ++ slice s i j ++ drop j s /\
  length (take a s ++ slice s a b ++ slice s b i ++ slice s i j) = j.
Proof.
  intros Hab Hbi Hij Hj.
  assert (E : take j s = take a s ++ slice s a b ++ slice s b i ++ slice s i j).
  { rewrite <- (slice_split s b i j), <- (slice_split s a b j) by lia.
    unfold slice. rewrite <- take_add_drop. f_equal. lia. }
  split.
  - rewrite <- (take_drop j s) at 1. rewrite E, <- !app_assoc. reflexivity.
  - rewrite !app_assoc in E. rewrite !app_assoc, <- E, length_take. lia.
Qed.

(** C7 fails when a comma comes before the marker: the trailing text that
    the pattern captures stops at the comma of the negative scale, so the
    column is accepted as nullable although its declaration ends with
    NOT NULL. *)
Lemma nullable_despite_not_null :
  block_negative_scale = lit "  AMOUNT NUMBER(10,-2) " ++ lit "NOT NULL" /\
  _parse_columns block_negative_scale =
  Ok [mkColumn (lit "AMOUNT") (lit "NUMBER") true None None None None None].
Proof. split; vm_compute; reflexivity. Qed.

(** The same with a comma inside the default. *)
Remark nullable_after_default_call :
  _parse_columns block_default_call =
  Ok [mkColumn (lit "CREATED") (lit "DATE") true None None None
        (Some (lit "TO_DATE('2000-01-01'")) None].
Proof. vm_compute. reflexivity. Qed.

(** C7, amended.  Every column the extractor accepts comes from a match of
    the column pattern, whose text ends with the type as written, the size
    argument if the pattern takes one (a text in parentheses), and the
    trailing text.  The trailing text holds no comma and no line feed and is
    followed by the end of the block, a comma or a line feed: it is the text
    after the type and the size up to the first comma or line end.  The
    column is not nullable exactly when the upper-cased trailing text
    contains NOT NULL; it is nullable otherwise, and so when the trailing
    text is empty. *)
Theorem nullable_iff_captured_not_null (columns_block : str) (cols : list Column)
    (col : Column) :
  _parse_columns columns_block = Ok cols -> In col cols ->
  exists m dt size rest before suf,
    In m (re_finditer true col_pattern columns_block) /\
    group columns_block m 1 = Some (col_name col) /\
    group columns_block m 2 = Some dt /\ col_data_type col = upper dt /\
    group columns_block m 5 = Some rest /\
    columns_block = before ++ dt ++ size ++ rest ++ suf /\
    length (before ++ dt ++ size ++ rest) = m_end m /\
    (size = [] \/ exists inner, size = "("%char :: inner ++ [")"%char]) /\
    ~ In ","%char rest /\ ~ In nl rest /\
    (suf = [] \/ exists t, suf = ","%char :: t \/ suf = nl :: t) /\
    (col_nullable col = false <->
       exists a b, upper rest = a ++ lit "NOT NULL" ++ b) /\
    (col_nullable col = true <->
       ~ exists a b, upper rest = a ++ lit "NOT NULL" ++ b) /\
    (rest = [] -> col_nullable col = true).
Proof.
  intros H Hc. unfold _parse_columns in H.
  destruct (collect_In _ _ _ _ H Hc) as (m & Hm & Hcol).
  destruct (col_match_parts _ _ Hm)
    as (a & b & i & Hab & Hbi & Hi & Hj & Hcap2 & Hsize & Hcap5 & Hall & Hstop).
  destruct (slice_parts columns_block a b i (m_end m) Hab Hbi Hi Hj) as (Hparts & Hlen).
  assert (Hg2 : group columns_block m 2 = Some (slice columns_block a b)).
  { unfold group. rewrite Hcap2. reflexivity. }
  assert (Hg5 : group columns_block m 5 = Some (slice columns_block i (m_end m))).
  { unfold group. rewrite Hcap5. reflexivity. }
  exists m, (slice columns_block a b), (slice columns_block b i),
         (slice columns_block i (m_end m)), (take a columns_block),
         (drop (m_end m) columns_block).
  apply column_of_match_fields in Hcol as (dt & Hn & Hdt & Hty & Hnull & _).
  rewrite Hg2 in Hdt. injection Hdt as <-.
  rewrite Hg5 in Hnull. simpl in Hnull.
  rewrite Forall_forall in Hall.
  split; [exact Hm |]. split; [exact Hn |]. split; [exact Hg2 |].
  split; [exact Hty |]. split; [exact Hg5 |].
  split; [exact Hparts |]. split; [exact Hlen |]. split; [exact Hsize |].
  split; [intros Hin; apply list_elem_of_In, Hall in Hin; tauto |].
  split; [intros Hin; apply list_elem_of_In, Hall in Hin; tauto |].
  split; [exact Hstop |].
  rewrite Hnull.
  rewrite negb_false_iff, negb_true_iff, contains_true, contains_false.
  split; [tauto | split; [tauto |]].
  intros -> (x & y & E). destruct x; discriminate.
Qed.

Lemma nullable_iff_captured_not_null_witness :
  exists cols col,
    _parse_columns block_emp = Ok cols /\ In col cols /\
    col_name col = lit "ID" /\ col_nullable col = false /\
    exists m dt size rest before suf,
      In m (re_finditer true col_pattern block_emp) /\
      group block_emp m 1 = Some (col_name col) /\
      group block_emp m 2 = Some dt /\ col_data_type col = upper dt /\
      group block_emp m 5 = Some rest /\
      block_emp = before ++ dt ++ size ++ rest ++ suf /\
      length (before ++ dt ++ size ++ rest) = m_end m /\
      (size = [] \/ exists inner, size = "("%char :: inner ++ [")"%char]) /\
      ~ In ","%char rest /\ ~ In nl rest /\
      (suf = [] \/ exists t, suf = ","%char :: t \/ suf = nl :: t) /\
      (col_nullable col = false <->
         exists a b, upper rest = a ++ lit "NOT NULL" ++ b) /\
      (col_nullable col = true <->
         ~ exists a b, upper rest = a ++ lit "NOT NULL" ++ b) /\
      (rest = [] -> col_nullable col = true).
Proof.
  pose (c1 := mkColumn (lit "ID") (lit "NUMBER") false None (Some 10%Z) None None None).
  pose (c2 := mkColumn (lit "NAME") (lit "VARCHAR2") true (Some 50%Z) None None None None).
  assert (E : _parse_columns block_emp = Ok [c1; c2]) by (vm_compute; reflexivity).
  assert (I : In c1 [c1; c2]) by (left; reflexivity).
  exists [c1; c2], c1.
  split; [exact E | split; [exact I | split; [reflexivity | split; [reflexivity |]]]].
  exact (nullable_iff_captured_not_null block_emp [c1; c2] c1 E I).
Defined.

End NullableFacts.
